(** * Video Downloader: the download orchestration engine

    A shallow embedding of [src/downloader/yt_dlp_slave.py] and of the
    properties its specification states about it.

    Python values are modelled as follows.
    - [str] is a sequence of Unicode code points: [list N].
    - [dict] keeps insertion order: an association list where the order of
      iteration matters, a [gmap] where only lookups matter.
    - [set] is a [gset]; where the code iterates over one, the order of
      iteration is an explicit list.
    - an exception is a constructor of [PyExn]; code that can raise returns
      a [res].
    - calls into the handler, the backend (yt-dlp), FFmpeg and the file
      system are oracles, and every such call is recorded in a trace. *)

From Stdlib Require Import ZArith NArith QArith Qround Ascii String.
From stdpp Require Import base option list gmap sets.

Local Open Scope Z_scope.

(** ** Python strings *)

Abbreviation pystr := (list N).

(** A literal: the code points of an ASCII string. *)
Definition py (s : string) : pystr :=
  (λ a, N_of_ascii a) <$> list_ascii_of_string s.

Definition NL : N := 10%N.
Definition SP : N := 32%N.
(** U+2026 HORIZONTAL ELLIPSIS, the ['…'] of [_short_filename]. *)
Definition ELLIPSIS : N := 8230%N.

(** [len(s)] as a Python integer. *)
Definition len {A} (l : list A) : Z := Z.of_nat (length l).

(** [s == t] on strings. *)
Definition str_eqb (s t : pystr) : bool := bool_decide (s = t).

(** [s.startswith(p)] *)
Fixpoint startswith (p s : pystr) : bool :=
  match p, s with
  | [], _ => true
  | a :: p', b :: s' => (a =? b)%N && startswith p' s'
  | _ :: _, [] => false
  end.

(** [p in s] for strings: [p] occurs as a substring of [s]. *)
Fixpoint contains (p s : pystr) : bool :=
  startswith p s ||
  match s with
  | [] => false
  | _ :: s' => contains p s'
  end.

(** [str.isspace] on one code point (CPython's [_PyUnicode_IsWhitespace]). *)
Definition isspace (c : N) : bool :=
  ((9 <=? c) && (c <=? 13) || (28 <=? c) && (c <=? 32) ||
   (c =? 133) || (c =? 160) || (c =? 5760) ||
   (8192 <=? c) && (c <=? 8202) || (c =? 8232) || (c =? 8233) ||
   (c =? 8239) || (c =? 8287) || (c =? 12288))%N.

Fixpoint lstrip (s : pystr) : pystr :=
  match s with
  | c :: s' => if isspace c then lstrip s' else s
  | [] => []
  end.

Definition rstrip (s : pystr) : pystr := reverse (lstrip (reverse s)).

(** [s.strip()]: white space is removed at both ends. *)
Definition strip (s : pystr) : pystr := lstrip (rstrip s).

(** ** Exceptions and results *)

Inductive PyExn :=
| ValueError
| KeyError
| TypeError
| OSError.

Inductive res (A : Type) :=
| Ret (a : A)
| Raise (e : PyExn).
Arguments Ret {A} a.
Arguments Raise {A} e.

(** ** Filename Sanitizer/Shortener: [_short_filename] *)

Definition MAX_OUTPUT_TITLE_LENGTH : Z := 200.
Definition MAX_THUMBNAIL_RESOLUTION : Z := 1024.

Section ShortFilename.
(** [yt_dlp.utils.sanitize_filename], a function of the backend. *)
Variable sanitize_filename : pystr → pystr.
(** [s.encode(sys.getfilesystemencoding(), 'ignore')]; the encoding is a
    property of the platform. *)
Variable fs_encode : pystr → list Byte.byte.

(** The body of the [for] loop at index [i]: the candidate output. *)
Definition short_candidate (name : pystr) (i : nat) : pystr :=
  let output := strip (take i name) in
  let output :=
    if (Z.of_nat i <? len name) then output ++ [ELLIPSIS] else output in
  sanitize_filename output.

Definition fits (output : pystr) (length : Z) : bool :=
  len (fs_encode output) <? length.

(** [for i in range(len(name), -1, -1)], entered at index [i]. *)
Fixpoint short_filename_loop (name : pystr) (length : Z) (i : nat)
  : res pystr :=
  let output := short_candidate name i in
  if fits output length then Ret output
  else match i with
       | O => Raise ValueError
       | S j => short_filename_loop name length j
       end.

Definition _short_filename (name : pystr) (length : Z) : res pystr :=
  short_filename_loop name length (List.length name).

(** The candidate as the specification words it: only trailing white
    space is removed from the prefix. *)
Definition spec_candidate (name : pystr) (i : nat) : pystr :=
  let output := rstrip (take i name) in
  let output :=
    if (Z.of_nat i <? len name) then output ++ [ELLIPSIS] else output in
  sanitize_filename output.
End ShortFilename.

(** UTF-8, the usual file system encoding; with ['ignore'] the surrogate
    code points, which have no encoding, are dropped. *)
Definition byte_of (n : N) : list Byte.byte :=
  match Byte.of_N n with Some b => [b] | None => [] end.

Definition utf8_char (c : N) : list Byte.byte :=
  (if c <? 128 then byte_of c
   else if c <? 2048 then
     byte_of (192 + c / 64) ++ byte_of (128 + c mod 64)
   else if (55296 <=? c) && (c <=? 57343) then []
   else if c <? 65536 then
     byte_of (224 + c / 4096) ++ byte_of (128 + (c / 64) mod 64) ++
     byte_of (128 + c mod 64)
   else
     byte_of (240 + c / 262144) ++ byte_of (128 + (c / 4096) mod 64) ++
     byte_of (128 + (c / 64) mod 64) ++ byte_of (128 + c mod 64))%N.

Definition utf8_encode (s : pystr) : list Byte.byte := s ≫= utf8_char.

(** A sanitizer that leaves its argument alone, as yt-dlp's does on strings
    of letters and spaces. *)
Definition sanitize_none (s : pystr) : pystr := s.

(** ** The WEBVTT repair of [SubtitlesConverterPP.run]

    [re.sub(r'(?<=\n\n)([0-9.:]+ --> [0-9.:]+\n)\n(?: +\n)* *', r'\1', webvtt)]

    Every greedy repetition of the pattern is followed by a character that
    the repeated class excludes (or by nothing at all), so the backtracking
    matcher of [re] finds a match exactly when taking the longest run at each
    repetition does, and finds that one. *)

(** The class [[0-9.:]]. *)
Definition is_ts_char (c : N) : bool :=
  ((48 <=? c) && (c <=? 57) || (c =? 46) || (c =? 58))%N.

(** [[0-9.:]*], greedy: the longest run and what follows it. *)
Fixpoint span_ts (s : pystr) : pystr * pystr :=
  match s with
  | c :: s' =>
      if is_ts_char c then let '(a, r) := span_ts s' in (c :: a, r)
      else ([], s)
  | [] => ([], [])
  end.

(** Group 1, [[0-9.:]+ --> [0-9.:]+\n], at the head of [s]: the text of the
    group and the rest of [s]. *)
Definition match_timestamp (s : pystr) : option (pystr * pystr) :=
  let '(a, r1) := span_ts s in
  match a with
  | [] => None
  | _ :: _ =>
      if startswith (py " --> ") r1 then
        let '(b, r2) := span_ts (drop 5 r1) in
        match b, r2 with
        | _ :: _, c :: r3 =>
            if (c =? NL)%N then Some (a ++ py " --> " ++ b ++ [NL], r3)
            else None
        | _, _ => None
        end
      else None
  end.

(** [(?: +\n)* *] at the head of [s]: what is left after it.  [in_spaces]
    tells that the current line has begun with at least one space. *)
Fixpoint skip_blank (in_spaces : bool) (s : pystr) : pystr :=
  match s with
  | c :: s' =>
      if (c =? SP)%N then skip_blank true s'
      else if (c =? NL)%N && in_spaces then skip_blank false s'
      else s
  | [] => []
  end.

(** The pattern after its lookbehind, at the head of [s]: group 1 and the
    rest of [s] after the whole match. *)
Definition match_broken_cue (s : pystr) : option (pystr * pystr) :=
  match match_timestamp s with
  | Some (g1, c :: r) =>
      if (c =? NL)%N then Some (g1, skip_blank false r) else None
  | _ => None
  end.

(** [(?<=\n\n)]: [before] is the text in front of the position, last
    character first. *)
Definition lookbehind_blank (before : pystr) : bool :=
  match before with
  | a :: b :: _ => (a =? NL)%N && (b =? NL)%N
  | _ => false
  end.

Definition match_at (before s : pystr) : option (pystr * pystr) :=
  if lookbehind_blank before then match_broken_cue s else None.

(** The scan of [re.sub]: at each position, left to right, a match is
    replaced by group 1 and the scan goes on behind it; otherwise one
    character is copied.  The pattern matches no empty string. *)
Fixpoint sub_loop (fuel : nat) (before s : pystr) : pystr :=
  match fuel with
  | O => s
  | S fuel' =>
      match match_at before s with
      | Some (g1, rest) =>
          let whole := take (length s - length rest) s in
          g1 ++ sub_loop fuel' (reverse whole ++ before) rest
      | None =>
          match s with
          | c :: s' => c :: sub_loop fuel' (c :: before) s'
          | [] => []
          end
      end
  end.

Definition fix_webvtt (webvtt : pystr) : pystr :=
  sub_loop (S (length webvtt)) [] webvtt.

(** Where the scan finds its matches: [true] when no match is directly
    followed by a newline. *)
Fixpoint no_newline_after_match (fuel : nat) (before s : pystr) : bool :=
  match fuel with
  | O => true
  | S fuel' =>
      match match_at before s with
      | Some (g1, rest) =>
          let whole := take (length s - length rest) s in
          negb (startswith [NL] rest) &&
          no_newline_after_match fuel' (reverse whole ++ before) rest
      | None =>
          match s with
          | c :: s' => no_newline_after_match fuel' (c :: before) s'
          | [] => true
          end
      end
  end.

Definition collapses_cleanly (webvtt : pystr) : bool :=
  no_newline_after_match (S (length webvtt)) [] webvtt.


(** ** Association lists for dictionaries whose order of iteration matters *)

(** [d[k] = v]: the value of an existing key is replaced in place, a new key
    goes to the end. *)
Fixpoint dict_set {V} (k : pystr) (v : V) (d : list (pystr * V))
  : list (pystr * V) :=
  match d with
  | [] => [(k, v)]
  | (k', v') :: d' =>
      if str_eqb k' k then (k, v) :: d' else (k', v') :: dict_set k v d'
  end.

(** [k in d] *)
Definition dict_has {V} (k : pystr) (d : list (pystr * V)) : bool :=
  existsb (λ kv, str_eqb kv.1 k) d.

(** [x or y] on optional strings: [None] and [''] are false. *)
Definition truthy (o : option pystr) : option pystr :=
  match o with
  | Some (c :: s) => Some (c :: s)
  | _ => None
  end.

(** ** Post-processors *)

(** What a post-processor sees of the world: the files of the working
    directory that can be opened for reading, with their content, and the
    part of the info dict that [_convert_filepath] updates.

    The content of a file is its bytes, given as the text that decoding
    them as UTF-8 with the error handler ['surrogateescape'] yields: bytes
    that are well-formed UTF-8 are the text they encode, and every other
    byte is a surrogate code point. *)
Record PPState := {
  files_to_delete : list pystr;
  files_to_move : gmap pystr pystr;   (* info['__files_to_move'] *)
  fs : gmap pystr pystr;              (* path ↦ content *)
  callbacks : list pystr              (* calls of the thumbnail callback *)
}.

Definition pp_delete (p : pystr) (st : PPState) : PPState :=
  {| files_to_delete := files_to_delete st ++ [p];
     files_to_move := files_to_move st;
     fs := fs st; callbacks := callbacks st |}.

Definition pp_move (k v : pystr) (st : PPState) : PPState :=
  {| files_to_delete := files_to_delete st;
     files_to_move := <[k := v]> (files_to_move st);
     fs := fs st; callbacks := callbacks st |}.

(** The state once the file [p] holds [data]. *)
Definition pp_store (p data : pystr) (st : PPState) : PPState :=
  {| files_to_delete := files_to_delete st;
     files_to_move := files_to_move st;
     fs := <[p := data]> (fs st); callbacks := callbacks st |}.

Definition pp_set_fs (fs' : gmap pystr pystr) (st : PPState) : PPState :=
  {| files_to_delete := files_to_delete st;
     files_to_move := files_to_move st;
     fs := fs'; callbacks := callbacks st |}.

Definition pp_callback (p : pystr) (st : PPState) : PPState :=
  {| files_to_delete := files_to_delete st;
     files_to_move := files_to_move st;
     fs := fs st; callbacks := callbacks st ++ [p] |}.

(** What a step of a post-processor comes to: a value and the new state, or
    an exception that leaves the post-processor. *)
Inductive ppres (A : Type) :=
| PPOk (a : A) (st : PPState)
| PPRaise (e : PyExn).
Arguments PPOk {A} a st.
Arguments PPRaise {A} e.

(** [_convert_filepath(info, files_to_delete, filepath, new_ext, type_)] *)
Definition _convert_filepath (st : PPState) (filepath new_ext type_ : pystr)
  : ppres pystr :=
  let prefix := py "." ++ type_ ++ py "." ++ new_ext in
  let st := pp_delete filepath st in
  match files_to_move st !! filepath with
  | None => PPRaise KeyError
  | Some target =>
      PPOk (filepath ++ prefix)
           (pp_move (filepath ++ prefix) (target ++ prefix) st)
  end.

(** A subtitle track.  [sub_more] stands for the keys that the
    post-processor only copies. *)
Record Subtitle := {
  sub_filepath : option pystr;
  sub_ext : option pystr;
  sub_more : list (pystr * pystr)
}.

(** A surrogate code point: it has no encoding in UTF-8, and in the content
    of a file it stands for a byte that is not part of well-formed UTF-8. *)
Definition is_surrogate (c : N) : bool := ((55296 <=? c) && (c <=? 57343))%N.

(** The text can be encoded as UTF-8; of the content of a file: the bytes
    can be decoded as UTF-8. *)
Definition well_formed (data : pystr) : bool :=
  forallb (λ c, negb (is_surrogate c)) data.

(** Universal newlines, which a file that is read in text mode applies:
    ['\r\n'] and ['\r'] become ['\n']. *)
Fixpoint universal_newlines (s : pystr) : pystr :=
  match s with
  | [] => []
  | c :: s' =>
      if (c =? 13)%N then
        NL :: match s' with
              | d :: s'' =>
                  if (d =? NL)%N then universal_newlines s''
                  else universal_newlines s'
              | [] => []
              end
      else c :: universal_newlines s'
  end.

(** What a file that is written in text mode makes of its text: ['\n']
    becomes [os.linesep]. *)
Definition write_newlines (linesep s : pystr) : pystr :=
  s ≫= (λ c, if (c =? NL)%N then linesep else [c]).

(** [with open(filepath, 'rb') as f: f.read()] *)
Definition pp_read_bytes (st : PPState) (filepath : pystr) : res pystr :=
  match fs st !! filepath with
  | Some data => Ret data
  | None => Raise OSError
  end.

(** [with open(filepath, encoding='utf-8') as f: f.read()]; the
    [UnicodeDecodeError] of bytes that cannot be decoded is a
    [ValueError]. *)
Definition pp_read_text (st : PPState) (filepath : pystr) : res pystr :=
  match fs st !! filepath with
  | Some data =>
      if well_formed data then Ret (universal_newlines data)
      else Raise ValueError
  | None => Raise OSError
  end.

Section SubtitlesConverterPP.
(** [yt_dlp.utils.dfxp2srt], from the bytes of a file to a text; [None]
    when it raises. *)
Variable dfxp2srt : pystr → option pystr.
(** [FFmpegPostProcessor.run_ffmpeg(path, out_path, opts)], which writes
    [out_path]; [None] when it raises [FFmpegPostProcessorError]. *)
Variable run_ffmpeg :
  gmap pystr pystr → pystr → pystr → list pystr → option (gmap pystr pystr).
(** [os.linesep] *)
Variable linesep : pystr.
(** Whether the file can be opened for writing and written to; [open] or
    [write] raises [OSError] otherwise. *)
Variable writable : gmap pystr pystr → pystr → bool.

(** [with open(filepath, 'w', encoding='utf-8') as f: f.write(data)]; the
    [UnicodeEncodeError] of a text that cannot be encoded is a
    [ValueError]. *)
Definition pp_write_text (st : PPState) (filepath data : pystr)
  : res PPState :=
  if negb (writable (fs st) filepath) then Raise OSError
  else if negb (well_formed data) then Raise ValueError
  else Ret (pp_store filepath (write_newlines linesep data) st).

(** One turn of the loop: [None] for [continue], [Some sub] when [sub] is
    stored in [new_subtitles]. *)
Definition convert_subtitle (st : PPState) (sub : Subtitle)
  : ppres (option Subtitle) :=
  match truthy (sub_filepath sub) with
  | None => PPOk None st
  | Some filepath =>
      match sub_ext sub with
      | None => PPRaise KeyError
      | Some ext =>
          let srt :=
            if bool_decide (ext ∈ [py "dfxp"; py "ttml"; py "tt"]) then
              match pp_read_bytes st filepath with
              | Raise e => PPRaise e
              | Ret data =>
                  match dfxp2srt data with
                  | None => PPOk None (pp_delete filepath st)
                  | Some data =>
                      match _convert_filepath st filepath (py "srt")
                                              (py "conv") with
                      | PPRaise e => PPRaise e
                      | PPOk filepath st =>
                          match pp_write_text st filepath data with
                          | Raise e => PPRaise e
                          | Ret st => PPOk (Some filepath) st
                          end
                      end
                  end
              end
            else PPOk (Some filepath) st in
          match srt with
          | PPRaise e => PPRaise e
          | PPOk None st => PPOk None st
          | PPOk (Some filepath) st =>
              match _convert_filepath st filepath (py "vtt") (py "conv") with
              | PPRaise e => PPRaise e
              | PPOk new_filepath st =>
                  match run_ffmpeg (fs st) filepath new_filepath
                                   [py "-f"; py "webvtt"] with
                  | None => PPOk None (pp_delete new_filepath st)
                  | Some fs' =>
                      let st := pp_set_fs fs' st in
                      let filepath := new_filepath in
                      match pp_read_text st filepath with
                      | Raise e => PPRaise e
                      | Ret webvtt =>
                          let new_webvtt := fix_webvtt webvtt in
                          let fixed :=
                            if bool_decide (webvtt ≠ new_webvtt) then
                              match _convert_filepath st filepath (py "vtt")
                                                      (py "fix") with
                              | PPRaise e => PPRaise e
                              | PPOk filepath st =>
                                  match pp_write_text st filepath
                                                      new_webvtt with
                                  | Raise e => PPRaise e
                                  | Ret st => PPOk filepath st
                                  end
                              end
                            else PPOk filepath st in
                          match fixed with
                          | PPRaise e => PPRaise e
                          | PPOk filepath st =>
                              PPOk (Some {| sub_filepath := Some filepath;
                                            sub_ext := Some (py "vtt");
                                            sub_more := sub_more sub |}) st
                          end
                      end
                  end
              end
          end
      end
  end.

(** [for lang, sub in (info.get('requested_subtitles') or {}).items()] *)
Fixpoint convert_subtitles (st : PPState) (subs : list (pystr * Subtitle))
    (new_subtitles : list (pystr * Subtitle))
  : ppres (list (pystr * Subtitle)) :=
  match subs with
  | [] => PPOk new_subtitles st
  | (lang, sub) :: subs' =>
      match convert_subtitle st sub with
      | PPRaise e => PPRaise e
      | PPOk None st => convert_subtitles st subs' new_subtitles
      | PPOk (Some sub') st =>
          convert_subtitles st subs' (dict_set lang sub' new_subtitles)
      end
  end.

(** [SubtitlesConverterPP.run(info)].  The state that is returned carries
    the list of files to delete and the updated [info['__files_to_move']];
    the value is the new [info['requested_subtitles']]. *)
Definition SubtitlesConverterPP_run
    (requested_subtitles : option (list (pystr * Subtitle)))
    (files_to_move0 fs0 : gmap pystr pystr)
  : ppres (list (pystr * Subtitle)) :=
  let st := {| files_to_delete := []; files_to_move := files_to_move0;
               fs := fs0; callbacks := [] |} in
  convert_subtitles st (default [] requested_subtitles) [].
End SubtitlesConverterPP.


(** A thumbnail.  [thumb_more] stands for the keys that the post-processor
    only copies. *)
Record Thumbnail := {
  thumb_filepath : option pystr;
  thumb_more : list (pystr * pystr)
}.

(** [s.replace('%', '%%')] *)
Definition escape_percent (s : pystr) : pystr :=
  s ≫= (λ c, if (c =? 37)%N then [37%N; 37%N] else [c]).

(** The output options of the thumbnail conversion, with
    [MAX_THUMBNAIL_RESOLUTION] formatted in. *)
Definition thumbnail_scale : list pystr :=
  [py "-vf";
   py "scale='min(1024,iw):min(1024,ih):force_original_aspect_ratio=decrease'"].

Section ThumbnailConverterPP.
(** [FFmpegPostProcessor.real_run_ffmpeg(inputs, outputs)], which writes the
    output; [None] when it raises [FFmpegPostProcessorError]. *)
Variable real_run_ffmpeg :
  gmap pystr pystr → list (pystr * list pystr) → list (pystr * list pystr) →
  option (gmap pystr pystr).
(** [os.path.abspath] in the working directory of the backend. *)
Variable abspath : pystr → pystr.
(** Whether [self._thumbnail_callback is not None]. *)
Variable has_thumbnail_callback : bool.

(** [for thumb in reversed(info.get('thumbnails') or [])], on the list
    already reversed. *)
Fixpoint convert_thumbnails (st : PPState) (thumbs : list Thumbnail)
    (new_thumbnails : list Thumbnail) : ppres (list Thumbnail) :=
  match thumbs with
  | [] => PPOk new_thumbnails st
  | thumb :: thumbs' =>
      match truthy (thumb_filepath thumb) with
      | None => convert_thumbnails st thumbs' new_thumbnails
      | Some filepath =>
          match new_thumbnails with
          | _ :: _ =>
              (* Convert only one thumbnail *)
              convert_thumbnails (pp_delete filepath st) thumbs'
                                 new_thumbnails
          | [] =>
              match _convert_filepath st filepath (py "jpg") (py "conv") with
              | PPRaise e => PPRaise e
              | PPOk new_filepath st =>
                  match real_run_ffmpeg (fs st)
                          [(filepath, [py "-f"; py "image2";
                                       py "-pattern_type"; py "none"])]
                          [(escape_percent new_filepath, thumbnail_scale)]
                  with
                  | None =>
                      convert_thumbnails (pp_delete new_filepath st) thumbs'
                                         new_thumbnails
                  | Some fs' =>
                      let st := pp_set_fs fs' st in
                      let filepath := new_filepath in
                      let new_thumbnails :=
                        {| thumb_filepath := Some filepath;
                           thumb_more := thumb_more thumb |}
                        :: new_thumbnails in
                      let st :=
                        if has_thumbnail_callback
                        then pp_callback (abspath filepath) st else st in
                      convert_thumbnails st thumbs' new_thumbnails
                  end
              end
          end
      end
  end.

(** [ThumbnailConverterPP.run(info)]; the value is the new
    [info['thumbnails']]. *)
Definition ThumbnailConverterPP_run (thumbnails : option (list Thumbnail))
    (files_to_move0 fs0 : gmap pystr pystr) : ppres (list Thumbnail) :=
  let st := {| files_to_delete := []; files_to_move := files_to_move0;
               fs := fs0; callbacks := [] |} in
  convert_thumbnails st (reverse (default [] thumbnails)) [].
End ThumbnailConverterPP.

(** ** [YoutubeDLSlave] *)

(** The options that are fixed when the slave is set up. *)
Inductive FormatSort :=
| ResApprox (resolution : Z)     (* 'res~%d' % resolution *)
| PreferAvcM4a.                  (* '+codec:avc:m4a' *)

Inductive PPKey :=
| FFmpegExtractAudio (preferredcodec preferredquality : pystr)
| EmbedThumbnail (already_have_thumbnail : bool)
| FFmpegMetadata
| FFmpegEmbedSubtitle
| XAttrMetadata.

(** [self.ydl_opts]; an option that is [None] is a key that is absent. *)
Record Opts := {
  opt_format : option pystr;
  opt_format_sort : option (list FormatSort);
  opt_postprocessors : list PPKey;
  opt_username : option pystr;
  opt_password : option pystr;
  opt_videopassword : option pystr;
  opt_cookiefile : option pystr;
  opt_playlistend : option Z;
  opt_noplaylist : option bool;
  opt_writesubtitles : option bool;
  opt_writeautomaticsub : option bool;
  opt_writethumbnail : option bool
}.

Definition set_credentials (user password : pystr) (o : Opts) : Opts :=
  {| opt_format := opt_format o; opt_format_sort := opt_format_sort o;
     opt_postprocessors := opt_postprocessors o;
     opt_username := Some user; opt_password := Some password;
     opt_videopassword := opt_videopassword o;
     opt_cookiefile := opt_cookiefile o;
     opt_playlistend := opt_playlistend o;
     opt_noplaylist := opt_noplaylist o;
     opt_writesubtitles := opt_writesubtitles o;
     opt_writeautomaticsub := opt_writeautomaticsub o;
     opt_writethumbnail := opt_writethumbnail o |}.

Definition set_videopassword (password : pystr) (o : Opts) : Opts :=
  {| opt_format := opt_format o; opt_format_sort := opt_format_sort o;
     opt_postprocessors := opt_postprocessors o;
     opt_username := opt_username o; opt_password := opt_password o;
     opt_videopassword := Some password;
     opt_cookiefile := opt_cookiefile o;
     opt_playlistend := opt_playlistend o;
     opt_noplaylist := opt_noplaylist o;
     opt_writesubtitles := opt_writesubtitles o;
     opt_writeautomaticsub := opt_writeautomaticsub o;
     opt_writethumbnail := opt_writethumbnail o |}.

Definition set_cookiefile (p : pystr) (o : Opts) : Opts :=
  {| opt_format := opt_format o; opt_format_sort := opt_format_sort o;
     opt_postprocessors := opt_postprocessors o;
     opt_username := opt_username o; opt_password := opt_password o;
     opt_videopassword := opt_videopassword o;
     opt_cookiefile := Some p;
     opt_playlistend := opt_playlistend o;
     opt_noplaylist := opt_noplaylist o;
     opt_writesubtitles := opt_writesubtitles o;
     opt_writeautomaticsub := opt_writeautomaticsub o;
     opt_writethumbnail := opt_writethumbnail o |}.

(** [ydl_opts['playlistend'] = n], and [del ydl_opts['playlistend']] for
    [None]. *)
Definition set_playlistend (n : option Z) (o : Opts) : Opts :=
  {| opt_format := opt_format o; opt_format_sort := opt_format_sort o;
     opt_postprocessors := opt_postprocessors o;
     opt_username := opt_username o; opt_password := opt_password o;
     opt_videopassword := opt_videopassword o;
     opt_cookiefile := opt_cookiefile o;
     opt_playlistend := n;
     opt_noplaylist := opt_noplaylist o;
     opt_writesubtitles := opt_writesubtitles o;
     opt_writeautomaticsub := opt_writeautomaticsub o;
     opt_writethumbnail := opt_writethumbnail o |}.

(** [ydl_opts['noplaylist'] = b], and [del ydl_opts['noplaylist']] for
    [None]. *)
Definition set_noplaylist (b : option bool) (o : Opts) : Opts :=
  {| opt_format := opt_format o; opt_format_sort := opt_format_sort o;
     opt_postprocessors := opt_postprocessors o;
     opt_username := opt_username o; opt_password := opt_password o;
     opt_videopassword := opt_videopassword o;
     opt_cookiefile := opt_cookiefile o;
     opt_playlistend := opt_playlistend o;
     opt_noplaylist := b;
     opt_writesubtitles := opt_writesubtitles o;
     opt_writeautomaticsub := opt_writeautomaticsub o;
     opt_writethumbnail := opt_writethumbnail o |}.

(** The three assignments in front of the download loop. *)
Definition set_write_all (o : Opts) : Opts :=
  {| opt_format := opt_format o; opt_format_sort := opt_format_sort o;
     opt_postprocessors := opt_postprocessors o;
     opt_username := opt_username o; opt_password := opt_password o;
     opt_videopassword := opt_videopassword o;
     opt_cookiefile := opt_cookiefile o;
     opt_playlistend := opt_playlistend o;
     opt_noplaylist := opt_noplaylist o;
     opt_writesubtitles := Some true;
     opt_writeautomaticsub := Some true;
     opt_writethumbnail := Some true |}.

(** The options of [__init__] for a mode. *)
Definition initial_opts (mode : pystr) (resolution : Z) (prefer_mpeg : bool)
  : Opts :=
  let audio := str_eqb mode (py "audio") in
  {| opt_format := if audio then Some (py "bestaudio/best") else None;
     opt_format_sort :=
       if audio then None
       else Some (ResApprox resolution ::
                  if prefer_mpeg then [PreferAvcM4a] else []);
     opt_postprocessors :=
       (if audio then [FFmpegExtractAudio (py "mp3") (py "192");
                       EmbedThumbnail true] else []) ++
       [FFmpegMetadata; FFmpegEmbedSubtitle; XAttrMetadata];
     opt_username := None; opt_password := None; opt_videopassword := None;
     opt_cookiefile := None; opt_playlistend := None; opt_noplaylist := None;
     opt_writesubtitles := None; opt_writeautomaticsub := None;
     opt_writethumbnail := None |}.

(** The info dict of one item, as far as the slave reads it.  The payload of
    a caption language is only copied. *)
Abbreviation Captions := (list (pystr * list pystr)).

Record InfoDict := {
  info_id : option pystr;
  info_title : option pystr;
  info_subtitles : option Captions;
  info_automatic_captions : option Captions;
  info_backup_automatic_captions : option Captions
}.

(** The fraction that [_on_progress] reports: the float [a / b], or [-1]. *)
Inductive Fraction :=
| Quotient (a b : Z)
| MinusOne.

(** One progress tick of the backend. *)
Record Tick := {
  tick_status : pystr;
  tick_filename : option pystr;
  tick_downloaded_bytes : option Z;
  tick_total_bytes : option Z;
  tick_total_bytes_estimate : option Z;
  tick_fragment_index : option Z;
  tick_fragment_count : option Z;
  tick_eta : option Z;
  tick_speed : option Q
}.

(** Every call that leaves the slave. *)
Inductive Event :=
| EvStderr (msg : pystr)
| EvLoginRequest
| EvPasswordRequest
| EvPlaylistRequest
| EvOnError (msg : pystr)
| EvOnProgress (filename : pystr) (progress : Fraction)
    (bytes_ bytes_total eta speed : Z)
| EvDownloadStart (i total : Z) (title : pystr)
| EvDownloadLock (output_title : pystr)
| EvSleep
| EvDownloadFinished (filename : pystr)
| EvYdlDownload (opts : Opts) (url : pystr)
| EvYdlDownloadWithInfoFile (opts : Opts) (info_path : pystr)
| EvMakedirs (path : pystr)
| EvWriteInfo (path : pystr) (info : InfoDict)
| EvReplace (src dst : pystr)
| EvRmtree (path : pystr).

(** What the backend does during one invocation, as far as the slave sees
    it. *)
Inductive BackendStep :=
| LogError (msg : pystr)
| ProgressHook (d : Tick)
| WriteFile (name : pystr) (info : InfoDict).


(** The state of a slave: its three private attributes, its options, the
    calls it has made so far, oldest first, and the info files of its
    working directory. *)
Record Slave := {
  _allow_authentication_request : bool;
  _skip_authentication : bool;
  _skipped_count : Z;
  ydl_opts : Opts;
  trace : list Event;
  workdir : list (pystr * InfoDict)
}.

Definition emit (e : Event) (s : Slave) : Slave :=
  {| _allow_authentication_request := _allow_authentication_request s;
     _skip_authentication := _skip_authentication s;
     _skipped_count := _skipped_count s;
     ydl_opts := ydl_opts s;
     trace := trace s ++ [e];
     workdir := workdir s |}.

Definition set_allow (b : bool) (s : Slave) : Slave :=
  {| _allow_authentication_request := b;
     _skip_authentication := _skip_authentication s;
     _skipped_count := _skipped_count s;
     ydl_opts := ydl_opts s;
     trace := trace s;
     workdir := workdir s |}.

Definition set_skip (b : bool) (s : Slave) : Slave :=
  {| _allow_authentication_request := _allow_authentication_request s;
     _skip_authentication := b;
     _skipped_count := _skipped_count s;
     ydl_opts := ydl_opts s;
     trace := trace s;
     workdir := workdir s |}.

(** [self._skipped_count += 1] *)
Definition count_skipped (s : Slave) : Slave :=
  {| _allow_authentication_request := _allow_authentication_request s;
     _skip_authentication := _skip_authentication s;
     _skipped_count := _skipped_count s + 1;
     ydl_opts := ydl_opts s;
     trace := trace s;
     workdir := workdir s |}.

Definition set_workdir (d : list (pystr * InfoDict)) (s : Slave) : Slave :=
  {| _allow_authentication_request := _allow_authentication_request s;
     _skip_authentication := _skip_authentication s;
     _skipped_count := _skipped_count s;
     ydl_opts := ydl_opts s;
     trace := trace s;
     workdir := d |}.

Definition update_opts (f : Opts → Opts) (s : Slave) : Slave :=
  {| _allow_authentication_request := _allow_authentication_request s;
     _skip_authentication := _skip_authentication s;
     _skipped_count := _skipped_count s;
     ydl_opts := f (ydl_opts s);
     trace := trace s;
     workdir := workdir s |}.

(** How a piece of the slave ends. *)
Inductive Outcome (A : Type) :=
| Done (a : A) (s : Slave)           (* it returns *)
| Retry (msg : pystr) (s : Slave)    (* raise RetryException(msg) *)
| Exit (code : Z) (s : Slave)        (* sys.exit(code) *)
| Crash (e : PyExn) (s : Slave)      (* any other exception *)
| OutOfFuel (s : Slave).             (* the loop has not ended yet *)
Arguments Done {A} a s.
Arguments Retry {A} msg s.
Arguments Exit {A} code s.
Arguments Crash {A} e s.
Arguments OutOfFuel {A} s.

Definition M (A : Type) : Type := Slave → Outcome A.

#[export] Instance M_ret : MRet M := λ A a s, Done a s.
#[export] Instance M_bind : MBind M := λ A B f m s,
  match m s with
  | Done a s' => f a s'
  | Retry msg s' => Retry msg s'
  | Exit code s' => Exit code s'
  | Crash e s' => Crash e s'
  | OutOfFuel s' => OutOfFuel s'
  end.

Definition get : M Slave := λ s, Done s s.
Definition modify (f : Slave → Slave) : M unit := λ s, Done () (f s).
Definition call (e : Event) : M unit := modify (emit e).
Definition raise_retry {A} (msg : pystr) : M A := λ s, Retry msg s.
Definition sys_exit {A} (code : Z) : M A := λ s, Exit code s.
Definition crash {A} (e : PyExn) : M A := λ s, Crash e s.
Definition out_of_fuel {A} : M A := λ s, OutOfFuel s.

(** [try: m except RetryException: handler] *)
Definition catch_retry {A} (m : M A) (handler : M A) : M A := λ s,
  match m s with
  | Retry _ s' => handler s'
  | o => o
  end.

(** [round(x)] on a float: to the nearest integer, a tie to the even one. *)
Definition py_round (x : Q) : Z :=
  let f := Qfloor x in
  match Qcompare (x - inject_Z f) (1 # 2) with
  | Lt => f
  | Gt => f + 1
  | Eq => if Z.even f then f else f + 1
  end.

(** [sorted] on strings: by code point, a prefix first. *)
Fixpoint str_leb (s t : pystr) : bool :=
  match s, t with
  | [], _ => true
  | _ :: _, [] => false
  | a :: s', b :: t' => (a <? b)%N || ((a =? b)%N && str_leb s' t')
  end.

Fixpoint insert_sorted {V} (kv : pystr * V) (l : list (pystr * V))
  : list (pystr * V) :=
  match l with
  | [] => [kv]
  | kv' :: l' =>
      if str_leb kv.1 kv'.1 then kv :: l else kv' :: insert_sorted kv l'
  end.

Definition sorted_by_name {V} (l : list (pystr * V)) : list (pystr * V) :=
  foldr insert_sorted [] l.

Definition is_digit (c : N) : bool := ((48 <=? c) && (c <=? 57))%N.

(** [[0-9]*], greedy: what follows the longest run of digits. *)
Fixpoint skip_digits (s : pystr) : pystr :=
  match s with
  | c :: s' => if is_digit c then skip_digits s' else s
  | [] => []
  end.

(** [re.fullmatch(r'[0-9]+\.info\.json', filename)] *)
Definition is_info_json (filename : pystr) : bool :=
  match filename with
  | c :: _ => is_digit c && str_eqb (skip_digits filename) (py ".info.json")
  | [] => false
  end.

(** [os.path.join(a, b)] on POSIX. *)
Definition path_join (a b : pystr) : pystr :=
  if startswith (py "/") b then b
  else match last a with
       | None => b
       | Some c => if (c =? 47)%N then a ++ b else a ++ py "/" ++ b
       end.

(** [s.rfind(c)]: the last index of [c] in [s], or [-1]. *)
Fixpoint rfind_from (c : N) (s : pystr) (i : Z) (found : Z) : Z :=
  match s with
  | [] => found
  | d :: s' => rfind_from c s' (i + 1) (if (d =? c)%N then i else found)
  end.

Definition rfind (c : N) (s : pystr) : Z := rfind_from c s 0 (-1).

(** [os.path.splitext(p)] on POSIX: the extension starts at the last dot
    of the last component, unless only dots stand in front of it. *)
Definition splitext (p : pystr) : pystr * pystr :=
  let sepIndex := rfind 47%N p in
  let dotIndex := rfind 46%N p in
  if (sepIndex <? dotIndex) &&
     negb (forallb (λ c, (c =? 46)%N)
             (drop (Z.to_nat (sepIndex + 1)) (take (Z.to_nat dotIndex) p)))
  then (take (Z.to_nat dotIndex) p, drop (Z.to_nat dotIndex) p)
  else (p, []).


(** The handler: its configuration, and its interactive methods, whose
    answers may depend on everything that has happened so far. *)
Record Handler := {
  get_mode : pystr;
  get_resolution : Z;
  get_prefer_mpeg : bool;
  get_url : pystr;
  get_download_dir : pystr;
  get_automatic_subtitles : list pystr;  (* in the order the set iterates *)
  on_login_request : list Event → pystr * pystr;
  on_password_request : list Event → pystr;
  on_playlist_request : list Event → bool;
  on_download_lock : list Event → pystr → bool
}.

(** What lies outside the repository: yt-dlp, the standard library where
    its answer depends on a Unicode table or on the platform, and the file
    system. *)
Record World := {
  (** [yt_dlp.utils.sanitize_filename] *)
  sanitize_filename : pystr → pystr;
  (** [s.encode(sys.getfilesystemencoding(), 'ignore')] *)
  fs_encode : pystr → list Byte.byte;
  (** [str.lower] *)
  str_lower : pystr → pystr;
  (** the class [\w] of [re] on [str] patterns *)
  is_word : N → bool;
  (** [os.path.abspath] *)
  abspath : pystr → pystr;
  (** [tempfile.TemporaryDirectory()]: the name of the new directory *)
  mkdtemp : list Event → pystr;
  (** [YoutubeDL(opts).download([url])] *)
  ydl_download : list Event → Opts → pystr → list BackendStep;
  (** [YoutubeDL(opts).download_with_info_file(info_path)] and the
      [info['filepath']] that [GetFilepathPP] has seen, if it has run *)
  ydl_download_with_info_file :
    list Event → Opts → pystr → list BackendStep * option pystr;
  (** the entries of a directory, in the order [glob] visits them, each
      with [os.path.isfile] *)
  listdir : list Event → pystr → list (pystr * bool);
  (** [os.makedirs(path, exist_ok=True)]: the text of the [OSError], if it
      raises *)
  makedirs : list Event → pystr → option pystr;
  (** [os.replace(src, dst)]: the text of the [OSError], if it raises *)
  os_replace : list Event → pystr → pystr → option pystr
}.

Section YoutubeDLSlave.
Variable handler : Handler.
Variable world : World.

(** *** [_on_progress] *)

Definition _on_progress (d : Tick) : M unit :=
  if negb (bool_decide (tick_status d ∈ [py "downloading"; py "finished"]))
  then mret ()
  else
    match tick_filename d with
    | None => crash KeyError
    | Some filename =>
        let bytes_ := default (-1) (tick_downloaded_bytes d) in
        let bytes_total :=
          match tick_total_bytes d with
          | Some t => Some t
          | None => tick_total_bytes_estimate d
          end in
        let bytes_total := default (-1) bytes_total in
        if str_eqb (tick_status d) (py "downloading") then
          let fragments := default (-1) (tick_fragment_index d) in
          let fragments_total := default (-1) (tick_fragment_count d) in
          let progress :=
            if (0 <=? bytes_) && (0 <=? bytes_total) then
              if 0 <? bytes_total then Quotient bytes_ bytes_total
              else MinusOne
            else if (0 <=? fragments) && (0 <=? fragments_total) then
              if 0 <? fragments_total then Quotient fragments fragments_total
              else MinusOne
            else MinusOne in
          let eta := default (-1) (tick_eta d) in
          let speed := default (-1 # 1)%Q (tick_speed d) in
          let speed := py_round speed in
          call (EvOnProgress filename progress bytes_ bytes_total eta speed)
        else
          call (EvOnProgress filename MinusOne bytes_ bytes_total (-1) (-1))
    end.

(** *** [error] *)

Definition word_at (c : option N) : bool := from_option (is_word world) false c.

(** [\b] between two neighbours; [None] is an end of the string. *)
Definition boundary (a b : option N) : bool := xorb (word_at a) (word_at b).

(** [\b[Ss]ign in\b] at the head of [s], with [prev] in front of it. *)
Definition sign_in_here (prev : option N) (s : pystr) : bool :=
  match s with
  | c :: s' =>
      ((c =? 83)%N || (c =? 115)%N) && startswith (py "ign in") s' &&
      boundary prev (Some c) && boundary (Some 110%N) (head (drop 6 s'))
  | [] => false
  end.

(** [re.search(r'\b[Ss]ign in\b|--username', msg)], from a position on. *)
Fixpoint sign_in_search (prev : option N) (s : pystr) : bool :=
  sign_in_here prev s || startswith (py "--username") s ||
  match s with
  | c :: s' => sign_in_search (Some c) s'
  | [] => false
  end.

Definition needs_login (msg : pystr) : bool := sign_in_search None msg.

Definition needs_video_password (msg : pystr) : bool :=
  contains (py "--video-password") msg.

Definition xattr_unsupported (msg : pystr) : bool :=
  contains (py "This filesystem doesn't support extended attributes.") msg.

Definition error (msg : pystr) : M unit :=
  call (EvStderr msg);;
  s ← get;
  if _allow_authentication_request s && needs_login msg then
    if _skip_authentication s then modify count_skipped
    else
      let '(user, password) := on_login_request handler (trace s) in
      call EvLoginRequest;;
      if str_eqb user [] && str_eqb password [] then
        modify (set_skip true);; modify count_skipped
      else
        modify (update_opts (set_credentials user password));;
        modify (set_allow false);;
        raise_retry msg
  else if _allow_authentication_request s && needs_video_password msg then
    if _skip_authentication s then modify count_skipped
    else
      let password := on_password_request handler (trace s) in
      call EvPasswordRequest;;
      if str_eqb password [] then
        modify (set_skip true);; modify count_skipped
      else
        modify (update_opts (set_videopassword password));;
        modify (set_allow false);;
        raise_retry msg
  else if xattr_unsupported msg then mret ()
  else call (EvOnError msg);; sys_exit 1.

(** *** The backend at work *)

(** One invocation of the backend: its errors go to [error], its progress
    ticks to [_on_progress], and its files into the working directory. *)
Fixpoint run_backend (steps : list BackendStep) : M unit :=
  match steps with
  | [] => mret ()
  | LogError msg :: steps' => error msg;; run_backend steps'
  | ProgressHook d :: steps' => _on_progress d;; run_backend steps'
  | WriteFile name info :: steps' =>
      modify (λ s, set_workdir (dict_set name info (workdir s)) s);;
      run_backend steps'
  end.

(** *** [_load_playlist] *)

(** The [while True] loop; [fuel] bounds the number of invocations.  The
    value is [saved_skipped_count]. *)
Fixpoint load_playlist_loop (fuel : nat) (url : pystr) : M Z :=
  match fuel with
  | O => out_of_fuel
  | S fuel' =>
      s ← get;
      let saved_skipped_count := _skipped_count s in
      call (EvYdlDownload (ydl_opts s) url);;
      s ← get;
      catch_retry
        (run_backend (ydl_download world (trace s) (ydl_opts s) url);;
         mret saved_skipped_count)
        (load_playlist_loop fuel' url)
  end.

Definition _load_playlist (fuel : nat) (url : pystr)
  : M (list InfoDict * Z) :=
  (* a fresh temporary directory becomes the working directory *)
  modify (set_workdir []);;
  saved_skipped_count ← load_playlist_loop fuel url;
  s ← get;
  let info_dicts :=
    (sorted_by_name (filter (λ kv, is_info_json kv.1 = true) (workdir s))).*2
  in
  mret (info_dicts, _skipped_count s - saved_skipped_count).

(** *** [_load_video] *)

(** The [while True] loop; the value is the [filepath] that [GetFilepathPP]
    has stored, [None] if it has not run. *)
Fixpoint load_video_loop (fuel : nat) (info_path : pystr)
  : M (option pystr) :=
  match fuel with
  | O => out_of_fuel
  | S fuel' =>
      s ← get;
      call (EvYdlDownloadWithInfoFile (ydl_opts s) info_path);;
      s ← get;
      let '(steps, filepath) :=
        ydl_download_with_info_file world (trace s) (ydl_opts s) info_path in
      catch_retry (run_backend steps;; mret filepath)
                  (load_video_loop fuel' info_path)
  end.

Definition _load_video (fuel : nat) (dir_ info_path : pystr) : M pystr :=
  filepath ← load_video_loop fuel info_path;
  match filepath with
  | None => crash TypeError   (* os.path.abspath(None) *)
  | Some filepath => mret (abspath world filepath)
  end.

(** *** [_find_existing_download] *)

(** [glob.iglob(glob.escape(os.path.join(download_dir, output_title)) + '.*')]
    over the entries of [download_dir]: with every special character
    escaped the pattern stands for [output_title], a dot, and anything; and
    [glob] leaves out the names with a leading dot unless the pattern has
    one.  The names of directory entries hold no ['/']. *)
Definition iglob_title (entries : list (pystr * bool)) (output_title : pystr)
  : list (pystr * bool) :=
  let pattern := output_title ++ py "." in
  filter (λ e, startswith pattern e.1 = true ∧
               (startswith (py ".") e.1 = true →
                startswith (py ".") pattern = true)) entries.

Fixpoint find_in_glob (found : list (pystr * bool))
    (output_title mode : pystr) : option pystr :=
  match found with
  | [] => None
  | (filename, isfile) :: found' =>
      let '(file_title, file_ext) := splitext filename in
      if str_eqb file_title output_title &&
         (str_eqb mode (py "audio") &&
            str_eqb (str_lower world file_ext) (py ".mp3") ||
          negb (str_eqb mode (py "audio")) &&
            negb (str_eqb (str_lower world file_ext) (py ".mp3"))) &&
         isfile
      then Some filename
      else find_in_glob found' output_title mode
  end.

Definition _find_existing_download (entries : list (pystr * bool))
    (output_title mode : pystr) : option pystr :=
  find_in_glob (iglob_title entries output_title) output_title mode.

(** *** [__init__]: the extent of the job *)

(** [len(info) + skipped] *)
Definition total (info : list InfoDict) (skipped : Z) : Z := len info + skipped.

(** The block under [with tempfile.TemporaryDirectory() as temp_dir], up to
    the download loop, in three pieces: the first probe, the second probe,
    and the choice of [info_playlist]. *)

(** From [self.ydl_opts['noplaylist'] = True] to the end of the first
    [if]: the value is [(info_noplaylist, skipped_noplaylist)]. *)
Definition probe_noplaylist (fuel : nat) (url : pystr)
    (info_testplaylist : list InfoDict) (skipped_testplaylist : Z)
  : M (list InfoDict * Z) :=
  modify (update_opts (set_noplaylist (Some true)));;
  if 1 <? total info_testplaylist skipped_testplaylist
  then _load_playlist fuel url
  else mret (info_testplaylist, skipped_testplaylist).

(** From [del self.ydl_opts['noplaylist']] to the end of the second [if]:
    the value is [info_playlist]. *)
Definition choose_playlist (fuel : nat) (url : pystr)
    (info_testplaylist : list InfoDict) (skipped_testplaylist : Z)
    (info_noplaylist : list InfoDict) (skipped_noplaylist : Z)
  : M (list InfoDict) :=
  modify (update_opts (set_noplaylist None));;
  modify (update_opts (set_playlistend None));;
  if total info_noplaylist skipped_noplaylist <?
     total info_testplaylist skipped_testplaylist
  then
    s ← get;
    let answer := on_playlist_request handler (trace s) in
    call EvPlaylistRequest;;
    modify (update_opts (set_noplaylist (Some (negb answer))));;
    if negb (negb answer) then
      '(info_playlist, _) ← _load_playlist fuel url;
      mret info_playlist
    else mret info_noplaylist
  else if 1 <? total info_testplaylist skipped_testplaylist then
    '(info_playlist, _) ← _load_playlist fuel url;
    mret info_playlist
  else mret info_testplaylist.

Definition load_info_playlist (fuel : nat) (url : pystr)
  : M (list InfoDict) :=
  s ← get;
  let temp_dir := mkdtemp world (trace s) in
  modify (update_opts (set_cookiefile (path_join temp_dir (py "cookies"))));;
  modify (update_opts (set_playlistend (Some 2)));;
  (* Test playlist *)
  '(info_testplaylist, skipped_testplaylist) ← _load_playlist fuel url;
  '(info_noplaylist, skipped_noplaylist) ←
    probe_noplaylist fuel url info_testplaylist skipped_testplaylist;
  choose_playlist fuel url info_testplaylist skipped_testplaylist
                  info_noplaylist skipped_noplaylist.

(** *** [__init__]: automatic captions *)

(** [for requested_lang in requested_automatic_subtitles]: [None] when the
    loop runs to its [else]; [Some None] when it breaks at a requested
    language that is ['all'] or [lang] itself; [Some (Some r)] when it breaks
    at the requested language [r] of which [lang] is a translation, and [r]
    is added to [skip_captions]. *)
Fixpoint match_requested (lang : pystr) (skip_captions : gset pystr)
    (automatic_captions : Captions) (requested : list pystr)
  : option (option pystr) :=
  match requested with
  | [] => None
  | requested_lang :: requested' =>
      if str_eqb requested_lang (py "all") || str_eqb requested_lang lang
      then Some None
      else if startswith (requested_lang ++ py "-") lang &&
              negb (bool_decide (requested_lang ∈ skip_captions)) &&
              negb (dict_has requested_lang automatic_captions)
      then Some (Some requested_lang)
      else match_requested lang skip_captions automatic_captions requested'
  end.

(** [skip_captions.add(r)], if the loop has broken at a translation. *)
Definition add_skip (r : option pystr) (skip_captions : gset pystr)
  : gset pystr :=
  match r with
  | Some r => {[r]} ∪ skip_captions
  | None => skip_captions
  end.

(** [for lang, subs in automatic_captions.items()], from [todo] on: the
    final [new_automatic_captions] and [skip_captions]. *)
Fixpoint select_captions (requested : list pystr)
    (automatic_captions todo : Captions) (skip_captions : gset pystr)
    (new_automatic_captions : Captions) : Captions * gset pystr :=
  match todo with
  | [] => (new_automatic_captions, skip_captions)
  | (lang, subs) :: todo' =>
      if bool_decide (lang ∈ skip_captions) then
        select_captions requested automatic_captions todo' skip_captions
                        new_automatic_captions
      else
        match match_requested lang skip_captions automatic_captions
                              requested with
        | None =>
            select_captions requested automatic_captions todo' skip_captions
                            new_automatic_captions
        | Some r =>
            select_captions requested automatic_captions todo'
                            (add_skip r skip_captions)
                            (dict_set lang subs new_automatic_captions)
        end
  end.

Definition set_automatic_captions (new backup : Captions) (info : InfoDict)
  : InfoDict :=
  {| info_id := info_id info; info_title := info_title info;
     info_subtitles := info_subtitles info;
     info_automatic_captions := Some new;
     info_backup_automatic_captions := Some backup |}.

Definition reconcile_captions (requested : list pystr) (info : InfoDict)
  : InfoDict :=
  let automatic_captions := default [] (info_automatic_captions info) in
  let skip_captions : gset pystr :=
    list_to_set (default [] (info_subtitles info)).*1 in
  let new_automatic_captions :=
    (select_captions requested automatic_captions automatic_captions
                     skip_captions []).1 in
  if bool_decide (automatic_captions ≠ new_automatic_captions)
  then set_automatic_captions new_automatic_captions automatic_captions info
  else info.

(** *** [__init__]: the download loop *)

(** [while not self._handler.on_download_lock(output_title): time.sleep(1)] *)
Fixpoint wait_for_lock (fuel : nat) (output_title : pystr) : M unit :=
  match fuel with
  | O => out_of_fuel
  | S fuel' =>
      s ← get;
      call (EvDownloadLock output_title);;
      if on_download_lock handler (trace s) output_title then mret ()
      else call EvSleep;; wait_for_lock fuel' output_title
  end.

(** [os.makedirs(path, exist_ok=True)]: the text of the error, if any. *)
Definition try_makedirs (path : pystr) : M (option pystr) :=
  s ← get;
  call (EvMakedirs path);;
  mret (makedirs world (trace s) path).

(** What the loop does once no finished download has been found. *)
Definition download_new (fuel : nat) (download_dir output_title : pystr)
    (info : InfoDict) : M unit :=
  let temp_download_dir := path_join download_dir (output_title ++ py ".part") in
  failed ← (e ← try_makedirs download_dir;
            match e with
            | Some e => mret (Some e)
            | None => try_makedirs temp_download_dir
            end);
  match failed with
  | Some e =>
      call (EvOnError (py "ERROR: Failed to create download folder: " ++ e));;
      sys_exit 1
  | None =>
      let info_path :=
        path_join temp_download_dir
          (sanitize_filename world
             (default [] (truthy (info_id info)) ++ py ".info.json")) in
      call (EvWriteInfo info_path info);;
      temp_filepath ← _load_video fuel temp_download_dir info_path;
      let filename_ext := (splitext temp_filepath).2 in
      let filename := output_title ++ filename_ext in
      s ← get;
      call (EvReplace temp_filepath (path_join download_dir filename));;
      match os_replace world (trace s) temp_filepath
                       (path_join download_dir filename) with
      | Some e =>
          call (EvOnError
                  (py "ERROR: Falied to move finished download to download folder: "
                   ++ e));;
          sys_exit 1
      | None =>
          call (EvRmtree temp_download_dir);;
          call (EvDownloadFinished filename)
      end
  end.

(** The body of [for i, info in enumerate(info_playlist)]. *)
Definition download_item (fuel : nat) (download_dir mode : pystr)
    (requested : list pystr) (i n : Z) (info : InfoDict) : M unit :=
  let title :=
    default (py "video")
      (match truthy (info_title info) with
       | Some t => Some t
       | None => truthy (info_id info)
       end) in
  match _short_filename (sanitize_filename world) (fs_encode world) title
                        MAX_OUTPUT_TITLE_LENGTH with
  | Raise e => crash e
  | Ret output_title =>
      call (EvDownloadStart i n title);;
      wait_for_lock fuel output_title;;
      let info := reconcile_captions requested info in
      (* Check if we already got the file *)
      s ← get;
      match _find_existing_download (listdir world (trace s) download_dir)
                                    output_title mode with
      | Some existing_filename => call (EvDownloadFinished existing_filename)
      | None => download_new fuel download_dir output_title info
      end
  end.

Fixpoint download_items (fuel : nat) (download_dir mode : pystr)
    (requested : list pystr) (i n : Z) (items : list InfoDict) : M unit :=
  match items with
  | [] => mret ()
  | info :: items' =>
      download_item fuel download_dir mode requested i n info;;
      download_items fuel download_dir mode requested (i + 1) n items'
  end.

(** The slave as [__init__] first sets it up. *)
Definition new_slave : Slave :=
  {| _allow_authentication_request := true;
     _skip_authentication := false;
     _skipped_count := 0;
     ydl_opts := initial_opts (get_mode handler) (get_resolution handler)
                              (get_prefer_mpeg handler);
     trace := [];
     workdir := [] |}.

(** [YoutubeDLSlave.__init__] from [url = self._handler.get_url()] on. *)
Definition run_job (fuel : nat) : M unit :=
  let mode := get_mode handler in
  let url := get_url handler in
  let download_dir := abspath world (get_download_dir handler) in
  let requested_automatic_subtitles := get_automatic_subtitles handler in
  info_playlist ← load_info_playlist fuel url;
  (* Download videos *)
  modify (set_allow false);;
  modify (update_opts set_write_all);;
  download_items fuel download_dir mode requested_automatic_subtitles
                 0 (len info_playlist) info_playlist.

Definition YoutubeDLSlave_init (fuel : nat) : Outcome unit :=
  run_job fuel new_slave.
End YoutubeDLSlave.


From Stdlib Require Import Sorted.

(** * [main.py]: the application *)

(** ** [Application.__init__]: the resolution of the model

    [r] is the resolution of the settings; [self.model.resolutions] holds
    pairs of a resolution and its label.

    [[
    for resolution in sorted(x[0] for x in self.model.resolutions):
        if r <= resolution:
            break
    self.model.resolution = resolution
    ]] *)

(** [sorted] on integers. *)
Fixpoint insert_int (x : Z) (l : list Z) : list Z :=
  match l with
  | [] => [x]
  | y :: l' => if x <=? y then x :: l else y :: insert_int x l'
  end.

Definition sorted_ints (l : list Z) : list Z := foldr insert_int [] l.

(** The loop over [todo]: the loop variable when the loop is left.
    [resolution] is the loop variable so far, [None] as long as it is not
    bound. *)
Fixpoint seek_resolution (r : Z) (todo : list Z) (resolution : option Z)
  : option Z :=
  match todo with
  | [] => resolution
  | x :: todo' =>
      if r <=? x then Some x else seek_resolution r todo' (Some x)
  end.

(** What is assigned to [self.model.resolution]; [None] when the loop
    variable is not bound, and the assignment raises
    [UnboundLocalError]. *)
Definition initial_resolution (r : Z) (resolutions : list (Z * pystr))
  : option Z :=
  seek_resolution r (sorted_ints resolutions.*1) None.

(** * The vocabulary of the properties *)

(** ** Filename Sanitizer/Shortener *)

(** The claim of the specification: the output comes from a prefix of which
    only the trailing white space is trimmed. *)
Definition spec_short_filename (sanitize : pystr → pystr)
    (enc : pystr → list Byte.byte) (name : pystr) (budget : Z) : Prop :=
  (∃ k, (k ≤ length name)%nat ∧
        _short_filename sanitize enc name budget
          = Ret (spec_candidate sanitize name k) ∧
        len (enc (spec_candidate sanitize name k)) < budget ∧
        ∀ j, (k < j ≤ length name)%nat →
             budget ≤ len (enc (spec_candidate sanitize name j)))
  ∨ (_short_filename sanitize enc name budget = Raise ValueError ∧
     ∀ j, (j ≤ length name)%nat →
          budget ≤ len (enc (spec_candidate sanitize name j))).

(** ** Traces *)

(** The state in which a piece of the slave ends, however it ends. *)
Definition final_state {A} (o : Outcome A) : Slave :=
  match o with
  | Done _ s | Retry _ s | Exit _ s | Crash _ s | OutOfFuel s => s
  end.

(** [m] only adds calls to the trace, and each call it adds is one of [Q]. *)
Definition appends {A} (Q : Event → Prop) (m : M A) : Prop :=
  ∀ s, ∃ evs, trace (final_state (m s)) = trace s ++ evs ∧ Forall Q evs.

Definition is_playlist_request (e : Event) : bool :=
  match e with EvPlaylistRequest => true | _ => false end.

Definition is_backend_call (e : Event) : bool :=
  match e with
  | EvYdlDownload _ _ | EvYdlDownloadWithInfoFile _ _ => true
  | _ => false
  end.

Definition is_prompt (e : Event) : bool :=
  match e with
  | EvLoginRequest | EvPasswordRequest | EvPlaylistRequest => true
  | _ => false
  end.

(** How many calls of a kind the slave has made. *)
Definition count_calls (p : Event → bool) (s : Slave) : nat :=
  length (filter (λ e, p e = true) (trace s)).

(** What the progress hook may call. *)
Definition progress_event (e : Event) : Prop :=
  match e with EvOnProgress _ _ _ _ _ _ => True | _ => False end.

(** What the classifier and the progress hook may call. *)
Definition logger_event (e : Event) : Prop :=
  match e with
  | EvStderr _ | EvLoginRequest | EvPasswordRequest | EvOnError _
  | EvOnProgress _ _ _ _ _ _ => True
  | _ => False
  end.

(** What a run of [_load_playlist] may call. *)
Definition playlist_event (e : Event) : Prop :=
  match e with
  | EvYdlDownload _ _ => True
  | _ => logger_event e
  end.

(** ** A small world to run the slave in *)

(** [str.lower] and [\w] on ASCII. *)
Definition ascii_lower (s : pystr) : pystr :=
  (λ c, if (65 <=? c) && (c <=? 90) then c + 32 else c)%N <$> s.

Definition ascii_word (c : N) : bool :=
  ((48 <=? c) && (c <=? 57) || (65 <=? c) && (c <=? 90) ||
   (97 <=? c) && (c <=? 122) || (c =? 95))%N.

(** A world with a given backend and a given download directory, in which
    no call of the operating system fails. *)
Definition sample_world
    (download : Opts → list BackendStep)
    (fetch : Opts → list BackendStep * option pystr)
    (entries : list (pystr * bool)) : World :=
  {| sanitize_filename := sanitize_none;
     fs_encode := utf8_encode;
     str_lower := ascii_lower;
     is_word := ascii_word;
     abspath := λ p, if startswith (py "/") p then p else py "/cwd/" ++ p;
     mkdtemp := λ _, py "/tmp/job";
     ydl_download := λ _ opts _, download opts;
     ydl_download_with_info_file := λ _ opts _, fetch opts;
     listdir := λ _ _, entries;
     makedirs := λ _ _, None;
     os_replace := λ _ _ _, None |}.

(** A handler for video mode whose user answers every login request with
    [login], every request for a video password with [password] and every
    question about a playlist with [playlist], and who is granted every
    lock at once. *)
Definition sample_handler (login : pystr * pystr) (password : pystr)
    (playlist : bool) (requested : list pystr) : Handler :=
  {| get_mode := py "video";
     get_resolution := 1080;
     get_prefer_mpeg := false;
     get_url := py "https://example.org/watch";
     get_download_dir := py "/home/user/Videos";
     get_automatic_subtitles := requested;
     on_login_request := λ _, login;
     on_password_request := λ _, password;
     on_playlist_request := λ _, playlist;
     on_download_lock := λ _ _, true |}.

Definition sample_info (id title : pystr) : InfoDict :=
  {| info_id := Some id; info_title := Some title;
     info_subtitles := None; info_automatic_captions := None;
     info_backup_automatic_captions := None |}.

Definition sign_in_line : pystr :=
  py "ERROR: Sign in to confirm your age".

(** A backend that wants a login for its only item until it is given a
    user name. *)
Definition gated_backend (opts : Opts) : list BackendStep :=
  match opt_username opts with
  | None => [LogError sign_in_line]
  | Some _ => [WriteFile (py "00001.info.json") (sample_info (py "v1") (py "First"))]
  end.

(** A backend with two items, the first of which always wants a login,
    also when the second is fetched. *)
Definition stubborn_backend (opts : Opts) : list BackendStep :=
  [LogError sign_in_line;
   WriteFile (py "00002.info.json") (sample_info (py "v2") (py "Second"))].

Definition stubborn_fetch (opts : Opts) : list BackendStep * option pystr :=
  ([LogError sign_in_line], None).

(** ** The extent of the job *)

Definition first_item : InfoDict := sample_info (py "v1") (py "First").
Definition second_item : InfoDict := sample_info (py "v2") (py "Second").
Definition third_item : InfoDict := sample_info (py "v3") (py "Third").

(** A backend for the URL of a video in a playlist of three: it writes the
    info file of the video alone under [noplaylist], and those of the
    playlist, as far as [playlistend] allows, otherwise. *)
Definition playlist_backend (opts : Opts) : list BackendStep :=
  let files := [WriteFile (py "00001.info.json") first_item;
                WriteFile (py "00002.info.json") second_item;
                WriteFile (py "00003.info.json") third_item] in
  match opt_noplaylist opts, opt_playlistend opts with
  | Some true, _ => take 1 files
  | _, Some n => take (Z.to_nat n) files
  | _, None => files
  end.

Definition playlist_world : World :=
  sample_world playlist_backend stubborn_fetch [].

(** A backend for the URL of a video that is in no playlist. *)
Definition single_world : World :=
  sample_world (λ _, [WriteFile (py "00001.info.json") first_item])
               stubborn_fetch [].

(** ** The error classifier *)

Definition not_retry {A} (o : Outcome A) : Prop :=
  match o with Retry _ _ => False | _ => True end.

(** One invocation of the backend by [_load_playlist], with no second one
    behind it. *)
Definition invoke_once (handler : Handler) (world : World) (url : pystr)
    (s : Slave) : Outcome Z :=
  let s' := emit (EvYdlDownload (ydl_opts s) url) s in
  (run_backend handler world
     (ydl_download world (trace s') (ydl_opts s) url);;
   mret (_skipped_count s)) s'.

(** A line that asks for authentication. *)
Definition authentication_line (world : World) (msg : pystr) : Prop :=
  needs_login world msg = true ∨ needs_video_password msg = true.

(** The answer of the user to the request that [msg] leads to is empty. *)
Definition declines (handler : Handler) (world : World) (msg : pystr)
    (s : Slave) : Prop :=
  if needs_login world msg
  then on_login_request handler (trace (emit (EvStderr msg) s)) = ([], [])
  else on_password_request handler (trace (emit (EvStderr msg) s)) = [].

(** The request that [msg] leads to. *)
Definition request_for (world : World) (msg : pystr) : Event :=
  if needs_login world msg then EvLoginRequest else EvPasswordRequest.

(** The claim of the specification: once authentication has been declined,
    every line that asks for it is counted as skipped, with no request and
    no other effect. *)
Definition spec_declined_lines_skipped (handler : Handler) (world : World)
  : Prop :=
  ∀ s msg,
    _skip_authentication s = true → authentication_line world msg →
    error handler world msg s = Done () (count_skipped (emit (EvStderr msg) s)).

(** A user who logs in, at a backend that wants a login. *)
Definition login_handler : Handler :=
  sample_handler (py "user", py "secret") [] true [].

Definition gated_world : World := sample_world gated_backend stubborn_fetch [].

(** A user who declines, at a backend that keeps asking. *)
Definition declining_handler : Handler := sample_handler ([], []) [] true [].

Definition stubborn_world : World :=
  sample_world stubborn_backend stubborn_fetch [].

(** ** The download loop *)

(** What waiting for the lock may call. *)
Definition lock_event (e : Event) : Prop :=
  match e with EvDownloadLock _ | EvSleep => True | _ => False end.

(** The extension suits the mode: [.mp3], in any case, for audio and
    anything else for video. *)
Definition extension_suits (world : World) (mode ext : pystr) : Prop :=
  str_lower world ext = py ".mp3" ↔ mode = py "audio".

(** A regular file of the directory whose name is the title followed by an
    extension that suits the mode. *)
Definition finished_download (world : World) (entries : list (pystr * bool))
    (output_title mode name : pystr) : Prop :=
  (name, true) ∈ entries ∧
  ∃ ext, splitext name = (output_title, ext) ∧ ext ≠ [] ∧
         extension_suits world mode ext.

(** [info.get('title') or info.get('id') or 'video'] *)
Definition title_of (info : InfoDict) : pystr :=
  default (py "video")
    (match truthy (info_title info) with
     | Some t => Some t
     | None => truthy (info_id info)
     end).

(** A download directory that holds the video of the sample item. *)
Definition world_with_video : World :=
  sample_world gated_backend stubborn_fetch
    [(py "My Video.part", false); (py "My Video.mp4", true)].

(** The file as the specification words it: a regular file of the directory
    that matches the title and whose extension is of the class of the mode;
    the extension may be empty. *)
Definition spec_finished_download (world : World)
    (entries : list (pystr * bool)) (output_title mode name : pystr) : Prop :=
  (name, true) ∈ entries ∧
  ∃ ext, splitext name = (output_title, ext) ∧ extension_suits world mode ext.

(** The claim of the specification: with such a file in the directory, the
    item is reported as finished as soon as the lock is granted. *)
Definition spec_short_circuits (handler : Handler) (world : World)
    (fuel : nat) (download_dir mode : pystr) (requested : list pystr)
    (i n : Z) (info : InfoDict) (s : Slave) : Prop :=
  ∀ output_title name s_locked,
    _short_filename (sanitize_filename world) (fs_encode world) (title_of info)
                    MAX_OUTPUT_TITLE_LENGTH = Ret output_title →
    wait_for_lock handler fuel output_title
                  (emit (EvDownloadStart i n (title_of info)) s)
    = Done () s_locked →
    spec_finished_download world (listdir world (trace s_locked) download_dir)
                           output_title mode name →
    ∃ existing,
      download_item handler world fuel download_dir mode requested i n info s
      = Done () (emit (EvDownloadFinished existing) s_locked).

(** A download directory that holds a regular file named like the title of
    the sample item, with no extension, at a backend that downloads the
    item without incident. *)
Definition world_with_bare_file : World :=
  sample_world gated_backend (λ _, ([], Some (py "v1.mp4")))
    [(py "My Video", true)].

Definition is_makedirs (e : Event) : bool :=
  match e with EvMakedirs _ => true | _ => false end.

(** ** The thumbnail pipeline *)

(** The path of a thumbnail, if it has one that can be used. *)
Definition usable_path (thumb : Thumbnail) : option pystr :=
  truthy (thumb_filepath thumb).

Definition usable_paths (thumbs : list Thumbnail) : list pystr :=
  omap usable_path thumbs.

(** The name that [_convert_filepath] gives to the JPEG of a thumbnail. *)
Definition conv_jpg (p : pystr) : pystr := p ++ py ".conv.jpg".

(** The conversion of the thumbnail at [p], as the pipeline asks for it. *)
Definition ffmpeg_thumbnail
    (real_run_ffmpeg : gmap pystr pystr → list (pystr * list pystr) →
                       list (pystr * list pystr) → option (gmap pystr pystr))
    (fs : gmap pystr pystr) (p : pystr) : option (gmap pystr pystr) :=
  real_run_ffmpeg fs
    [(p, [py "-f"; py "image2"; py "-pattern_type"; py "none"])]
    [(escape_percent (conv_jpg p), thumbnail_scale)].

(** A thumbnail that fails, if it is tried at all. *)
Definition fails_at
    (real_run_ffmpeg : gmap pystr pystr → list (pystr * list pystr) →
                       list (pystr * list pystr) → option (gmap pystr pystr))
    (st : PPState) (thumb : Thumbnail) : Prop :=
  ∀ q, usable_path thumb = Some q →
       is_Some (files_to_move st !! q) ∧
       ffmpeg_thumbnail real_run_ffmpeg (fs st) q = None.

(** The thumbnail that stands for [thumb] once it is converted. *)
Definition converted (thumb : Thumbnail) (p : pystr) : Thumbnail :=
  {| thumb_filepath := Some (conv_jpg p); thumb_more := thumb_more thumb |}.

(** The first thumbnail of a list that has a usable path. *)
Fixpoint first_usable (thumbs : list Thumbnail) : option pystr :=
  match thumbs with
  | [] => None
  | thumb :: thumbs' =>
      match usable_path thumb with
      | Some p => Some p
      | None => first_usable thumbs'
      end
  end.

(** The claim of the specification: when the conversion of the best
    thumbnail with a usable path fails, no thumbnail is left. *)
Definition spec_no_fallback
    (real_run_ffmpeg : gmap pystr pystr → list (pystr * list pystr) →
                       list (pystr * list pystr) → option (gmap pystr pystr))
    (abspath : pystr → pystr) (callback : bool)
    (thumbnails : list Thumbnail) (moves fs : gmap pystr pystr) : Prop :=
  ∀ p, first_usable (reverse thumbnails) = Some p →
       ffmpeg_thumbnail real_run_ffmpeg fs p = None →
       ∃ st, ThumbnailConverterPP_run real_run_ffmpeg abspath callback
               (Some thumbnails) moves fs = PPOk [] st.

(** An FFmpeg that cannot read [b.webp] and turns any other input into a
    JPEG. *)
Definition picky_ffmpeg (fs : gmap pystr pystr)
    (inputs outputs : list (pystr * list pystr))
  : option (gmap pystr pystr) :=
  match inputs, outputs with
  | [(p, _)], [(out, _)] =>
      if str_eqb p (py "b.webp") then None else Some (<[out := py "JPEG"]> fs)
  | _, _ => None
  end.

Definition thumb_at (p : pystr) : Thumbnail :=
  {| thumb_filepath := Some p; thumb_more := [] |}.

(** Two thumbnails, worst first, as the backend has written and registered
    them. *)
Definition two_thumbnails : list Thumbnail :=
  [thumb_at (py "a.webp"); thumb_at (py "b.webp")].

Definition two_moves : gmap pystr pystr :=
  {[ py "a.webp" := py "/out/a.webp"; py "b.webp" := py "/out/b.webp" ]}.

Definition two_files : gmap pystr pystr :=
  {[ py "a.webp" := py "WEBP"; py "b.webp" := py "?" ]}.

(** ** The subtitle pipeline *)

(** The path of a track, if it has one that can be used. *)
Definition usable_track (sub : Subtitle) : option pystr :=
  truthy (sub_filepath sub).

Definition is_xml_timed_text (ext : pystr) : Prop :=
  ext ∈ [py "dfxp"; py "ttml"; py "tt"].

(** A track the pipeline can work on: if it names a file, it has a format,
    its file is registered in [info['__files_to_move']], and the file is
    there to be read when the format asks for the internal converter. *)
Definition track_ready (moves fs : gmap pystr pystr) (sub : Subtitle) : Prop :=
  ∀ p, usable_track sub = Some p →
       is_Some (moves !! p) ∧
       ∃ ext, sub_ext sub = Some ext ∧
              (is_xml_timed_text ext → is_Some (fs !! p)).

(** FFmpeg, when it succeeds, has written its output, which can be read as
    UTF-8, and has removed no file. *)
Definition ffmpeg_writes_output
    (run_ffmpeg : gmap pystr pystr → pystr → pystr → list pystr →
                  option (gmap pystr pystr)) : Prop :=
  ∀ fs path out opts fs',
    run_ffmpeg fs path out opts = Some fs' →
    (∃ data, fs' !! out = Some data ∧ well_formed data = true) ∧
    ∀ p, is_Some (fs !! p) → is_Some (fs' !! p).

(** Every file can be written. *)
Definition writes_succeed (writable : gmap pystr pystr → pystr → bool) : Prop :=
  ∀ fs p, writable fs p = true.

(** The text that the internal converter returns can be encoded as UTF-8. *)
Definition converts_to_text (dfxp2srt : pystr → option pystr) : Prop :=
  ∀ data srt, dfxp2srt data = Some srt → well_formed srt = true.

(** A later state of the pipeline: no registration, no file and no
    deletion is lost. *)
Definition extends (st st' : PPState) : Prop :=
  (∀ p, is_Some (files_to_move st !! p) → is_Some (files_to_move st' !! p)) ∧
  (∀ p, is_Some (fs st !! p) → is_Some (fs st' !! p)) ∧
  (∀ p, p ∈ files_to_delete st → p ∈ files_to_delete st').

(** The claim of the specification: the pipeline never raises. *)
Definition spec_never_raises
    (dfxp2srt : pystr → option pystr)
    (run_ffmpeg : gmap pystr pystr → pystr → pystr → list pystr →
                  option (gmap pystr pystr))
    (linesep : pystr) (writable : gmap pystr pystr → pystr → bool)
    (requested_subtitles : list (pystr * Subtitle))
    (moves fs : gmap pystr pystr) : Prop :=
  ∃ new_subtitles st,
    SubtitlesConverterPP_run dfxp2srt run_ffmpeg linesep writable
                             (Some requested_subtitles) moves fs
    = PPOk new_subtitles st.

(** A platform whose lines end with a line feed, and a disk on which every
    file can be written. *)
Definition posix_linesep : pystr := [NL].

Definition roomy_disk (fs : gmap pystr pystr) (p : pystr) : bool := true.

(** A disk on which no file can be written. *)
Definition full_disk (fs : gmap pystr pystr) (p : pystr) : bool := false.

(** An FFmpeg whose output is a single byte that is no UTF-8. *)
Definition garbling_ffmpeg (fs : gmap pystr pystr) (path out : pystr)
    (opts : list pystr) : option (gmap pystr pystr) :=
  Some (<[out := [56575%N]]> fs).

(** An internal converter that fails on the text [bad], and an FFmpeg that
    fails on a missing input and on the text [broken]. *)
Definition sample_dfxp2srt (data : pystr) : option pystr :=
  if str_eqb data (py "bad") then None else Some (py "1" ++ [NL] ++ data).

Definition sample_run_ffmpeg (fs : gmap pystr pystr) (path out : pystr)
    (opts : list pystr) : option (gmap pystr pystr) :=
  match fs !! path with
  | None => None
  | Some data =>
      if str_eqb data (py "broken") then None
      else Some (<[out := py "WEBVTT" ++ [NL; NL] ++ data]> fs)
  end.

(** The same two, except that they leave out of their output what cannot
    be encoded as UTF-8. *)
Definition scrub (data : pystr) : pystr :=
  List.filter (λ c, negb (is_surrogate c)) data.

Definition tidy_dfxp2srt (data : pystr) : option pystr :=
  if str_eqb data (py "bad") then None
  else Some (py "1" ++ [NL] ++ scrub data).

Definition tidy_run_ffmpeg (fs : gmap pystr pystr) (path out : pystr)
    (opts : list pystr) : option (gmap pystr pystr) :=
  match fs !! path with
  | None => None
  | Some data =>
      if str_eqb data (py "broken") then None
      else Some (<[out := py "WEBVTT" ++ [NL; NL] ++ scrub data]> fs)
  end.

Definition track (path ext : pystr) : Subtitle :=
  {| sub_filepath := Some path; sub_ext := Some ext; sub_more := [] |}.

(** A track with a file and no format. *)
Definition track_without_ext : Subtitle :=
  {| sub_filepath := Some (py "en.vtt"); sub_ext := None; sub_more := [] |}.

(** Three tracks: one that converts, one that the internal converter
    rejects, one that FFmpeg rejects. *)
Definition three_tracks : list (pystr * Subtitle) :=
  [(py "en", track (py "en.vtt") (py "vtt"));
   (py "de", track (py "de.ttml") (py "ttml"));
   (py "fr", track (py "fr.vtt") (py "vtt"))].

Definition three_moves : gmap pystr pystr :=
  {[ py "en.vtt" := py "/out/en.vtt"; py "de.ttml" := py "/out/de.ttml";
     py "fr.vtt" := py "/out/fr.vtt" ]}.

Definition three_files : gmap pystr pystr :=
  {[ py "en.vtt" := py "hello"; py "de.ttml" := py "bad";
     py "fr.vtt" := py "broken" ]}.

(** ** Automatic captions *)

(** [skip_captions] when the loop over the automatic captions has gone
    through [pre]. *)
Definition skip_before (requested : list pystr) (automatic_captions : Captions)
    (skip0 : gset pystr) (pre : Captions) : gset pystr :=
  (select_captions requested automatic_captions pre skip0 []).2.

(** The automatic captions that are kept. *)
Definition selected (requested : list pystr) (automatic_captions : Captions)
    (skip0 : gset pystr) : Captions :=
  (select_captions requested automatic_captions automatic_captions skip0 []).1.

(** The language [lang], met behind [pre], is kept as a translation of the
    requested language [r]. *)
Definition kept_as_translation (requested : list pystr)
    (automatic_captions : Captions) (skip0 : gset pystr) (pre : Captions)
    (lang r : pystr) : Prop :=
  (lang ∉ skip_before requested automatic_captions skip0 pre) ∧
  match_requested lang (skip_before requested automatic_captions skip0 pre)
                  automatic_captions requested
  = Some (Some r).

(** The requested tag [r] keeps the track [lang]: it is ['all'], it is
    [lang] itself, or [lang] is a translated variant of [r], which has no
    automatic captions of its own and is not marked satisfied. *)
Definition keeps_track (automatic_captions : Captions)
    (satisfied : gset pystr) (lang r : pystr) : bool :=
  str_eqb r (py "all") || str_eqb r lang ||
  startswith (r ++ py "-") lang &&
  negb (dict_has r automatic_captions) &&
  negb (bool_decide (r ∈ satisfied)).

(** The requested tag that decides about [lang]: the first one, in the
    order in which the requested tags are gone through, that keeps it. *)
Definition deciding_tag (requested : list pystr)
    (automatic_captions : Captions) (satisfied : gset pystr) (lang : pystr)
  : option pystr :=
  List.find (keeps_track automatic_captions satisfied lang) requested.

(** The track [lang] is kept through the rule for translated variants, for
    the requested tag [r]. *)
Definition kept_for (requested : list pystr) (automatic_captions : Captions)
    (satisfied : gset pystr) (lang r : pystr) : Prop :=
  (lang ∉ satisfied) ∧
  deciding_tag requested automatic_captions satisfied lang = Some r ∧
  r ≠ py "all" ∧ r ≠ lang.

(** The tags that are marked satisfied once the tracks [pre] have been gone
    through: the languages that have subtitles of their own, and every
    requested tag for which a track has been kept through the rule for
    translated variants. *)
Definition mark_satisfied (requested : list pystr)
    (automatic_captions : Captions) (satisfied : gset pystr) (lang : pystr)
  : gset pystr :=
  match deciding_tag requested automatic_captions satisfied lang with
  | Some r =>
      if bool_decide (lang ∈ satisfied) || str_eqb r (py "all") ||
         str_eqb r lang
      then satisfied else {[r]} ∪ satisfied
  | None => satisfied
  end.

Definition satisfied_after (requested : list pystr)
    (automatic_captions : Captions) (skip0 : gset pystr) (pre : Captions)
  : gset pystr :=
  foldl (mark_satisfied requested automatic_captions) skip0 pre.*1.

(** The claim of the specification: of the translations of a requested
    language at most one is kept. *)
Definition spec_one_translation (requested : list pystr)
    (automatic_captions : Captions) (skip0 : gset pystr) : Prop :=
  ∀ r l1 l2,
    r ∈ requested →
    startswith (r ++ py "-") l1 = true → startswith (r ++ py "-") l2 = true →
    dict_has l1 (selected requested automatic_captions skip0) = true →
    dict_has l2 (selected requested automatic_captions skip0) = true →
    l1 = l2.

Definition two_english : Captions := [(py "en-US", []); (py "en-GB", [])].

(** ** The WEBVTT repair *)

(** A text from its lines, each one ended by a newline. *)
Definition text (lines : list string) : pystr :=
  lines ≫= (λ l, py l ++ [NL]).

(** A cue whose first line was empty, with one more empty line behind the
    one that FFmpeg has left: the repair takes one empty line away each
    time it is applied. *)
Definition doubly_blank_cue : pystr :=
  text ["WEBVTT"; ""; "00:01.000 --> 00:02.000"; ""; ""; "text"]%string.

(** Two broken cues that the repair mends in one go. *)
Definition broken_cues : pystr :=
  text ["WEBVTT"; ""; "00:01.000 --> 00:02.000"; ""; "   "; "  first";
        ""; "00:02.000 --> 00:03.000"; ""; "second"]%string.

(** The timestamp line of a cue, without its newline:
    [[0-9.:]+ --> [0-9.:]+]. *)
Definition cue_line (y : pystr) : Prop :=
  ∃ a b, a ≠ [] ∧ b ≠ [] ∧
         Forall (λ c, is_ts_char c = true) a ∧
         Forall (λ c, is_ts_char c = true) b ∧
         y = a ++ py " --> " ++ b.

(** While [z] is copied with [before] in front of it, the lookbehind of
    the pattern fails at every position inside [z]. *)
Fixpoint quiet (before z : pystr) : bool :=
  match z with
  | [] => true
  | c :: z' =>
      match z' with
      | [] => true
      | _ :: _ => negb (lookbehind_blank (c :: before)) && quiet (c :: before) z'
      end
  end.

(** What the second run of the repair has to know about the text in front
    of it ([before'], in the output of the first run) and the text in front
    of the first run ([before]): a lookbehind that holds in the output
    holds in the input, and a newline in front of the output is a newline
    in front of the input unless no newline follows. *)
Definition in_step (before before' out : pystr) : Prop :=
  (lookbehind_blank before' = true → lookbehind_blank before = true) ∧
  (head before' = Some NL → head before = Some NL ∨ head out ≠ Some NL).

(** * The vocabulary of the further properties *)

(** ** The post-processors *)

(** What the subtitle pipeline appends to the path of a track that it
    keeps: the conversion to WEBVTT, behind the conversion to SRT for a
    track in XML timed text, and in front of the repair if there is one. *)
Definition vtt_suffixes : list pystr :=
  [py ".conv.vtt"; py ".conv.vtt.fix.vtt";
   py ".conv.srt.conv.vtt"; py ".conv.srt.conv.vtt.fix.vtt"].

(** A later state of a post-processor: no registration and no deletion is
    lost. *)
Definition keeps_registered (st st' : PPState) : Prop :=
  (∀ p, is_Some (files_to_move st !! p) → is_Some (files_to_move st' !! p)) ∧
  (∀ p, p ∈ files_to_delete st → p ∈ files_to_delete st').

(** The state in which a post-processor starts. *)
Definition pp_start (moves fs0 : gmap pystr pystr) : PPState :=
  {| files_to_delete := []; files_to_move := moves; fs := fs0;
     callbacks := [] |}.

(** An FFmpeg that converts nothing. *)
Definition failing_ffmpeg (fs : gmap pystr pystr) (path out : pystr)
    (opts : list pystr) : option (gmap pystr pystr) := None.

(** A text with the line ends of DOS: a carriage return in front of every
    line feed. *)
Definition crlf (s : pystr) : pystr :=
  s ≫= (λ c, if (c =? NL)%N then [13%N; NL] else [c]).

(** An FFmpeg that writes two broken cues with the line ends of DOS. *)
Definition dos_ffmpeg (fs : gmap pystr pystr) (path out : pystr)
    (opts : list pystr) : option (gmap pystr pystr) :=
  Some (<[out := crlf broken_cues]> fs).

(** A track that names no file. *)
Definition track_without_file : Subtitle :=
  {| sub_filepath := None; sub_ext := Some (py "vtt"); sub_more := [] |}.

(** ** The logger *)

(** A tick of a download in progress that names no file. *)
Definition nameless_tick : Tick :=
  {| tick_status := py "downloading"; tick_filename := None;
     tick_downloaded_bytes := Some 10; tick_total_bytes := Some 100;
     tick_total_bytes_estimate := None; tick_fragment_index := None;
     tick_fragment_count := None; tick_eta := None; tick_speed := None |}.

Definition unsupported_line : pystr := py "ERROR: Unsupported URL".

Definition video_password_line : pystr :=
  py "ERROR: This video is protected by a password, use the --video-password option".

(** A line that asks for a login and names the option for a video
    password as well. *)
Definition both_line : pystr :=
  py "ERROR: Sign in or use the --video-password option".

(** A user who knows the password of the video. *)
Definition password_handler : Handler :=
  sample_handler ([], []) (py "secret") true [].

(** The character in front of a position: the last one of [pre], or [prev]
    when [pre] is empty. *)
Definition char_before (prev : option N) (pre : pystr) : option N :=
  match last pre with
  | Some c => Some c
  | None => prev
  end.

(** ** Runs of the slave *)

(** Whatever [m] does, it takes the slave from a state to one that [R]
    relates to it. *)
Definition keeps {A} (R : relation Slave) (m : M A) : Prop :=
  ∀ s, R s (final_state (m s)).

(** The count of skipped items does not go down. *)
Definition skipped_grows : relation Slave :=
  λ s s', _skipped_count s ≤ _skipped_count s'.

(** A piece of the slave that has come to its end with the fuel it had. *)
Definition in_time {A} (o : Outcome A) : Prop :=
  match o with OutOfFuel _ => False | _ => True end.

(** The order of [sorted] on the names of files. *)
Definition by_name {V} (a b : pystr * V) : Prop := str_leb a.1 b.1 = true.

(** A backend that writes three info files and a file of its own, the
    info files out of order. *)
Definition shuffled_backend (opts : Opts) : list BackendStep :=
  [WriteFile (py "00002.info.json") (sample_info (py "v2") (py "Second"));
   WriteFile (py "00010.info.json") (sample_info (py "v10") (py "Tenth"));
   WriteFile (py "cookies") (sample_info [] []);
   WriteFile (py "00001.info.json") (sample_info (py "v1") (py "First"))].

Definition shuffled_world : World :=
  sample_world shuffled_backend stubborn_fetch [].

(** A backend that fetches an item without a word and without running the
    post-processor that tells the path of the download. *)
Definition silent_fetch (opts : Opts) : list BackendStep * option pystr :=
  ([], None).

Definition silent_world : World := sample_world gated_backend silent_fetch [].

(** ** Automatic captions *)

(** The languages of the subtitles of an item. *)
Definition subtitle_languages (info : InfoDict) : list pystr :=
  (default [] (info_subtitles info)).*1.

(** The automatic captions of an item, [{}] when there are none. *)
Definition captions_of (info : InfoDict) : Captions :=
  default [] (info_automatic_captions info).

(** An item with subtitles in English and automatic captions in English,
    German and French. *)
Definition captioned_info : InfoDict :=
  {| info_id := Some (py "v1"); info_title := Some (py "First");
     info_subtitles := Some [(py "en", [py "manual"])];
     info_automatic_captions :=
       Some [(py "en", [py "auto-en"]); (py "de", [py "auto-de"]);
             (py "fr", [py "auto-fr"])];
     info_backup_automatic_captions := None |}.

(** ** The download loop *)

(** [k] turns of the loop that waits for the lock, in each of which the
    lock is refused. *)
Definition refusals (output_title : pystr) (k : nat) : list Event :=
  mjoin (replicate k [EvDownloadLock output_title; EvSleep]).

(** The slave after the calls [evs], made in this order. *)
Definition emit_all (evs : list Event) (s : Slave) : Slave :=
  foldl (λ s e, emit e s) s evs.

Definition is_sleep (e : Event) : bool :=
  match e with EvSleep => true | _ => false end.

(** A handler under which another instance holds the lock for the first
    two seconds. *)
Definition busy_handler : Handler :=
  {| get_mode := py "video";
     get_resolution := 1080;
     get_prefer_mpeg := false;
     get_url := py "https://example.org/watch";
     get_download_dir := py "/home/user/Videos";
     get_automatic_subtitles := [];
     on_login_request := λ _, ([], []);
     on_password_request := λ _, [];
     on_playlist_request := λ _, true;
     on_download_lock := λ tr _,
       (2 <=? length (filter (λ e, is_sleep e = true) tr))%nat |}.

(** A world in which the download directory cannot be created. *)
Definition readonly_world : World :=
  {| sanitize_filename := sanitize_none;
     fs_encode := utf8_encode;
     str_lower := ascii_lower;
     is_word := ascii_word;
     abspath := λ p, p;
     mkdtemp := λ _, py "/tmp/job";
     ydl_download := λ _ _ _, [];
     ydl_download_with_info_file := λ _ _ _, ([], Some (py "v1.f22.mp4"));
     listdir := λ _ _, [];
     makedirs := λ _ _, Some (py "[Errno 30] Read-only file system");
     os_replace := λ _ _ _, None |}.

(** ** The two phases of a job *)

(** What the slave may call while it finds out the extent of the job: the
    backend on the URL, the logger and its requests, and the question
    about the playlist. *)
Definition probe_event (e : Event) : Prop :=
  match e with
  | EvPlaylistRequest => True
  | _ => playlist_event e
  end.

(** What the slave may call while it downloads the items with the options
    [opts]: nothing that asks the user, no probe of the URL, and the
    backend with [opts] only. *)
Definition download_event (opts : Opts) (e : Event) : Prop :=
  match e with
  | EvLoginRequest | EvPasswordRequest | EvPlaylistRequest
  | EvYdlDownload _ _ => False
  | EvYdlDownloadWithInfoFile o _ => o = opts
  | _ => True
  end.

(** The options of the download loop: subtitles, automatic captions and
    thumbnails are written, and the limit of the probes is gone. *)
Definition final_options (opts : Opts) : Prop :=
  opt_writesubtitles opts = Some true ∧
  opt_writeautomaticsub opts = Some true ∧
  opt_writethumbnail opts = Some true ∧
  opt_playlistend opts = None.

(** From a state in which authentication requests are switched off: they
    stay switched off, the options and the counters stay as they are, and
    what is called is allowed in the download loop. *)
Definition steady : relation Slave := λ s s',
  _allow_authentication_request s = false →
  _allow_authentication_request s' = false ∧
  ydl_opts s' = ydl_opts s ∧
  _skip_authentication s' = _skip_authentication s ∧
  _skipped_count s' = _skipped_count s ∧
  ∃ evs, trace s' = trace s ++ evs ∧
         Forall (download_event (ydl_opts s)) evs.

(** Once the limit of the probes is gone, it stays away. *)
Definition unlimited : relation Slave := λ s s',
  opt_playlistend (ydl_opts s) = None → opt_playlistend (ydl_opts s') = None.

(** ** The items of a job *)

(** The two calls that frame the download of an item: its announcement,
    with its index, the number of items and its title, and the report of
    the finished file. *)
Definition milestone (e : Event) : option (Z * Z * pystr + pystr) :=
  match e with
  | EvDownloadStart i n title => Some (inl (i, n, title))
  | EvDownloadFinished filename => Some (inr filename)
  | _ => None
  end.

Definition no_milestone (e : Event) : Prop := milestone e = None.

(** The milestones of a list of items that are downloaded one after the
    other, the first with index [i], to the files [filenames]. *)
Definition milestones_of (i n : Z) (items : list InfoDict)
    (filenames : list pystr) : list (Z * Z * pystr + pystr) :=
  mjoin (imap (λ k item, [inl (i + Z.of_nat k, n, title_of item.1);
                          inr item.2])
              (zip items filenames)).

(** A world in which two items are downloaded without incident. *)
Definition smooth_world : World :=
  sample_world gated_backend (λ _, ([], Some (py "v.f22.mp4"))) [].
(** * Properties *)

(** ** Filename Sanitizer/Shortener *)

Section ShortFilenameFacts.
Variable sanitize : pystr → pystr.
Variable enc : pystr → list Byte.byte.

Lemma fits_true output budget :
  fits enc output budget = true ↔ len (enc output) < budget.
Proof. unfold fits. apply Z.ltb_lt. Qed.

Lemma fits_false output budget :
  fits enc output budget = false ↔ budget ≤ len (enc output).
Proof. unfold fits. rewrite Z.ltb_ge. done. Qed.

(** The loop entered at [i] returns the candidate of the greatest index up
    to [i] that fits, and raises when there is none. *)
Lemma short_filename_loop_spec name budget i :
  (∃ k, (k ≤ i)%nat ∧
        short_filename_loop sanitize enc name budget i
          = Ret (short_candidate sanitize name k) ∧
        fits enc (short_candidate sanitize name k) budget = true ∧
        ∀ j, (k < j ≤ i)%nat →
             fits enc (short_candidate sanitize name j) budget = false)
  ∨ (short_filename_loop sanitize enc name budget i = Raise ValueError ∧
     ∀ j, (j ≤ i)%nat →
          fits enc (short_candidate sanitize name j) budget = false).
Proof.
  induction i as [|i IH]; simpl.
  - destruct (fits enc (short_candidate sanitize name 0) budget) eqn:E.
    + left. exists 0%nat. repeat split; auto. intros j Hj. lia.
    + right. split; auto. intros j Hj. by replace j with 0%nat by lia.
  - destruct (fits enc (short_candidate sanitize name (S i)) budget) eqn:E.
    + left. exists (S i). repeat split; auto. intros j Hj. lia.
    + destruct IH as [(k & Hk & Hr & Hf & Hn)|[Hr Hn]].
      * left. exists k. repeat split; auto.
        intros j Hj. destruct (decide (j = S i)) as [->|]; auto.
        apply Hn. lia.
      * right. split; auto. intros j Hj.
        destruct (decide (j = S i)) as [->|]; auto. apply Hn. lia.
Qed.
End ShortFilenameFacts.

(** C4, as the specification states it, fails: the title [" a"] comes out
    as ["a"], which is no prefix of the title with only its trailing white
    space trimmed. *)
Lemma short_filename_trims_leading_space :
  _short_filename sanitize_none utf8_encode (py " a") 200 = Ret (py "a") ∧
  ¬ spec_short_filename sanitize_none utf8_encode (py " a") 200.
Proof.
  split; [by vm_compute|].
  intros [(k & Hk & Hr & _)|[Hr _]]; [|by vm_compute in Hr].
  change (length (py " a")) with 2%nat in Hk.
  destruct k as [|[|[|k]]]; [| | |lia]; by vm_compute in Hr.
Qed.

(** C4, amended: for every title and every budget, [_short_filename]
    either returns the candidate of the longest prefix that fits, where the
    candidate of a prefix is the prefix trimmed of white space at both ends,
    with an ellipsis appended exactly when the prefix is proper, then
    sanitized, and it fits when its encoding has strictly fewer bytes than
    the budget; or it raises [ValueError], exactly when no prefix fits, the
    empty one included. *)
Theorem short_filename_longest_fitting_prefix
    (sanitize : pystr → pystr) (enc : pystr → list Byte.byte)
    (name : pystr) (budget : Z) :
  let candidate (k : nat) :=
    sanitize (strip (take k name) ++
              if bool_decide (k < length name)%nat then [ELLIPSIS] else []) in
  (∃ k, (k ≤ length name)%nat ∧
        _short_filename sanitize enc name budget = Ret (candidate k) ∧
        len (enc (candidate k)) < budget ∧
        ∀ j, (k < j ≤ length name)%nat → budget ≤ len (enc (candidate j)))
  ∨ (_short_filename sanitize enc name budget = Raise ValueError ∧
     ∀ j, (j ≤ length name)%nat → budget ≤ len (enc (candidate j))).
Proof.
  intros candidate.
  assert (Hc : ∀ k, candidate k = short_candidate sanitize name k).
  { intros k. unfold candidate, short_candidate, len.
    case_bool_decide; destruct (Z.ltb_spec (Z.of_nat k) (Z.of_nat (length name)));
      try lia; [done|by rewrite app_nil_r]. }
  unfold _short_filename.
  destruct (short_filename_loop_spec sanitize enc name budget (length name))
    as [(k & Hk & Hr & Hf & Hn)|[Hr Hn]].
  - left. exists k. rewrite !Hc. repeat split; auto.
    + by apply fits_true.
    + intros j Hj. rewrite Hc. apply fits_false. auto.
  - right. split; auto. intros j Hj. rewrite Hc. apply fits_false. auto.
Qed.


(** ** Progress ticks *)

(** C10: a tick that is neither ['downloading'] nor ['finished'] makes no
    call at all; a ['finished'] tick reports [-1] for the fraction, the ETA
    and the speed; a ['downloading'] tick reports the downloaded bytes over
    the total only when both are known and the total is positive, the
    fragment index over the fragment count only when the bytes or their
    total are unknown and both fragment numbers are known with a positive
    count, and [-1] otherwise, so no quotient has a divisor that is zero. *)
Theorem on_progress_guarded (d : Tick) (filename : pystr) (s : Slave) :
  let bytes_ := default (-1) (tick_downloaded_bytes d) in
  let bytes_total :=
    default (-1) (match tick_total_bytes d with
                  | Some t => Some t
                  | None => tick_total_bytes_estimate d
                  end) in
  let fragments := default (-1) (tick_fragment_index d) in
  let fragments_total := default (-1) (tick_fragment_count d) in
  (tick_status d ∉ [py "downloading"; py "finished"] →
   _on_progress d s = Done () s) ∧
  (tick_status d = py "finished" → tick_filename d = Some filename →
   _on_progress d s
   = Done () (emit (EvOnProgress filename MinusOne bytes_ bytes_total
                                 (-1) (-1)) s)) ∧
  (tick_status d = py "downloading" → tick_filename d = Some filename →
   ∃ progress,
     _on_progress d s
     = Done () (emit (EvOnProgress filename progress bytes_ bytes_total
                        (default (-1) (tick_eta d))
                        (py_round (default (-1 # 1)%Q (tick_speed d)))) s) ∧
     (progress = Quotient bytes_ bytes_total ∧
        is_Some (tick_downloaded_bytes d) ∧ 0 ≤ bytes_ ∧ 0 < bytes_total
      ∨ progress = Quotient fragments fragments_total ∧
        (bytes_ < 0 ∨ bytes_total < 0) ∧
        is_Some (tick_fragment_index d) ∧
        is_Some (tick_fragment_count d) ∧
        0 ≤ fragments ∧ 0 < fragments_total
      ∨ progress = MinusOne ∧
        (0 ≤ bytes_ ∧ bytes_total = 0
         ∨ (bytes_ < 0 ∨ bytes_total < 0) ∧
           (fragments < 0 ∨ fragments_total ≤ 0)))).
Proof.
  intros bytes_ bytes_total fragments fragments_total.
  split; [|split].
  - intros Hst. unfold _on_progress.
    by rewrite bool_decide_eq_false_2.
  - intros Hst Hf. unfold _on_progress. rewrite Hst, Hf. reflexivity.
  - intros Hst Hf. unfold _on_progress. rewrite Hst, Hf.
    change (negb (bool_decide (py "downloading" ∈
              [py "downloading"; py "finished"]))) with false.
    change (str_eqb (py "downloading") (py "downloading")) with true.
    cbv iota. fold bytes_ bytes_total fragments fragments_total.
    assert (Hkb : 0 ≤ bytes_ → is_Some (tick_downloaded_bytes d)).
    { subst bytes_. destruct (tick_downloaded_bytes d); [eauto|simpl; lia]. }
    assert (Hki : 0 ≤ fragments → is_Some (tick_fragment_index d)).
    { subst fragments. destruct (tick_fragment_index d); [eauto|simpl; lia]. }
    assert (Hkc : 0 ≤ fragments_total → is_Some (tick_fragment_count d)).
    { subst fragments_total.
      destruct (tick_fragment_count d); [eauto|simpl; lia]. }
    destruct (Z.leb_spec 0 bytes_), (Z.leb_spec 0 bytes_total),
      (Z.ltb_spec 0 bytes_total), (Z.leb_spec 0 fragments),
      (Z.leb_spec 0 fragments_total), (Z.ltb_spec 0 fragments_total);
      simpl; eexists; (split; [reflexivity|]);
      first [ left; repeat split; auto; lia
            | right; left; repeat split; auto; lia
            | right; right; split; [reflexivity|lia] ].
Qed.


(** ** The monad of the slave *)

Section Appends.
Context {A B : Type}.
Implicit Types Q : Event → Prop.

Lemma appends_mono Q Q' (m : M A) :
  (∀ e, Q e → Q' e) → appends Q m → appends Q' m.
Proof.
  intros HQ Hm s. destruct (Hm s) as (evs & -> & Hevs).
  exists evs. split; [done|]. eapply Forall_impl; eauto.
Qed.

Lemma appends_ret Q (a : A) : appends Q (mret a : M A).
Proof. intros s. exists []. by rewrite app_nil_r. Qed.

Lemma appends_bind Q (m : M A) (f : A → M B) :
  appends Q m → (∀ a, appends Q (f a)) → appends Q (m ≫= f).
Proof.
  intros Hm Hf s. unfold mbind, M_bind.
  destruct (Hm s) as (evs & Hevs & HQ).
  destruct (m s) as [a s'| | | |] eqn:E; simpl in *; eauto.
  destruct (Hf a s') as (evs' & -> & HQ').
  exists (evs ++ evs'). rewrite Hevs, app_assoc. split; [done|].
  by apply Forall_app.
Qed.

Lemma appends_catch_retry Q (m handler : M A) :
  appends Q m → appends Q handler → appends Q (catch_retry m handler).
Proof.
  intros Hm Hh s. unfold catch_retry.
  destruct (Hm s) as (evs & Hevs & HQ).
  destruct (m s) as [a s'|msg s'| | |] eqn:E; simpl in *; eauto.
  destruct (Hh s') as (evs' & -> & HQ').
  exists (evs ++ evs'). rewrite Hevs, app_assoc. split; [done|].
  by apply Forall_app.
Qed.

Lemma appends_get Q : appends Q get.
Proof. intros s. exists []. by rewrite app_nil_r. Qed.

Lemma appends_modify Q (f : Slave → Slave) :
  (∀ s, trace (f s) = trace s) → appends Q (modify f).
Proof. intros Hf s. exists []. simpl. by rewrite Hf, app_nil_r. Qed.

Lemma appends_call Q (e : Event) : Q e → appends Q (call e).
Proof. intros He s. exists [e]. split; [done|]. by constructor. Qed.

Lemma appends_abort Q (m : M A) :
  (∀ s, final_state (m s) = s) → appends Q m.
Proof. intros Hm s. exists []. by rewrite Hm, app_nil_r. Qed.
End Appends.

Lemma filter_none (p : Event → bool) (evs : list Event) :
  Forall (λ e, p e = false) evs → filter (λ e, p e = true) evs = [].
Proof.
  induction 1 as [|e evs He _ IH]; [reflexivity|].
  rewrite filter_cons_False; [exact IH|]. by rewrite He.
Qed.

(** A piece that adds no call of the kind [p] leaves their number as it
    is. *)
Lemma appends_count {A} (p : Event → bool) (m : M A) (s : Slave) :
  appends (λ e, p e = false) m →
  count_calls p (final_state (m s)) = count_calls p s.
Proof.
  intros Hm. destruct (Hm s) as (evs & Hevs & HQ).
  unfold count_calls. rewrite Hevs, filter_app, length_app.
  rewrite (filter_none p evs HQ). simpl. lia.
Qed.

#[local] Ltac appends_step :=
  first
    [ apply appends_ret
    | apply appends_get
    | apply appends_bind; [|intros ?]
    | apply appends_catch_retry
    | apply appends_modify; intros []; reflexivity
    | apply appends_call; exact I
    | apply appends_abort; intros []; reflexivity ].

Section SlaveFacts.
Variable handler : Handler.
Variable world : World.

Lemma on_progress_appends d : appends progress_event (_on_progress d).
Proof.
  unfold _on_progress.
  repeat (case_match; repeat appends_step).
Qed.

Lemma error_appends msg : appends logger_event (error handler world msg).
Proof.
  unfold error.
  repeat (repeat appends_step; try case_match).
Qed.

Lemma run_backend_appends steps :
  appends logger_event (run_backend handler world steps).
Proof.
  induction steps as [|[msg|d|name info] steps IH]; simpl.
  - appends_step.
  - appends_step; [apply error_appends|done].
  - appends_step; [|done].
    eapply appends_mono; [|apply on_progress_appends]. by intros [].
  - appends_step; [|done]. apply appends_modify. by intros [].
Qed.

Lemma load_playlist_loop_appends fuel url :
  appends playlist_event (load_playlist_loop handler world fuel url).
Proof.
  induction fuel as [|fuel IH]; simpl.
  - appends_step.
  - repeat appends_step; [|done].
    eapply appends_mono; [|apply run_backend_appends].
    by intros [].
Qed.

Lemma load_playlist_appends fuel url :
  appends playlist_event (_load_playlist handler world fuel url).
Proof.
  unfold _load_playlist. repeat appends_step.
  apply load_playlist_loop_appends.
Qed.
End SlaveFacts.


(** ** The extent of the job *)

Section Extent.
Variable handler : Handler.
Variable world : World.

Lemma playlist_event_no_request e :
  playlist_event e → is_playlist_request e = false.
Proof. by destruct e. Qed.

(** A run of [_load_playlist] asks no question about the playlist. *)
Lemma load_playlist_asks_nothing {B} fuel url (f : list InfoDict * Z → M B)
    (s : Slave) :
  (∀ r, appends (λ e, is_playlist_request e = false) (f r)) →
  count_calls is_playlist_request
    (final_state ((_load_playlist handler world fuel url ≫= f) s))
  = count_calls is_playlist_request s.
Proof.
  intros Hf. apply appends_count, appends_bind; [|done].
  eapply appends_mono; [|apply load_playlist_appends].
  apply playlist_event_no_request.
Qed.

(** With fuel, a run of [_load_playlist] starts with an invocation of the
    backend under the options of the moment. *)
Lemma load_playlist_first_call fuel url s :
  ∃ evs,
    trace (final_state (_load_playlist handler world (S fuel) url s))
    = trace s ++ EvYdlDownload (ydl_opts s) url :: evs.
Proof.
  unfold _load_playlist.
  set (k := λ saved : Z, (s' ← get;
    mret ((sorted_by_name
             (filter (λ kv, is_info_json kv.1 = true) (workdir s'))).*2,
          _skipped_count s' - saved)) : M (list InfoDict * Z)).
  assert (Hk : ∀ saved, appends (λ _, True) (k saved)).
  { intros saved. unfold k. repeat appends_step. }
  assert (Hloop : appends (λ _, True)
            (catch_retry
               (run_backend handler world
                  (ydl_download world
                     (trace (emit (EvYdlDownload (ydl_opts s) url)
                               (set_workdir [] s)))
                     (ydl_opts s) url);; mret (_skipped_count s))
               (load_playlist_loop handler world fuel url) ≫= k)).
  { apply appends_bind; [|done]. apply appends_catch_retry.
    - apply appends_bind; [|intros; apply appends_ret].
      eapply appends_mono; [|apply run_backend_appends]. done.
    - eapply appends_mono; [|apply load_playlist_loop_appends]. done. }
  destruct (Hloop (emit (EvYdlDownload (ydl_opts s) url) (set_workdir [] s)))
    as (evs & Hevs & _).
  exists evs. destruct s. simpl in *. rewrite <- app_assoc in Hevs.
  exact Hevs.
Qed.
Lemma count_calls_app p s s' evs :
  trace s' = trace s ++ evs →
  count_calls p s' = (count_calls p s + length (filter (λ e, p e = true) evs))%nat.
Proof.
  intros H. unfold count_calls. by rewrite H, filter_app, length_app.
Qed.
End Extent.

(** C1: the total of a probe is the number of its items plus the number
    of items it has skipped.  The first probe runs with [playlistend = 2];
    the second probe invokes the backend exactly when the total of the
    first is more than one, and hands on the result of the first otherwise;
    the handler is asked about the playlist exactly when the total of the
    first probe is more than the total of the second, and then a refusal
    yields the items of the second probe and an acceptance the whole
    playlist, loaded with no [playlistend]; with no question, a total of
    the first probe of more than one yields the whole playlist, and the
    items of the first probe are the answer otherwise. *)
Theorem playlist_extent_decision (handler : Handler) (world : World)
    (fuel : nat) (url : pystr)
    (info_testplaylist : list InfoDict) (skipped_testplaylist : Z)
    (info_noplaylist : list InfoDict) (skipped_noplaylist : Z) (s : Slave) :
  let load := _load_playlist handler world (S fuel) url in
  let probe := probe_noplaylist handler world (S fuel) url in
  let choose := choose_playlist handler world (S fuel) url in
  let test := len info_testplaylist + skipped_testplaylist in
  let no := len info_noplaylist + skipped_noplaylist in
  (* the first probe *)
  let s_test :=
    update_opts (set_playlistend (Some 2))
      (update_opts (set_cookiefile
                      (path_join (mkdtemp world (trace s)) (py "cookies"))) s)
  in
  (load_info_playlist handler world (S fuel) url s
   = ('(i1, k1) ← load; '(i2, k2) ← probe i1 k1; choose i1 k1 i2 k2) s_test ∧
   opt_playlistend (ydl_opts s_test) = Some 2 ∧
   ∃ evs, trace (final_state (load s_test))
          = trace s_test ++ EvYdlDownload (ydl_opts s_test) url :: evs) ∧
  (* the second probe *)
  let s_no := update_opts (set_noplaylist (Some true)) s in
  (probe info_testplaylist skipped_testplaylist s
   = (if 1 <? test then load s_no
      else Done (info_testplaylist, skipped_testplaylist) s_no) ∧
   (count_calls is_backend_call
      (final_state (probe info_testplaylist skipped_testplaylist s))
    = count_calls is_backend_call s ↔ test ≤ 1)) ∧
  (* the choice *)
  let s_del :=
    update_opts (set_playlistend None) (update_opts (set_noplaylist None) s) in
  let answer := on_playlist_request handler (trace s_del) in
  let s_asked :=
    update_opts (set_noplaylist (Some (negb answer)))
                (emit EvPlaylistRequest s_del) in
  let chosen :=
    choose info_testplaylist skipped_testplaylist
           info_noplaylist skipped_noplaylist s in
  chosen
  = (if no <? test then
       if answer then ('(info_playlist, _) ← load; mret info_playlist) s_asked
       else Done info_noplaylist s_asked
     else if 1 <? test then
       ('(info_playlist, _) ← load; mret info_playlist) s_del
     else Done info_testplaylist s_del) ∧
  count_calls is_playlist_request (final_state chosen)
  = (count_calls is_playlist_request s + if (no <? test)%Z then 1 else 0)%nat ∧
  opt_playlistend (ydl_opts s_del) = None ∧
  opt_noplaylist (ydl_opts s_del) = None ∧
  opt_playlistend (ydl_opts s_asked) = None ∧
  opt_noplaylist (ydl_opts s_asked) = Some (negb answer).
Proof.
  intros load probe choose test no s_test.
  split; [|split].
  - split; [reflexivity|]. split; [reflexivity|].
    apply load_playlist_first_call.
  - assert (Heq : probe info_testplaylist skipped_testplaylist s
                  = if 1 <? test
                    then load (update_opts (set_noplaylist (Some true)) s)
                    else Done (info_testplaylist, skipped_testplaylist)
                              (update_opts (set_noplaylist (Some true)) s)).
    { unfold probe, probe_noplaylist, total. fold test.
      destruct (1 <? test); reflexivity. }
    split; [exact Heq|]. rewrite Heq.
    destruct (Z.ltb_spec 1 test) as [Hlt|Hge].
    + destruct (load_playlist_first_call handler world fuel url
                  (update_opts (set_noplaylist (Some true)) s)) as [evs Hevs].
      fold load in Hevs.
      rewrite (count_calls_app is_backend_call
                 (update_opts (set_noplaylist (Some true)) s) _ _ Hevs).
      rewrite filter_cons_True by reflexivity. simpl.
      replace (count_calls is_backend_call
                 (update_opts (set_noplaylist (Some true)) s))
        with (count_calls is_backend_call s) by (by destruct s).
      split; lia.
    + simpl. split; [lia|]. intros _. by destruct s.
  - intros s_del answer s_asked chosen.
    assert (Heq : chosen
      = if no <? test then
          if answer
          then ('(info_playlist, _) ← load; mret info_playlist) s_asked
          else Done info_noplaylist s_asked
        else if 1 <? test then
          ('(info_playlist, _) ← load; mret info_playlist) s_del
        else Done info_testplaylist s_del).
    { unfold chosen, choose, choose_playlist, total. fold test no.
      destruct (no <? test); [|destruct (1 <? test); reflexivity].
      unfold s_asked, answer. change (trace s_del) with (trace s).
      unfold mbind, M_bind, modify, get, call. simpl.
      destruct (on_playlist_request handler (trace s)); reflexivity. }
    split; [exact Heq|]. split; [|by destruct s].
    rewrite Heq.
    assert (Hq : ∀ r : list InfoDict * Z,
              appends (λ e, is_playlist_request e = false)
                      (let '(info_playlist, _) := r in mret info_playlist : M _)).
    { intros [??]. apply appends_ret. }
    assert (Hasked : count_calls is_playlist_request s_asked
                     = (count_calls is_playlist_request s + 1)%nat).
    { unfold s_asked, s_del, count_calls. destruct s. simpl.
      rewrite filter_app, length_app. reflexivity. }
    assert (Hdel : count_calls is_playlist_request s_del
                   = count_calls is_playlist_request s).
    { by destruct s. }
    destruct (no <? test).
    + destruct answer.
      * unfold load. rewrite load_playlist_asks_nothing by exact Hq.
        exact Hasked.
      * exact Hasked.
    + destruct (1 <? test).
      * unfold load. rewrite load_playlist_asks_nothing by exact Hq. lia.
      * simpl. lia.
Qed.

(** C1 at work.  With three items in the first probe and one in the
    second the user is asked, and a refusal yields the item of the second
    probe; one item and one skipped item in the first probe against one
    item in the second make a question too; with one item and nothing
    skipped the second probe hands on the first without a call of the
    backend, and no question is asked.  The whole block, run on the URL of
    a video in a playlist of three, invokes the backend three times, asks
    once and, the user accepting, ends with the three items; run on the URL
    of a single video it invokes the backend once and asks nothing. *)
Lemma playlist_extent_decision_witness :
  let yes := sample_handler ([], []) [] true [] in
  let no := sample_handler ([], []) [] false [] in
  let url := py "https://example.org/watch" in
  (∃ s', choose_playlist no playlist_world 1 url
           [first_item; second_item; third_item] 0 [first_item] 0
           (new_slave no) = Done [first_item] s' ∧
         count_calls is_playlist_request s' = 1%nat) ∧
  count_calls is_playlist_request
    (final_state (choose_playlist no playlist_world 1 url
                    [first_item] 1 [first_item] 0 (new_slave no))) = 1%nat ∧
  probe_noplaylist yes single_world 1 url [first_item] 0 (new_slave yes)
  = Done ([first_item], 0)
         (update_opts (set_noplaylist (Some true)) (new_slave yes)) ∧
  (∃ s', choose_playlist yes single_world 1 url
           [first_item] 0 [first_item] 0 (new_slave yes)
         = Done [first_item] s' ∧
         count_calls is_playlist_request s' = 0%nat) ∧
  (∃ s', load_info_playlist yes playlist_world 1 url (new_slave yes)
         = Done [first_item; second_item; third_item] s' ∧
         count_calls is_playlist_request s' = 1%nat ∧
         count_calls is_backend_call s' = 3%nat) ∧
  (∃ s', load_info_playlist yes single_world 1 url (new_slave yes)
         = Done [first_item] s' ∧
         count_calls is_playlist_request s' = 0%nat ∧
         count_calls is_backend_call s' = 1%nat).
Proof.
  intros yes no url.
  destruct (playlist_extent_decision no playlist_world 0 url
              [first_item; second_item; third_item] 0 [first_item] 0
              (new_slave no)) as (_ & _ & Hchoice & Hasked & _).
  destruct (playlist_extent_decision no playlist_world 0 url
              [first_item] 1 [first_item] 0 (new_slave no))
    as (_ & _ & _ & Hskipped & _).
  destruct (playlist_extent_decision yes single_world 0 url
              [first_item] 0 [first_item] 0 (new_slave yes))
    as (_ & [Hprobe _] & Hsingle & Hquiet & _).
  split; [|split; [exact Hskipped|split; [exact Hprobe|split]]].
  - eexists. split; [exact Hchoice|]. rewrite Hchoice in Hasked. exact Hasked.
  - eexists. split; [exact Hsingle|]. rewrite Hsingle in Hquiet. exact Hquiet.
  - split; eexists; vm_compute; repeat split; reflexivity.
Defined.

(** ** The error classifier *)

#[local] Ltac run_monad :=
  unfold mbind, M_bind, mret, M_ret, call, modify, get, raise_retry,
    sys_exit, crash; simpl.

Section Classifier.
Variable handler : Handler.
Variable world : World.

(** With authentication requests switched off, a line is either the
    warning about extended attributes or fatal. *)
Lemma error_disallowed msg s :
  _allow_authentication_request s = false →
  error handler world msg s
  = if xattr_unsupported msg then Done () (emit (EvStderr msg) s)
    else Exit 1 (emit (EvOnError msg) (emit (EvStderr msg) s)).
Proof.
  intros Ha. unfold error. run_monad. rewrite Ha. simpl.
  destruct (xattr_unsupported msg); reflexivity.
Qed.

(** After a refusal, a line that asks for authentication is counted and
    nothing else happens. *)
Lemma error_after_refusal msg s :
  _allow_authentication_request s = true →
  _skip_authentication s = true →
  authentication_line world msg →
  error handler world msg s = Done () (count_skipped (emit (EvStderr msg) s)).
Proof.
  intros Ha Hs [Hl|Hp]; unfold error; run_monad; rewrite Ha, Hs; simpl.
  - by rewrite Hl.
  - rewrite Hp. by destruct (needs_login world msg).
Qed.

(** The first refusal. *)
Lemma error_refusal msg s :
  _allow_authentication_request s = true →
  _skip_authentication s = false →
  authentication_line world msg →
  declines handler world msg s →
  error handler world msg s
  = Done () (count_skipped (set_skip true
               (emit (request_for world msg) (emit (EvStderr msg) s)))).
Proof.
  intros Ha Hs Hauth Hd. unfold declines, request_for in *.
  unfold error. run_monad. rewrite Ha, Hs. simpl.
  destruct (needs_login world msg) eqn:Hl.
  - simpl in Hd. rewrite Hd. reflexivity.
  - destruct Hauth as [Hl'|Hp]; [congruence|]. rewrite Hp.
    simpl in Hd. rewrite Hd. reflexivity.
Qed.

(** Credentials for a line that wants a login. *)
Lemma error_login msg s user password :
  _allow_authentication_request s = true →
  _skip_authentication s = false →
  needs_login world msg = true →
  on_login_request handler (trace (emit (EvStderr msg) s)) = (user, password) →
  user ≠ [] ∨ password ≠ [] →
  error handler world msg s
  = Retry msg (set_allow false
                 (update_opts (set_credentials user password)
                    (emit EvLoginRequest (emit (EvStderr msg) s)))).
Proof.
  intros Ha Hs Hl Hr Hne. unfold error. run_monad.
  rewrite Ha, Hs, Hl. simpl in *. rewrite Hr.
  assert (str_eqb user [] && str_eqb password [] = false) as ->.
  { unfold str_eqb. destruct Hne.
    - by rewrite (bool_decide_eq_false_2 (user = [])).
    - rewrite (bool_decide_eq_false_2 (password = [])) by done.
      apply andb_false_r. }
  reflexivity.
Qed.

(** The classifier never switches authentication requests on, and after a
    refusal it never switches them off. *)
Lemma error_keeps_flags msg s :
  let s' := final_state (error handler world msg s) in
  (_allow_authentication_request s = false →
   _allow_authentication_request s' = false) ∧
  (_skip_authentication s = true →
   _skip_authentication s' = true ∧
   _allow_authentication_request s' = _allow_authentication_request s).
Proof.
  unfold error. run_monad.
  destruct (_allow_authentication_request s) eqn:Ha,
    (_skip_authentication s) eqn:Hs; simpl;
    repeat (case_match; simpl; try rewrite Ha; try rewrite Hs);
    split; (done || (intros _; done)).
Qed.

Lemma on_progress_keeps_state d s :
  let o := _on_progress d s in
  not_retry o ∧
  _allow_authentication_request (final_state o)
  = _allow_authentication_request s ∧
  _skip_authentication (final_state o) = _skip_authentication s.
Proof.
  unfold _on_progress. run_monad.
  repeat (case_match; simpl); done.
Qed.

(** With authentication requests switched off, an invocation of the backend
    raises no retry signal, keeps them switched off and asks the user
    nothing. *)
Lemma run_backend_disallowed steps s :
  _allow_authentication_request s = false →
  let o := run_backend handler world steps s in
  not_retry o ∧
  _allow_authentication_request (final_state o) = false ∧
  count_calls is_prompt (final_state o) = count_calls is_prompt s.
Proof.
  revert s. induction steps as [|[msg|d|name info] steps IH]; intros s Ha; simpl.
  - done.
  - unfold mbind, M_bind. rewrite error_disallowed by done.
    destruct (xattr_unsupported msg).
    + destruct (IH (emit (EvStderr msg) s)) as (Hr & Hf & Hc); [done|].
      split; [done|]. split; [done|]. rewrite Hc.
      unfold count_calls. destruct s. simpl.
      rewrite filter_app, length_app. simpl. lia.
    + simpl. split; [done|]. split; [done|].
      unfold count_calls. destruct s. simpl.
      rewrite !filter_app, !length_app. simpl. lia.
  - unfold mbind, M_bind.
    destruct (on_progress_keeps_state d s) as (Hr & Hf & _).
    assert (Hc : count_calls is_prompt (final_state (_on_progress d s))
                 = count_calls is_prompt s).
    { apply appends_count. eapply appends_mono; [|apply on_progress_appends].
      intros e He. destruct e; done. }
    destruct (_on_progress d s) as [[] s'| | | |] eqn:E; simpl in *;
      try done; try (by rewrite Hf).
    destruct (IH s') as (Hr' & Hf' & Hc'); [congruence|].
    split; [done|]. split; [done|]. by rewrite Hc'.
  - unfold mbind, M_bind, modify.
    destruct (IH (set_workdir (dict_set name info (workdir s)) s))
      as (Hr' & Hf' & Hc'); [by destruct s|].
    split; [done|]. split; [done|]. rewrite Hc'. by destruct s.
Qed.

Lemma run_backend_app pre post s :
  run_backend handler world (pre ++ post) s
  = match run_backend handler world pre s with
    | Done _ s' => run_backend handler world post s'
    | Retry msg s' => Retry msg s'
    | Exit code s' => Exit code s'
    | Crash e s' => Crash e s'
    | OutOfFuel s' => OutOfFuel s'
    end.
Proof.
  revert s. induction pre as [|[msg|d|name info] pre IH]; intros s; simpl.
  - done.
  - unfold mbind, M_bind. destruct (error handler world msg s); auto.
  - unfold mbind, M_bind. destruct (_on_progress d s); auto.
  - unfold mbind, M_bind, modify. apply IH.
Qed.

Lemma catch_retry_not_retry {A} (m h : M A) s :
  not_retry (m s) → catch_retry m h s = m s.
Proof. unfold catch_retry. by destruct (m s). Qed.

Lemma load_playlist_loop_disallowed fuel url s :
  _allow_authentication_request s = false →
  load_playlist_loop handler world (S fuel) url s
  = invoke_once handler world url s.
Proof.
  intros Ha. simpl. unfold invoke_once.
  unfold mbind at 1 2 3. unfold M_bind at 1 2 3. unfold get, call, modify.
  simpl. apply catch_retry_not_retry.
  unfold mbind, M_bind.
  destruct (run_backend_disallowed
              (ydl_download world (trace s ++ [EvYdlDownload (ydl_opts s) url])
                 (ydl_opts s) url)
              (emit (EvYdlDownload (ydl_opts s) url) s)) as (Hr & _);
    [by destruct s|].
  destruct (run_backend _ _ _ _); done.
Qed.
Lemma invoke_once_disallowed url s :
  _allow_authentication_request s = false →
  not_retry (invoke_once handler world url s) ∧
  count_calls is_backend_call (final_state (invoke_once handler world url s))
  = S (count_calls is_backend_call s).
Proof.
  intros Ha. unfold invoke_once.
  set (s1 := emit (EvYdlDownload (ydl_opts s) url) s).
  set (steps := ydl_download world (trace s1) (ydl_opts s) url).
  destruct (run_backend_disallowed steps s1) as (Hr & _); [by destruct s|].
  split.
  - unfold mbind, M_bind. by destruct (run_backend handler world steps s1).
  - rewrite appends_count.
    + unfold count_calls, s1. destruct s. simpl.
      rewrite filter_app, length_app. simpl. lia.
    + apply appends_bind; [|intros; apply appends_ret].
      eapply appends_mono; [|apply run_backend_appends]. by intros [].
Qed.
End Classifier.

(** C2: when a line that wants a login arrives while authentication
    requests are allowed and none has been declined, and the user answers
    with a user name or a password, the classifier stores both in the
    options, switches authentication requests off and raises the retry
    signal; from then on no invocation of the backend raises it again or
    asks the user anything; and the session runner, whose invocation of the
    backend has met that line, invokes the backend once more, with the
    credentials in the options, and not a third time. *)
Theorem login_retries_once (handler : Handler) (world : World)
    (msg : pystr) (s : Slave) (user password : pystr) :
  _allow_authentication_request s = true →
  _skip_authentication s = false →
  needs_login world msg = true →
  on_login_request handler (trace (emit (EvStderr msg) s)) = (user, password) →
  user ≠ [] ∨ password ≠ [] →
  let s' :=
    set_allow false
      (update_opts (set_credentials user password)
         (emit EvLoginRequest (emit (EvStderr msg) s))) in
  error handler world msg s = Retry msg s' ∧
  opt_username (ydl_opts s') = Some user ∧
  opt_password (ydl_opts s') = Some password ∧
  _allow_authentication_request s' = false ∧
  (∀ steps st,
     _allow_authentication_request st = false →
     let o := run_backend handler world steps st in
     not_retry o ∧
     _allow_authentication_request (final_state o) = false ∧
     count_calls is_prompt (final_state o) = count_calls is_prompt st) ∧
  (∀ fuel url s0 pre post,
     let s_call := emit (EvYdlDownload (ydl_opts s0) url) s0 in
     ydl_download world (trace s_call) (ydl_opts s0) url
     = pre ++ LogError msg :: post →
     run_backend handler world pre s_call = Done () s →
     let o := load_playlist_loop handler world (S (S fuel)) url s0 in
     o = invoke_once handler world url s' ∧ not_retry o ∧
     count_calls is_backend_call (final_state o)
     = (count_calls is_backend_call s0 + 2)%nat).
Proof.
  intros Ha Hs Hl Hr Hne s'.
  pose proof (error_login handler world msg s user password Ha Hs Hl Hr Hne)
    as Herr.
  split; [exact Herr|]. split; [reflexivity|]. split; [reflexivity|].
  split; [reflexivity|]. split.
  { intros steps st Hst. by apply run_backend_disallowed. }
  intros fuel url s0 pre post s_call Hsteps Hpre o.
  assert (Ho : o = invoke_once handler world url s').
  { unfold o. change (load_playlist_loop handler world (S (S fuel)) url s0)
      with (catch_retry
              (run_backend handler world
                 (ydl_download world (trace s_call) (ydl_opts s0) url);;
               mret (_skipped_count s0))
              (load_playlist_loop handler world (S fuel) url) s_call).
    rewrite Hsteps. unfold catch_retry, mbind at 1, M_bind at 1.
    rewrite run_backend_app, Hpre. simpl.
    unfold mbind at 1, M_bind at 1. fold s' in Herr. rewrite Herr.
    apply load_playlist_loop_disallowed. reflexivity. }
  destruct (invoke_once_disallowed handler world url s') as [Hnr Hcount];
    [reflexivity|].
  split; [exact Ho|]. rewrite Ho. split; [exact Hnr|].
  rewrite Hcount.
  assert (count_calls is_backend_call s = S (count_calls is_backend_call s0))
    as Hs1.
  { replace s with (final_state (run_backend handler world pre s_call))
      by (by rewrite Hpre).
    rewrite appends_count.
    - unfold count_calls, s_call. destruct s0. simpl.
      rewrite filter_app, length_app. simpl. lia.
    - eapply appends_mono; [|apply run_backend_appends]. by intros []. }
  replace (count_calls is_backend_call s') with (count_calls is_backend_call s).
  - lia.
  - unfold s', count_calls. destruct s. simpl.
    rewrite !filter_app, !length_app. simpl. lia.
Qed.

(** C2 at work: the first invocation of the gated backend meets the line,
    the user logs in, and the backend is invoked a second and last time. *)
Lemma login_retries_once_witness :
  let url := get_url login_handler in
  let s0 := new_slave login_handler in
  let s := emit (EvYdlDownload (ydl_opts s0) url) s0 in
  (∃ s', error login_handler gated_world sign_in_line s
         = Retry sign_in_line s' ∧
         opt_username (ydl_opts s') = Some (py "user")) ∧
  count_calls is_backend_call
    (final_state (load_playlist_loop login_handler gated_world 2 url s0))
  = 2%nat.
Proof.
  intros url s0 s.
  destruct (login_retries_once login_handler gated_world sign_in_line s
              (py "user") (py "secret"))
    as (Herr & Huser & _ & _ & _ & Hrun);
    [reflexivity|reflexivity|reflexivity|reflexivity|left; discriminate|].
  split; [eexists; split; [exact Herr|exact Huser]|].
  destruct (Hrun 0%nat url s0 [] []) as (_ & _ & Hcount);
    [reflexivity|reflexivity|].
  exact Hcount.
Defined.

(** C3, as the specification states it, fails: the user declines during the
    first probe, three lines are counted as skipped, and then the download
    loop switches authentication requests off, so that the same line, met
    while the second item is fetched, is reported as an error and ends the
    process. *)
Lemma declined_line_can_be_fatal :
  match YoutubeDLSlave_init declining_handler stubborn_world 3 with
  | Exit 1 s =>
      _skip_authentication s = true ∧ _skipped_count s = 3 ∧
      count_calls is_prompt s = 1%nat ∧
      last (trace s) = Some (EvOnError sign_in_line)
  | _ => False
  end ∧
  ¬ spec_declined_lines_skipped declining_handler stubborn_world.
Proof.
  split; [vm_compute; repeat split|].
  intros Hspec.
  specialize (Hspec (set_allow false (set_skip true
                       (new_slave declining_handler))) sign_in_line).
  vm_compute in Hspec. specialize (Hspec eq_refl (or_introl eq_refl)).
  discriminate Hspec.
Qed.

(** C3, amended: when a line that asks for a login or for a video password
    arrives while authentication requests are allowed and none has been
    declined, and the answer of the user is empty, the classifier adds one
    to the count of skipped items, records the refusal and returns, with no
    retry; and every later such line that arrives while authentication
    requests are still allowed adds one to the count with no request to the
    user.  The classifier itself never switches them off after a refusal:
    the download loop does. *)
Theorem refusal_skips_while_allowed (handler : Handler) (world : World)
    (msg : pystr) (s : Slave) :
  _allow_authentication_request s = true →
  _skip_authentication s = false →
  authentication_line world msg →
  declines handler world msg s →
  let s' :=
    count_skipped (set_skip true
      (emit (request_for world msg) (emit (EvStderr msg) s))) in
  error handler world msg s = Done () s' ∧
  _skipped_count s' = _skipped_count s + 1 ∧
  _skip_authentication s' = true ∧
  _allow_authentication_request s' = true ∧
  (∀ st msg',
     _allow_authentication_request st = true →
     _skip_authentication st = true →
     authentication_line world msg' →
     error handler world msg' st
     = Done () (count_skipped (emit (EvStderr msg') st))) ∧
  (∀ st msg',
     _skip_authentication st = true →
     let st' := final_state (error handler world msg' st) in
     _skip_authentication st' = true ∧
     _allow_authentication_request st' = _allow_authentication_request st).
Proof.
  intros Ha Hs Hauth Hd s'.
  split; [by apply error_refusal|].
  split; [reflexivity|]. split; [reflexivity|]. split; [exact Ha|].
  split.
  - intros st msg' Hst Hsk Hm. by apply error_after_refusal.
  - intros st msg' Hsk. by apply error_keeps_flags.
Qed.

(** C3, amended, at work: the user declines at the first line, and the
    next line is counted without a word to the user. *)
Lemma refusal_skips_while_allowed_witness :
  let s := new_slave declining_handler in
  ∃ s1 s2,
    error declining_handler stubborn_world sign_in_line s = Done () s1 ∧
    error declining_handler stubborn_world sign_in_line s1 = Done () s2 ∧
    _skipped_count s2 = 2 ∧ count_calls is_prompt s2 = 1%nat.
Proof.
  intros s.
  destruct (refusal_skips_while_allowed declining_handler stubborn_world
              sign_in_line s)
    as (H1 & _ & Hskip & Hallow & Hlater & _);
    [reflexivity|reflexivity|left; reflexivity|reflexivity|].
  eexists _, _. split; [exact H1|].
  split; [apply Hlater; [exact Hallow|exact Hskip|left; reflexivity]|].
  split; reflexivity.
Defined.

(** ** Finished downloads *)

Lemma rfind_from_spec c s i found :
  let r := rfind_from c s i found in
  r = found ∨ (i ≤ r ∧ s !! Z.to_nat (r - i) = Some c).
Proof.
  revert i found. induction s as [|d s IH]; intros i found; simpl.
  - by left.
  - destruct (IH (i + 1) (if (d =? c)%N then i else found)) as [Hr|[Hle Hat]].
    + rewrite Hr. destruct (N.eqb_spec d c) as [->|]; [|by left].
      right. split; [lia|]. by rewrite Z.sub_diag.
    + right. split; [lia|].
      replace (Z.to_nat (rfind_from c s (i + 1)
                 (if (d =? c)%N then i else found) - i))
        with (S (Z.to_nat (rfind_from c s (i + 1)
                 (if (d =? c)%N then i else found) - (i + 1)))) by lia.
      exact Hat.
Qed.

Lemma rfind_spec c s :
  rfind c s = -1 ∨ (0 ≤ rfind c s ∧ s !! Z.to_nat (rfind c s) = Some c).
Proof.
  unfold rfind. destruct (rfind_from_spec c s 0 (-1)) as [H|[H1 H2]].
  - by left.
  - right. split; [done|]. by rewrite Z.sub_0_r in H2.
Qed.

(** An extension that is not empty starts with a dot, and the name is the
    title followed by the extension. *)
Lemma splitext_extension p file_title file_ext :
  splitext p = (file_title, file_ext) → file_ext ≠ [] →
  p = file_title ++ file_ext ∧ ∃ e, file_ext = 46%N :: e.
Proof.
  unfold splitext. intros Hsplit Hext.
  destruct (_ && _) eqn:Hcond; [|by simplify_eq].
  simplify_eq. apply andb_prop in Hcond as [Hlt _].
  apply Z.ltb_lt in Hlt.
  split; [by rewrite take_drop|].
  destruct (rfind_spec 46%N p) as [Hd|[Hd Hat]].
  - destruct (rfind_spec 47%N p) as [Hs|[Hs _]]; lia.
  - exists (drop (S (Z.to_nat (rfind 46%N p))) p).
    by apply drop_S.
Qed.

Lemma startswith_app p q s : startswith (p ++ q) (p ++ s) = startswith q s.
Proof. induction p as [|c p IH]; simpl; [done|]. by rewrite N.eqb_refl. Qed.

Section FinishedDownloads.
Variable world : World.

Lemma extension_suits_true mode ext :
  extension_suits world mode ext ↔
  str_eqb mode (py "audio") && str_eqb (str_lower world ext) (py ".mp3") ||
  negb (str_eqb mode (py "audio")) &&
    negb (str_eqb (str_lower world ext) (py ".mp3")) = true.
Proof.
  unfold extension_suits, str_eqb.
  repeat case_bool_decide; simpl; intuition congruence.
Qed.

(** [glob] yields every file that is the title with an extension. *)
Lemma iglob_title_finished entries output_title name isfile ext :
  (name, isfile) ∈ entries →
  splitext name = (output_title, ext) → ext ≠ [] →
  (name, isfile) ∈ iglob_title entries output_title.
Proof.
  intros Hin Hsplit Hext.
  destruct (splitext_extension _ _ _ Hsplit Hext) as [-> [e ->]].
  unfold iglob_title. apply list_elem_of_filter. split; [|done]. simpl.
  split.
  - change (46%N :: e) with (py "." ++ e).
    rewrite app_assoc. rewrite <- (app_nil_r (output_title ++ py ".")) at 1.
    by rewrite startswith_app.
  - by destruct output_title as [|c t].
Qed.

Lemma iglob_title_subset entries output_title e :
  e ∈ iglob_title entries output_title → e ∈ entries.
Proof. unfold iglob_title. rewrite list_elem_of_filter. tauto. Qed.

(** The loop over what [glob] yields returns the first regular file that
    is the title with a suiting extension, if there is one. *)
Lemma find_in_glob_finished found output_title mode name ext :
  (name, true) ∈ found →
  splitext name = (output_title, ext) →
  extension_suits world mode ext →
  ∃ existing ext',
    find_in_glob world found output_title mode = Some existing ∧
    (existing, true) ∈ found ∧
    splitext existing = (output_title, ext') ∧
    extension_suits world mode ext'.
Proof.
  intros Hin Hsplit Hsuits.
  induction found as [|[filename isfile] found IH]; [by apply elem_of_nil in Hin|].
  simpl. destruct (splitext filename) as [file_title file_ext] eqn:Hf.
  destruct (str_eqb file_title output_title && _ && isfile) eqn:Hcond.
  - apply andb_prop in Hcond as [Hcond ->].
    apply andb_prop in Hcond as [Ht Hs].
    apply bool_decide_eq_true in Ht as ->.
    exists filename, file_ext. split; [done|]. split; [by left|].
    split; [done|]. by apply extension_suits_true.
  - apply elem_of_cons in Hin as [Heq|Hin].
    + simplify_eq. rewrite Hsplit in Hf. simplify_eq.
      apply extension_suits_true in Hsuits. rewrite Hsuits in Hcond.
      unfold str_eqb in Hcond. by rewrite bool_decide_eq_true_2 in Hcond.
    + destruct (IH Hin) as (existing & ext' & Hfind & Hin' & Hrest).
      exists existing, ext'. split; [done|]. split; [by right|done].
Qed.

Lemma find_existing_download_finished entries output_title mode name :
  finished_download world entries output_title mode name →
  ∃ existing,
    _find_existing_download world entries output_title mode = Some existing ∧
    (existing, true) ∈ entries ∧
    ∃ ext', splitext existing = (output_title, ext') ∧
            extension_suits world mode ext'.
Proof.
  intros (Hin & ext & Hsplit & Hext & Hsuits).
  unfold _find_existing_download.
  destruct (find_in_glob_finished (iglob_title entries output_title)
              output_title mode name ext)
    as (existing & ext' & Hfind & Hin' & Hrest); [|done|done|].
  { by eapply iglob_title_finished. }
  exists existing. split; [done|]. split; [by eapply iglob_title_subset|].
  by exists ext'.
Qed.
End FinishedDownloads.

Section DownloadLoop.
Variable handler : Handler.
Variable world : World.

Lemma wait_for_lock_appends fuel output_title :
  appends lock_event (wait_for_lock handler fuel output_title).
Proof.
  induction fuel as [|fuel IH]; simpl.
  - appends_step.
  - repeat appends_step. case_match; repeat appends_step. exact IH.
Qed.
End DownloadLoop.

(** C5, amended: when the title of the item can be shortened and the
    download directory holds a regular file whose name is the shortened,
    sanitized title followed by an extension that is not empty and suits
    the mode, the loop, once it has the lock, reports such a file as finished
    and goes on to the next item; between the start of the item and that
    report it calls nothing but the lock: no backend, no directory is
    made. *)
Theorem existing_download_short_circuits (handler : Handler) (world : World)
    (fuel : nat) (download_dir mode : pystr) (requested : list pystr)
    (i n : Z) (info : InfoDict) (items : list InfoDict)
    (s s_locked : Slave) (output_title name : pystr) :
  _short_filename (sanitize_filename world) (fs_encode world) (title_of info)
                  MAX_OUTPUT_TITLE_LENGTH = Ret output_title →
  wait_for_lock handler fuel output_title
                (emit (EvDownloadStart i n (title_of info)) s)
  = Done () s_locked →
  finished_download world (listdir world (trace s_locked) download_dir)
                    output_title mode name →
  ∃ existing locks,
    let s' := emit (EvDownloadFinished existing) s_locked in
    download_item handler world fuel download_dir mode requested i n info s
    = Done () s' ∧
    trace s' = trace s ++ [EvDownloadStart i n (title_of info)] ++ locks
                       ++ [EvDownloadFinished existing] ∧
    Forall lock_event locks ∧
    finished_download world (listdir world (trace s_locked) download_dir)
                      output_title mode existing ∧
    download_items handler world fuel download_dir mode requested i n
                   (info :: items) s
    = download_items handler world fuel download_dir mode requested (i + 1) n
                     items s'.
Proof.
  intros Hshort Hlock Hfile.
  destruct (find_existing_download_finished world _ _ _ _ Hfile)
    as (existing & Hfind & Hin & ext' & Hsplit & Hsuits).
  destruct (wait_for_lock_appends handler fuel output_title
              (emit (EvDownloadStart i n (title_of info)) s))
    as (locks & Htrace & Hlocks).
  rewrite Hlock in Htrace. simpl in Htrace.
  exists existing, locks. intros s'.
  assert (Hitem : download_item handler world fuel download_dir mode requested
                    i n info s = Done () s').
  { unfold download_item. fold (title_of info). rewrite Hshort.
    unfold mbind at 1, M_bind at 1, call at 1, modify at 1.
    unfold mbind at 1, M_bind at 1. rewrite Hlock.
    unfold mbind at 1, M_bind at 1, get at 1.
    rewrite Hfind. reflexivity. }
  split; [exact Hitem|]. split.
  { unfold s'. simpl. rewrite Htrace. by rewrite <- !app_assoc. }
  split; [exact Hlocks|]. split.
  { split; [exact Hin|]. exists ext'. split; [exact Hsplit|].
    split; [|exact Hsuits].
    intros ->. destruct Hfile as (_ & ext & Hsp & Hne & _).
    (* the file that is found has an extension, for [glob] has yielded it *)
    unfold _find_existing_download in Hfind.
    clear -Hfind Hsplit.
    assert (Hglob : ∀ found, find_in_glob world found output_title mode
                             = Some existing → (existing, true) ∈ found).
    { induction found as [|[f b] found IH]; simpl; [done|].
      destruct (splitext f) as [ft fe].
      destruct (_ && _ && b) eqn:Hc.
      - intros [= ->]. apply andb_prop in Hc as [_ ->]. by left.
      - intros H. right. by apply IH. }
    apply Hglob in Hfind. unfold iglob_title in Hfind.
    apply list_elem_of_filter in Hfind as [[Hstart _] _]. simpl in Hstart.
    unfold splitext in Hsplit.
    destruct (_ && _) eqn:Hc.
    - injection Hsplit as Ht He.
      apply (f_equal length) in He. rewrite length_drop in He. simpl in He.
      destruct (rfind_spec 46%N existing) as [Hd|[Hd Hat]].
      + apply andb_prop in Hc as [Hlt _]. apply Z.ltb_lt in Hlt.
        destruct (rfind_spec 47%N existing) as [Hs|[Hs _]]; lia.
      + apply lookup_lt_Some in Hat. lia.
    - injection Hsplit as Ht. subst output_title.
      clear -Hstart. induction existing as [|c e IH]; simpl in *; [done|].
      rewrite N.eqb_refl in Hstart. simpl in Hstart. auto. }
  simpl. unfold mbind at 1, M_bind at 1. rewrite Hitem. reflexivity.
Qed.

(** C5, amended, at work: [My Video.mp4] is in the download directory, the mode is
    video, and the item titled [My Video] is reported as finished at
    once. *)
Lemma existing_download_short_circuits_witness :
  let h := sample_handler ([], []) [] true [] in
  let s := new_slave h in
  let item := sample_info (py "v1") (py "My Video") in
  ∃ existing,
    download_item h world_with_video 1 (py "/home/user/Videos") (py "video")
                  [] 0 1 item s
    = Done () (emit (EvDownloadFinished existing)
                 (emit (EvDownloadLock (py "My Video"))
                    (emit (EvDownloadStart 0 1 (py "My Video")) s))).
Proof.
  intros h s item.
  destruct (existing_download_short_circuits h world_with_video 1
              (py "/home/user/Videos") (py "video") [] 0 1 item [] s
              (emit (EvDownloadLock (py "My Video"))
                 (emit (EvDownloadStart 0 1 (py "My Video")) s))
              (py "My Video") (py "My Video.mp4"))
    as (existing & locks & Hitem & _).
  - vm_compute. reflexivity.
  - reflexivity.
  - split; [right; left|].
    exists (py ".mp4"). split; [vm_compute; reflexivity|].
    split; [discriminate|].
    split; intros H; vm_compute in H; discriminate H.
  - exists existing. exact Hitem.
Defined.

(** C5, as the specification states it, fails: the download directory
    holds a regular file named [My Video], whose empty extension is of the
    class of the video mode; the pattern [My Video.*] of [glob] does not
    match it, so the item titled [My Video] is downloaded again: the folders
    are made and the backend is called. *)
Lemma bare_title_is_downloaded_again :
  let h := sample_handler ([], []) [] true [] in
  let s := new_slave h in
  let item := sample_info (py "v1") (py "My Video") in
  let run := download_item h world_with_bare_file 1 (py "/home/user/Videos")
                           (py "video") [] 0 1 item s in
  spec_finished_download world_with_bare_file [(py "My Video", true)]
                         (py "My Video") (py "video") (py "My Video") ∧
  _find_existing_download world_with_bare_file [(py "My Video", true)]
                          (py "My Video") (py "video") = None ∧
  count_calls is_backend_call (final_state run) = 1%nat ∧
  count_calls is_makedirs (final_state run) = 2%nat ∧
  ¬ spec_short_circuits h world_with_bare_file 1 (py "/home/user/Videos")
      (py "video") [] 0 1 item s.
Proof.
  intros h s item run.
  assert (Hfile : spec_finished_download world_with_bare_file
                    [(py "My Video", true)] (py "My Video") (py "video")
                    (py "My Video")).
  { split; [by left|]. exists []. split; [vm_compute; reflexivity|].
    split; intros H; vm_compute in H; discriminate H. }
  split; [exact Hfile|]. split; [vm_compute; reflexivity|].
  split; [vm_compute; reflexivity|]. split; [vm_compute; reflexivity|].
  intros Hspec.
  destruct (Hspec (py "My Video") (py "My Video")
              (emit (EvDownloadLock (py "My Video"))
                 (emit (EvDownloadStart 0 1 (py "My Video")) s)))
    as [existing Hrun]; [vm_compute; reflexivity|reflexivity|exact Hfile|].
  vm_compute in Hrun. discriminate Hrun.
Qed.

(** ** The thumbnail pipeline *)

Section Thumbnails.
Variable real_run_ffmpeg :
  gmap pystr pystr → list (pystr * list pystr) → list (pystr * list pystr) →
  option (gmap pystr pystr).
Variable abspath : pystr → pystr.
Variable callback : bool.

Lemma convert_filepath_jpg st p target :
  files_to_move st !! p = Some target →
  _convert_filepath st p (py "jpg") (py "conv")
  = PPOk (conv_jpg p)
         (pp_move (conv_jpg p) (target ++ py ".conv.jpg") (pp_delete p st)).
Proof. intros H. unfold _convert_filepath. simpl. by rewrite H. Qed.

(** As long as no thumbnail has been converted, a thumbnail that fails
    leaves its own path and the path of its JPEG to be deleted, and the
    loop goes on to the next one. *)
Lemma convert_thumbnails_failed failed : ∀ st tail,
  Forall (fails_at real_run_ffmpeg st) failed →
  ∃ st',
    convert_thumbnails real_run_ffmpeg abspath callback st (failed ++ tail) [] = convert_thumbnails real_run_ffmpeg abspath callback st' tail [] ∧
    files_to_delete st'
    = files_to_delete st ++ (usable_paths failed ≫= λ q, [q; conv_jpg q]) ∧
    fs st' = fs st ∧ callbacks st' = callbacks st ∧
    ∀ q, is_Some (files_to_move st !! q) → is_Some (files_to_move st' !! q).
Proof.
  induction failed as [|thumb failed IH]; intros st tail Hfailed.
  - exists st. simpl. by rewrite app_nil_r.
  - apply Forall_cons in Hfailed as [Hthumb Hfailed]. simpl.
    unfold usable_paths. simpl. fold (usable_path thumb).
    destruct (usable_path thumb) as [q|] eqn:Hq.
    + destruct (Hthumb q Hq) as [[target Hreg] Hfail].
      rewrite (convert_filepath_jpg _ _ _ Hreg).
      unfold ffmpeg_thumbnail in Hfail. simpl. rewrite Hfail.
      destruct (IH (pp_delete (conv_jpg q)
                      (pp_move (conv_jpg q) (target ++ py ".conv.jpg")
                         (pp_delete q st))) tail)
        as (st' & Heq & Hdel & Hfs & Hcb & Hmoves).
      { eapply Forall_impl; [exact Hfailed|]. intros t Ht r Hr.
        destruct (Ht r Hr) as [Hreg' Hfail']. split; [|exact Hfail'].
        simpl. destruct (decide (conv_jpg q = r)) as [->|Hne].
        - rewrite lookup_insert_eq. eauto.
        - by rewrite lookup_insert_ne. }
      exists st'. split; [exact Heq|]. split.
      { rewrite Hdel. simpl. by rewrite <- !app_assoc. }
      split; [exact Hfs|]. split; [exact Hcb|].
      intros r Hr. apply Hmoves. simpl.
      destruct (decide (conv_jpg q = r)) as [->|Hne].
      * rewrite lookup_insert_eq. eauto.
      * by rewrite lookup_insert_ne.
    + destruct (IH st tail Hfailed) as (st' & Heq & Hrest).
      exists st'. split; [exact Heq|exact Hrest].
Qed.

(** Thumbnails that fail register nothing but the names of their JPEGs. *)
Lemma convert_thumbnails_failed_unregistered failed : ∀ st tail p,
  Forall (fails_at real_run_ffmpeg st) failed →
  files_to_move st !! p = None →
  p ∉ conv_jpg <$> usable_paths failed →
  ∃ st',
    convert_thumbnails real_run_ffmpeg abspath callback st (failed ++ tail) []
    = convert_thumbnails real_run_ffmpeg abspath callback st' tail [] ∧
    files_to_move st' !! p = None.
Proof.
  induction failed as [|thumb failed IH]; intros st tail p Hfailed Hnone Hnew.
  - by exists st.
  - apply Forall_cons in Hfailed as [Hthumb Hfailed]. simpl.
    unfold usable_paths in Hnew. simpl in Hnew. fold (usable_path thumb) in *.
    destruct (usable_path thumb) as [q|] eqn:Hq.
    + destruct (Hthumb q Hq) as [[target Hreg] Hfail].
      rewrite (convert_filepath_jpg _ _ _ Hreg).
      unfold ffmpeg_thumbnail in Hfail. simpl. rewrite Hfail.
      simpl in Hnew. apply not_elem_of_cons in Hnew as [Hne Hnew].
      apply (IH (pp_delete (conv_jpg q)
                   (pp_move (conv_jpg q) (target ++ py ".conv.jpg")
                      (pp_delete q st))) tail p).
      * eapply Forall_impl; [exact Hfailed|]. intros t Ht r Hr.
        destruct (Ht r Hr) as [Hreg' Hfail']. split; [|exact Hfail'].
        simpl. destruct (decide (conv_jpg q = r)) as [->|Hne'].
        -- rewrite lookup_insert_eq. eauto.
        -- by rewrite lookup_insert_ne.
      * simpl. by rewrite lookup_insert_ne.
      * exact Hnew.
    + by apply IH.
Qed.

(** Once a thumbnail has been converted, every other one is only left to
    be deleted. *)
Lemma convert_thumbnails_rest rest : ∀ st thumb new_thumbnails,
  convert_thumbnails real_run_ffmpeg abspath callback st rest (thumb :: new_thumbnails)
  = PPOk (thumb :: new_thumbnails)
      {| files_to_delete := files_to_delete st ++ usable_paths rest;
         files_to_move := files_to_move st;
         fs := fs st; callbacks := callbacks st |}.
Proof.
  induction rest as [|t rest IH]; intros st thumb new_thumbnails; simpl.
  - unfold usable_paths. simpl. rewrite app_nil_r. by destruct st.
  - unfold usable_paths. simpl. fold (usable_path t).
    destruct (usable_path t) as [q|]; [|apply IH].
    rewrite IH. simpl. by rewrite <- app_assoc.
Qed.
End Thumbnails.

(** C7, as the specification states it, fails: the conversion of the best
    thumbnail fails, and the pipeline converts the next best one. *)
Lemma thumbnail_falls_back :
  (∃ st, ThumbnailConverterPP_run picky_ffmpeg (λ p, p) false
           (Some two_thumbnails) two_moves two_files
         = PPOk [converted (thumb_at (py "a.webp")) (py "a.webp")] st) ∧
  ¬ spec_no_fallback picky_ffmpeg (λ p, p) false
      two_thumbnails two_moves two_files.
Proof.
  split; [eexists; vm_compute; reflexivity|].
  intros Hspec.
  destruct (Hspec (py "b.webp")) as [st Hst]; [reflexivity|reflexivity|].
  vm_compute in Hst. discriminate Hst.
Qed.

(** C7, amended: the pipeline goes through the thumbnails that have a
    usable path from the best to the worst.  As long as no conversion has
    succeeded, a thumbnail that is registered in [info['__files_to_move']]
    and on which FFmpeg fails leaves its file and the name meant for its
    JPEG to be deleted, and the next one is tried.  The first registered
    thumbnail that converts is the only one returned, under the name of its
    JPEG, and the callback, if there is one, is called with the absolute
    path of the JPEG; its file and the file of every thumbnail behind it,
    which is not tried, are left to be deleted.  No thumbnail is returned
    when every conversion fails.  A thumbnail with a usable path that is
    not registered, neither from the start nor as the JPEG of a thumbnail
    that has failed, and that is reached before a conversion has
    succeeded, makes [run] raise [KeyError]. *)
Theorem thumbnail_first_success
    (real_run_ffmpeg : gmap pystr pystr → list (pystr * list pystr) →
                       list (pystr * list pystr) → option (gmap pystr pystr))
    (abspath : pystr → pystr) (callback : bool)
    (thumbnails : list Thumbnail) (moves fs0 : gmap pystr pystr)
    (failed : list Thumbnail) :
  let run := ThumbnailConverterPP_run real_run_ffmpeg abspath callback
               (Some thumbnails) moves fs0 in
  let fails thumb :=
    ∀ q, usable_path thumb = Some q →
         is_Some (moves !! q) ∧ ffmpeg_thumbnail real_run_ffmpeg fs0 q = None
  in
  Forall fails failed →
  (∀ good p fs' rest,
     reverse thumbnails = failed ++ good :: rest →
     usable_path good = Some p → is_Some (moves !! p) →
     ffmpeg_thumbnail real_run_ffmpeg fs0 p = Some fs' →
     ∃ st,
       run = PPOk [converted good p] st ∧
       files_to_delete st
       = (usable_paths failed ≫= λ q, [q; conv_jpg q])
         ++ [p] ++ usable_paths rest ∧
       callbacks st = (if callback then [abspath (conv_jpg p)] else []) ∧
       fs st = fs') ∧
  (reverse thumbnails = failed →
   ∃ st,
     run = PPOk [] st ∧
     files_to_delete st = (usable_paths failed ≫= λ q, [q; conv_jpg q]) ∧
     callbacks st = []) ∧
  (∀ bad p rest,
     reverse thumbnails = failed ++ bad :: rest →
     usable_path bad = Some p →
     moves !! p = None → p ∉ conv_jpg <$> usable_paths failed →
     run = PPRaise KeyError).
Proof.
  intros run fails Hfailed.
  set (st0 := {| files_to_delete := []; files_to_move := moves;
                 fs := fs0; callbacks := [] |}).
  assert (Hfailed' : Forall (fails_at real_run_ffmpeg st0) failed).
  { eapply Forall_impl; [exact Hfailed|]. intros t Ht q Hq. exact (Ht q Hq). }
  split; [|split].
  - intros good p fs' rest Hrev Hgood [target Hreg] Hconv.
    destruct (convert_thumbnails_failed real_run_ffmpeg abspath callback
                failed st0 (good :: rest) Hfailed')
      as (st1 & Heq & Hdel & Hfs & Hcb & Hmoves).
    destruct (Hmoves p) as [target1 Hreg1]; [by exists target|].
    unfold run, ThumbnailConverterPP_run. simpl. fold st0.
    rewrite Hrev, Heq. simpl. fold (usable_path good). rewrite Hgood.
    rewrite (convert_filepath_jpg _ _ _ Hreg1). simpl.
    unfold ffmpeg_thumbnail in Hconv. rewrite Hfs. simpl. rewrite Hconv.
    rewrite convert_thumbnails_rest. eexists. split; [reflexivity|].
    simpl. split; [|split].
    + destruct callback; simpl; rewrite Hdel; simpl;
        by rewrite <- !app_assoc.
    + destruct callback; simpl; by rewrite Hcb.
    + by destruct callback.
  - intros Hrev.
    destruct (convert_thumbnails_failed real_run_ffmpeg abspath callback
                failed st0 [] Hfailed')
      as (st1 & Heq & Hdel & Hfs & Hcb & Hmoves).
    exists st1. unfold run, ThumbnailConverterPP_run. simpl. fold st0.
    rewrite Hrev. rewrite <- (app_nil_r failed) at 1. rewrite Heq.
    split; [reflexivity|]. split; [by rewrite Hdel|by rewrite Hcb].
  - intros bad p rest Hrev Hbad Hnone Hnew.
    destruct (convert_thumbnails_failed_unregistered real_run_ffmpeg abspath
                callback failed st0 (bad :: rest) p Hfailed' Hnone Hnew)
      as (st1 & Heq & Hnone1).
    unfold run, ThumbnailConverterPP_run. simpl. fold st0.
    rewrite Hrev, Heq. simpl. fold (usable_path bad). rewrite Hbad.
    unfold _convert_filepath. simpl. by rewrite Hnone1.
Qed.

(** C7, amended, at work: [b.webp] fails, [a.webp] is converted; and with
    [c.webp], which is not registered, in the place of [a.webp], the
    pipeline raises [KeyError] once [b.webp] has failed. *)
Lemma thumbnail_first_success_witness :
  (∃ st, ThumbnailConverterPP_run picky_ffmpeg (λ p, p) true
           (Some two_thumbnails) two_moves two_files
         = PPOk [converted (thumb_at (py "a.webp")) (py "a.webp")] st ∧
         files_to_delete st
         = [py "b.webp"; py "b.webp.conv.jpg"; py "a.webp"] ∧
         callbacks st = [py "a.webp.conv.jpg"]) ∧
  ThumbnailConverterPP_run picky_ffmpeg (λ p, p) true
    (Some [thumb_at (py "c.webp"); thumb_at (py "b.webp")])
    two_moves two_files
  = PPRaise KeyError.
Proof.
  split.
  - destruct (thumbnail_first_success picky_ffmpeg (λ p, p) true
                two_thumbnails two_moves two_files [thumb_at (py "b.webp")])
      as [Hgood _].
    + constructor; [|constructor].
      intros q [= <-]. split; [by eexists|reflexivity].
    + destruct (Hgood (thumb_at (py "a.webp")) (py "a.webp")
                  (<[py "a.webp.conv.jpg" := py "JPEG"]> two_files) [])
        as (st & Hrun & Hdel & Hcb & _);
        [reflexivity|reflexivity|by eexists|reflexivity|].
      exists st. split; [exact Hrun|]. split; [exact Hdel|exact Hcb].
  - destruct (thumbnail_first_success picky_ffmpeg (λ p, p) true
                [thumb_at (py "c.webp"); thumb_at (py "b.webp")]
                two_moves two_files [thumb_at (py "b.webp")])
      as (_ & _ & Hbad).
    + constructor; [|constructor].
      intros q [= <-]. split; [by eexists|reflexivity].
    + apply (Hbad (thumb_at (py "c.webp")) (py "c.webp") []);
        [reflexivity|reflexivity|reflexivity|].
      intros H. apply list_elem_of_singleton in H. discriminate H.
Defined.

(** ** Automatic captions *)

Lemma dict_has_elem {V} (k : pystr) (d : list (pystr * V)) :
  dict_has k d = true ↔ k ∈ d.*1.
Proof.
  unfold dict_has. induction d as [|[k' v] d IH]; simpl.
  - split; [done|]. intros H. by apply elem_of_nil in H.
  - rewrite orb_true_iff, IH, elem_of_cons. unfold str_eqb.
    rewrite bool_decide_eq_true. intuition congruence.
Qed.

Lemma dict_has_cons {V} (k k' : pystr) (v : V) (d : list (pystr * V)) :
  dict_has k ((k', v) :: d) = true ↔ k = k' ∨ dict_has k d = true.
Proof.
  unfold dict_has. simpl. unfold str_eqb.
  rewrite orb_true_iff, bool_decide_eq_true. intuition congruence.
Qed.

Lemma dict_has_dict_set {V} (k k0 : pystr) (v : V) (d : list (pystr * V)) :
  dict_has k (dict_set k0 v d) = true ↔ k = k0 ∨ dict_has k d = true.
Proof.
  induction d as [|[k' v'] d IH]; cbn [dict_set].
  - rewrite dict_has_cons. unfold dict_has. simpl. intuition congruence.
  - unfold str_eqb at 1. case_bool_decide as Hk.
    + subst k'. rewrite !dict_has_cons. tauto.
    + rewrite !dict_has_cons, IH. tauto.
Qed.

Section Captions.
Variable requested : list pystr.
Variable automatic_captions : Captions.

#[local] Abbreviation select := (select_captions requested automatic_captions).
#[local] Abbreviation matching lang skip :=
  (match_requested lang skip automatic_captions requested).

(** The loop breaks exactly when some requested language is ['all'], is
    the language itself, or is a language of which this one is a
    translation, which has no automatic captions of its own and is not in
    [skip_captions]. *)
Lemma match_requested_breaks lang skip :
  matching lang skip ≠ None ↔
  ∃ r, r ∈ requested ∧
       (r = py "all" ∨ r = lang ∨
        (startswith (r ++ py "-") lang = true ∧
         dict_has r automatic_captions = false ∧ r ∉ skip)).
Proof.
  induction requested as [|r0 rs IH]; simpl.
  - split; [done|]. intros (r & Hr & _). by apply elem_of_nil in Hr.
  - unfold str_eqb at 1 2.
    destruct (bool_decide (r0 = py "all") || bool_decide (r0 = lang)) eqn:H1.
    + split; [|done]. intros _. exists r0. split; [by left|].
      apply orb_true_iff in H1 as [H|H]; apply bool_decide_eq_true in H; auto.
    + apply orb_false_iff in H1 as [Ha Hl].
      apply bool_decide_eq_false in Ha, Hl.
      destruct (startswith (r0 ++ py "-") lang &&
                negb (bool_decide (r0 ∈ skip)) &&
                negb (dict_has r0 automatic_captions)) eqn:H2.
      * split; [|done]. intros _. exists r0. split; [by left|].
        right. right.
        apply andb_true_iff in H2 as [H2 H3].
        apply andb_true_iff in H2 as [H2 H4].
        apply negb_true_iff in H3, H4. apply bool_decide_eq_false in H4.
        done.
      * rewrite IH. split.
        -- intros (r & Hr & Hrule). exists r. split; [by right|done].
        -- intros (r & [->|Hr]%elem_of_cons & Hrule); [|by exists r].
           destruct Hrule as [?|[?|(H3 & H4 & H5)]]; [done|done|].
           rewrite H3, H4 in H2. simpl in H2.
           by rewrite bool_decide_eq_false_2 in H2.
Qed.

(** A break at a translation names a requested language that has no
    automatic captions and is not yet in [skip_captions]. *)
Lemma match_requested_translation lang skip r :
  matching lang skip = Some (Some r) →
  r ∈ requested ∧ (r ∉ skip) ∧ dict_has r automatic_captions = false ∧
  startswith (r ++ py "-") lang = true.
Proof.
  induction requested as [|r0 rs IH]; simpl; [done|].
  destruct (_ || _); [done|].
  destruct (startswith (r0 ++ py "-") lang &&
            negb (bool_decide (r0 ∈ skip)) &&
            negb (dict_has r0 automatic_captions)) eqn:H2.
  - intros [= <-].
    apply andb_true_iff in H2 as [H2 H3].
    apply andb_true_iff in H2 as [H2 H4].
    apply negb_true_iff in H3, H4. apply bool_decide_eq_false in H4.
    split; [by left|done].
  - intros H. destruct (IH H) as (Hr & Hrest). split; [by right|done].
Qed.

Lemma select_skip_indep todo : ∀ skip new new',
  (select todo skip new).2 = (select todo skip new').2.
Proof.
  induction todo as [|[lang subs] todo IH]; intros skip new new'; simpl.
  - done.
  - case_bool_decide; [apply IH|].
    destruct (matching lang skip); apply IH.
Qed.

Lemma select_app pre : ∀ post skip new,
  select (pre ++ post) skip new
  = select post (select pre skip new).2 (select pre skip new).1.
Proof.
  induction pre as [|[lang subs] pre IH]; intros post skip new; simpl.
  - done.
  - case_bool_decide; [apply IH|].
    destruct (matching lang skip); apply IH.
Qed.

Lemma select_skip_grows todo : ∀ skip new r,
  r ∈ skip → r ∈ (select todo skip new).2.
Proof.
  induction todo as [|[lang subs] todo IH]; intros skip new r Hr; simpl.
  - done.
  - case_bool_decide; [by apply IH|].
    destruct (matching lang skip) as [[r'|]|]; apply IH; simpl; set_solver.
Qed.

Lemma select_skip_added todo : ∀ skip new r,
  r ∈ (select todo skip new).2 →
  r ∈ skip ∨ dict_has r automatic_captions = false.
Proof.
  induction todo as [|[lang subs] todo IH]; intros skip new r; simpl.
  - by left.
  - case_bool_decide; [apply IH|].
    destruct (matching lang skip) as [[r'|]|] eqn:Hm; [|apply IH..].
    intros Hr. apply IH in Hr as [Hr|Hr]; [|by right]. simpl in Hr.
    apply elem_of_union in Hr as [Hr|Hr]; [|by left].
    apply elem_of_singleton in Hr as ->. right.
    by apply match_requested_translation in Hm as (_ & _ & ? & _).
Qed.

Lemma select_keeps todo : ∀ skip new k,
  dict_has k new = true → dict_has k (select todo skip new).1 = true.
Proof.
  induction todo as [|[lang subs] todo IH]; intros skip new k Hk; simpl.
  - done.
  - case_bool_decide; [by apply IH|].
    destruct (matching lang skip); apply IH; [|done].
    apply dict_has_dict_set. by right.
Qed.

Lemma select_keys todo : ∀ skip new k,
  dict_has k (select todo skip new).1 = true →
  dict_has k new = true ∨ k ∈ todo.*1.
Proof.
  induction todo as [|[lang subs] todo IH]; intros skip new k; simpl.
  - by left.
  - assert (Hnext : ∀ skip' new',
              dict_has k (select todo skip' new').1 = true →
              (dict_has k new' = true → dict_has k new = true ∨ k = lang) →
              dict_has k new = true ∨ k ∈ lang :: todo.*1).
    { intros skip' new' H Hnew. apply IH in H as [H|H].
      - destruct (Hnew H) as [Hn| ->]; [by left|]. right. by left.
      - right. by right. }
    case_bool_decide as Hd; [intros Hsel; eapply Hnext; eauto|].
    destruct (matching lang skip); intros Hsel; eapply Hnext; eauto.
    intros Hs. apply dict_has_dict_set in Hs as [->|Hs]; auto.
Qed.
Variable skip0 : gset pystr.

#[local] Abbreviation before := (skip_before requested automatic_captions skip0).

Lemma skip_before_snoc pre lang subs :
  before (pre ++ [(lang, subs)])
  = if bool_decide (lang ∈ before pre) then before pre
    else match matching lang (before pre) with
         | Some r => add_skip r (before pre)
         | None => before pre
         end.
Proof.
  unfold skip_before. rewrite select_app. simpl.
  case_bool_decide; [done|].
  by destruct (match_requested _ _ _ _).
Qed.

(** A requested language is in [skip_captions] when it has subtitles of
    its own or when an earlier language has been kept as a translation of
    it. *)
Lemma skip_before_spec pre r :
  r ∈ before pre ↔
  r ∈ skip0 ∨
  ∃ pre1 l1 s1 pre2,
    pre = pre1 ++ (l1, s1) :: pre2 ∧
    kept_as_translation requested automatic_captions skip0 pre1 l1 r.
Proof.
  induction pre as [|[lang subs] pre IH] using rev_ind.
  - unfold skip_before. simpl. split; [by left|].
    intros [H|(pre1 & l1 & s1 & pre2 & Heq & _)]; [done|].
    by destruct pre1.
  - rewrite skip_before_snoc. split.
    + intros Hr.
      assert (Hold : r ∈ before pre →
                r ∈ skip0 ∨
                ∃ pre1 l1 s1 pre2,
                  pre ++ [(lang, subs)] = pre1 ++ (l1, s1) :: pre2 ∧
                  kept_as_translation requested automatic_captions skip0
                                      pre1 l1 r).
      { intros H. apply IH in H as [H|(pre1 & l1 & s1 & pre2 & -> & Hk)];
          [by left|].
        right. exists pre1, l1, s1, (pre2 ++ [(lang, subs)]).
        split; [by rewrite <- app_assoc|done]. }
      case_bool_decide as Hin; [by apply Hold|].
      destruct (matching lang (before pre)) as [[r'|]|] eqn:Hm;
        [|by apply Hold..].
      simpl in Hr. apply elem_of_union in Hr as [Hr|Hr]; [|by apply Hold].
      apply elem_of_singleton in Hr as ->.
      right. exists pre, lang, subs, []. split; [done|]. by split.
    + assert (Hgrow : r ∈ before pre →
                r ∈ (if bool_decide (lang ∈ before pre) then before pre
                     else match matching lang (before pre) with
                          | Some r0 => add_skip r0 (before pre)
                          | None => before pre
                          end)).
      { intros H. case_bool_decide; [done|].
        destruct (matching lang (before pre)) as [[r'|]|]; simpl;
          [set_solver|done|done]. }
      intros [H|(pre1 & l1 & s1 & pre2 & Heq & Hk)].
      * apply Hgrow, IH. by left.
      * destruct pre2 as [|x pre2 _] using rev_ind.
        -- apply app_inj_tail in Heq as [-> [= -> ->]].
           destruct Hk as [Hnot Hm]. rewrite bool_decide_eq_false_2 by done.
           rewrite Hm. simpl. set_solver.
        -- rewrite app_comm_cons, app_assoc in Heq.
           apply app_inj_tail in Heq as [-> _].
           apply Hgrow, IH. right. by exists pre1, l1, s1, pre2.
Qed.

(** The inner loop breaks at the first requested tag that keeps the track,
    and adds that tag to [skip_captions] unless it is ['all'] or the
    language of the track. *)
Lemma match_requested_deciding lang skip :
  matching lang skip
  = match deciding_tag requested automatic_captions skip lang with
    | Some r =>
        Some (if str_eqb r (py "all") || str_eqb r lang then None else Some r)
    | None => None
    end.
Proof.
  unfold deciding_tag. induction requested as [|r0 rs IH]; simpl; [done|].
  unfold keeps_track at 1.
  destruct (str_eqb r0 (py "all") || str_eqb r0 lang) eqn:H1.
  { rewrite orb_true_l. by rewrite H1. }
  rewrite orb_false_l.
  destruct (startswith (r0 ++ py "-") lang), (bool_decide (r0 ∈ skip)),
    (dict_has r0 automatic_captions); simpl;
    first [exact IH|by rewrite H1].
Qed.

(** [skip_captions] holds the tags that are marked satisfied. *)
Lemma skip_before_satisfied pre :
  before pre = satisfied_after requested automatic_captions skip0 pre.
Proof.
  induction pre as [|[lang subs] pre IH] using rev_ind; [done|].
  rewrite skip_before_snoc. unfold satisfied_after.
  rewrite fmap_app, foldl_app. simpl.
  fold (satisfied_after requested automatic_captions skip0 pre).
  rewrite <- IH. unfold mark_satisfied.
  rewrite match_requested_deciding.
  destruct (deciding_tag requested automatic_captions (before pre) lang)
    as [r|]; [|by case_bool_decide].
  case_bool_decide; [done|]. simpl.
  by destruct (str_eqb r (py "all") || str_eqb r lang).
Qed.

Lemma kept_as_translation_kept_for pre lang r :
  kept_as_translation requested automatic_captions skip0 pre lang r ↔
  kept_for requested automatic_captions
           (satisfied_after requested automatic_captions skip0 pre) lang r.
Proof.
  unfold kept_as_translation, kept_for.
  rewrite match_requested_deciding, skip_before_satisfied.
  destruct (deciding_tag _ _ _ _) as [r'|]; [|naive_solver].
  unfold str_eqb.
  repeat case_bool_decide; simpl; naive_solver.
Qed.
End Captions.

(** C9, as the specification states it, fails: with ['en'] and ['all']
    requested, both translations of ['en'] are kept. *)
Lemma two_translations_kept :
  (selected [py "en"; py "all"] two_english ∅).*1 = [py "en-US"; py "en-GB"] ∧
  ¬ spec_one_translation [py "en"; py "all"] two_english ∅.
Proof.
  split; [vm_compute; reflexivity|].
  intros Hspec.
  specialize (Hspec (py "en") (py "en-US") (py "en-GB")).
  assert (py "en-US" = py "en-GB") as Heq; [|discriminate Heq].
  apply Hspec; [by left|reflexivity..].
Qed.

(** What the loop over the automatic captions does at the track [lang],
    in terms of [skip_captions] and of the way the inner loop breaks. *)
Lemma captions_kept_by_skip (requested : list pystr)
    (automatic_captions : Captions)
    (skip0 : gset pystr) (pre : Captions) (lang : pystr)
    (subs : list pystr) (post : Captions) :
  automatic_captions = pre ++ (lang, subs) :: post →
  lang ∉ pre.*1 → lang ∉ post.*1 →
  let before := skip_before requested automatic_captions skip0 in
  (dict_has lang (selected requested automatic_captions skip0) = true ↔
   (lang ∉ skip0) ∧
   ∃ r, r ∈ requested ∧
        (r = py "all" ∨ r = lang ∨
         (startswith (r ++ py "-") lang = true ∧
          dict_has r automatic_captions = false ∧ r ∉ before pre))) ∧
  (∀ r mid l2 s2 post2,
     kept_as_translation requested automatic_captions skip0 pre lang r →
     post = mid ++ (l2, s2) :: post2 →
     ¬ kept_as_translation requested automatic_captions skip0
         (pre ++ (lang, subs) :: mid) l2 r).
Proof.
  intros Hauto Hpre Hpost before.
  assert (Hlang : dict_has lang automatic_captions = true).
  { apply dict_has_elem. rewrite Hauto, fmap_app, elem_of_app. right. by left. }
  set (new1 := (select_captions requested automatic_captions pre skip0 []).1).
  assert (Hnew1 : dict_has lang new1 = false).
  { destruct (dict_has lang new1) eqn:E; [|done].
    apply select_keys in E as [E|E]; [done|contradiction]. }
  assert (Hnone : ∀ skip,
            dict_has lang (select_captions requested automatic_captions post
                             skip new1).1 = false).
  { intros skip.
    destruct (dict_has lang (select_captions _ _ post skip new1).1) eqn:E;
      [|done].
    apply select_keys in E as [E|E]; [congruence|contradiction]. }
  split.
  - unfold selected. rewrite Hauto at 2. rewrite select_app.
    fold new1. change (select_captions requested automatic_captions pre skip0
                         []).2 with (before pre).
    cbn [select_captions].
    case_bool_decide as Hin.
    + rewrite Hnone. split; [done|]. intros [Hout _].
      apply select_skip_added in Hin as [Hin|Hin]; [done|congruence].
    + assert (Hout : lang ∉ skip0).
      { intros H. apply Hin. by apply select_skip_grows. }
      destruct (match_requested lang (before pre) automatic_captions requested)
        as [r'|] eqn:Hm.
      * split.
        -- intros _. split; [done|].
           apply match_requested_breaks. by rewrite Hm.
        -- intros _. apply select_keeps, dict_has_dict_set. by left.
      * rewrite Hnone. split; [done|]. intros [_ Hex].
        apply match_requested_breaks in Hex. by rewrite Hm in Hex.
  - intros r mid l2 s2 post2 [Hnot Hm] Hsplit [_ Hm2].
    apply match_requested_translation in Hm2 as (_ & Hr2 & _).
    apply Hr2. unfold skip_before.
    rewrite select_app.
    change (select_captions requested automatic_captions pre skip0 []).2
      with (skip_before requested automatic_captions skip0 pre).
    cbn [select_captions]. rewrite bool_decide_eq_false_2 by done.
    rewrite Hm. apply select_skip_grows. simpl. set_solver.
Qed.

(** C9, amended: a language of the automatic captions is kept exactly when
    it has no subtitles of its own and some requested tag is ['all'], is
    the language itself, or is a tag [r] of which this one is a translated
    variant ([r] followed by a hyphen starts it), where [r] has no
    automatic captions and is not marked satisfied at that moment.  A tag
    [r] is marked satisfied exactly when it has subtitles of its own or an
    earlier track has been kept through the rule for translated variants
    for [r]: [r] is the first requested tag, in the order in which the
    requested tags are gone through, that keeps that track, and [r] is
    neither ['all'] nor the language of that track.  Hence no two tracks
    are kept through the rule for translated variants for the same
    requested tag. *)
Theorem captions_kept (requested : list pystr) (automatic_captions : Captions)
    (skip0 : gset pystr) (pre : Captions) (lang : pystr)
    (subs : list pystr) (post : Captions) :
  automatic_captions = pre ++ (lang, subs) :: post →
  lang ∉ pre.*1 → lang ∉ post.*1 →
  let satisfied := satisfied_after requested automatic_captions skip0 in
  let translated pre lang r :=
    kept_for requested automatic_captions (satisfied pre) lang r in
  (dict_has lang (selected requested automatic_captions skip0) = true ↔
   (lang ∉ skip0) ∧
   ∃ r, r ∈ requested ∧
        (r = py "all" ∨ r = lang ∨
         (startswith (r ++ py "-") lang = true ∧
          dict_has r automatic_captions = false ∧ r ∉ satisfied pre))) ∧
  (∀ r, r ∈ satisfied pre ↔
        r ∈ skip0 ∨
        ∃ pre1 l1 s1 pre2,
          pre = pre1 ++ (l1, s1) :: pre2 ∧ translated pre1 l1 r) ∧
  (∀ r mid l2 s2 post2,
     translated pre lang r →
     post = mid ++ (l2, s2) :: post2 →
     ¬ translated (pre ++ (lang, subs) :: mid) l2 r).
Proof.
  intros Hauto Hpre Hpost satisfied translated.
  destruct (captions_kept_by_skip requested automatic_captions skip0 pre lang
              subs post Hauto Hpre Hpost) as [Hkept Hone].
  split; [|split].
  - unfold satisfied. rewrite <- skip_before_satisfied. exact Hkept.
  - intros r. unfold satisfied at 1. rewrite <- skip_before_satisfied.
    rewrite skip_before_spec.
    apply or_iff_compat_l.
    split; intros (pre1 & l1 & s1 & pre2 & Heq & Hk);
      exists pre1, l1, s1, pre2; (split; [exact Heq|]);
      by apply kept_as_translation_kept_for.
  - intros r mid l2 s2 post2 Hk Hsplit Hk2.
    apply kept_as_translation_kept_for in Hk, Hk2.
    exact (Hone r mid l2 s2 post2 Hk Hsplit Hk2).
Qed.

(** C9, amended, at work: with ['en'] alone requested, ['en-US'] is kept
    through the rule for translated variants, which marks ['en'] as
    satisfied, and ['en-GB'], which comes later, is dropped. *)
Lemma captions_kept_witness :
  dict_has (py "en-US") (selected [py "en"] two_english ∅) = true ∧
  dict_has (py "en-GB") (selected [py "en"] two_english ∅) = false ∧
  kept_for [py "en"] two_english ∅ (py "en-US") (py "en") ∧
  py "en" ∈ satisfied_after [py "en"] two_english ∅ [(py "en-US", [])] ∧
  selected [py "en"] two_english ∅ = [(py "en-US", [])].
Proof.
  assert (Hfirst : kept_for [py "en"] two_english ∅ (py "en-US") (py "en")).
  { split; [apply not_elem_of_empty|]. split; [reflexivity|].
    split; discriminate. }
  destruct (captions_kept [py "en"] two_english ∅ []
              (py "en-US") [] [(py "en-GB", [])])
    as (Hkept & _ & _).
  { reflexivity. }
  { apply not_elem_of_nil. }
  { intros [H|H]%elem_of_cons; [discriminate H|by apply elem_of_nil in H]. }
  destruct (captions_kept [py "en"] two_english ∅ [(py "en-US", [])]
              (py "en-GB") [] [])
    as (Hdropped & Hmarked & _).
  { reflexivity. }
  { intros [H|H]%elem_of_cons; [discriminate H|by apply elem_of_nil in H]. }
  { apply not_elem_of_nil. }
  assert (Hsat : py "en" ∈ satisfied_after [py "en"] two_english ∅
                               [(py "en-US", [])]).
  { apply Hmarked. right. exists [], (py "en-US"), [], []. by split. }
  split; [|split; [|split; [exact Hfirst|split; [exact Hsat|]]]].
  - apply Hkept. split; [apply not_elem_of_empty|].
    exists (py "en"). split; [by left|]. right. right.
    split; [reflexivity|]. split; [reflexivity|]. apply not_elem_of_empty.
  - apply not_true_is_false. intros E.
    apply Hdropped in E as [_ (r & Hr & Hrule)].
    apply list_elem_of_singleton in Hr as ->.
    destruct Hrule as [H|[H|(_ & _ & H)]]; [discriminate H..|].
    contradiction.
  - vm_compute. reflexivity.
Defined.

(** ** The WEBVTT repair *)

(** C8, as the specification states it, fails: on a cue with two empty
    lines behind its timestamp, each run of the repair removes one. *)
Lemma webvtt_repair_not_idempotent :
  fix_webvtt doubly_blank_cue
  = text ["WEBVTT"; ""; "00:01.000 --> 00:02.000"; ""; "text"]%string ∧
  fix_webvtt (fix_webvtt doubly_blank_cue)
  = text ["WEBVTT"; ""; "00:01.000 --> 00:02.000"; "text"]%string ∧
  fix_webvtt (fix_webvtt doubly_blank_cue) ≠ fix_webvtt doubly_blank_cue.
Proof.
  split; [vm_compute; reflexivity|]. split; [vm_compute; reflexivity|].
  vm_compute. discriminate.
Qed.

Lemma startswith_spec p s : startswith p s = true ↔ ∃ r, s = p ++ r.
Proof.
  revert s. induction p as [|a p IH]; intros s; simpl.
  - split; [by exists s|done].
  - destruct s as [|b s]; [split; [done|by intros [r Hr]]|].
    rewrite andb_true_iff, N.eqb_eq, IH. split.
    + intros [-> [r ->]]. by exists r.
    + intros [r [= -> ->]]. split; [done|by exists r].
Qed.

Lemma ts_char_not_newline c : is_ts_char c = true → c ≠ NL.
Proof. intros H ->. discriminate H. Qed.

Lemma span_ts_spec s a r :
  span_ts s = (a, r) →
  s = a ++ r ∧ Forall (λ c, is_ts_char c = true) a ∧
  (∀ c r', r = c :: r' → is_ts_char c = false).
Proof.
  revert a r. induction s as [|c s IH]; intros a r; simpl.
  - intros [= <- <-]. split; [done|]. split; [constructor|done].
  - destruct (is_ts_char c) eqn:Hc.
    + destruct (span_ts s) as [a' r'] eqn:Hs. intros [= <- <-].
      destruct (IH a' r' eq_refl) as (-> & Ha & Hr).
      split; [done|]. split; [by constructor|done].
    + intros [= <- <-]. split; [done|]. split; [constructor|].
      by intros c' r' [= <- <-].
Qed.

Lemma span_ts_app a r :
  Forall (λ c, is_ts_char c = true) a →
  (∀ c r', r = c :: r' → is_ts_char c = false) →
  span_ts (a ++ r) = (a, r).
Proof.
  intros Ha Hr. induction Ha as [|c a Hc _ IH]; simpl.
  - destruct r as [|c r']; [done|]. simpl. by rewrite (Hr c r' eq_refl).
  - by rewrite Hc, IH.
Qed.

Lemma app_three {A} (a x b r : list A) :
  a ++ x ++ b ++ r = (a ++ x ++ b) ++ r.
Proof. by rewrite <- !app_assoc. Qed.

(** Group 1 matches exactly the timestamp line of a cue and its newline. *)
Lemma match_timestamp_spec s g1 r :
  match_timestamp s = Some (g1, r) ↔
  ∃ y, cue_line y ∧ g1 = y ++ [NL] ∧ s = g1 ++ r.
Proof.
  unfold match_timestamp. split.
  - destruct (span_ts s) as [a r1] eqn:Ha.
    apply span_ts_spec in Ha as (-> & Ha & _).
    destruct a as [|c a]; [done|].
    destruct (startswith (py " --> ") r1) eqn:Harrow; [|done].
    assert (r1 = py " --> " ++ drop 5 r1) as Hr1.
    { apply startswith_spec in Harrow as [r' ->]. reflexivity. }
    destruct (span_ts (drop 5 r1)) as [b r2] eqn:Hb.
    apply span_ts_spec in Hb as (Hdrop & Hb & _).
    destruct b as [|d b]; [done|]. destruct r2 as [|e r3]; [done|].
    destruct (N.eqb_spec e NL) as [->|]; [|done].
    intros Heq. apply (inj Some), pair_equal_spec in Heq as [<- <-].
    exists ((c :: a) ++ py " --> " ++ d :: b).
    split; [|split].
    + exists (c :: a), (d :: b). done.
    + apply (app_three (c :: a)).
    + rewrite Hr1, Hdrop. by rewrite <- !app_assoc.
  - intros (y & (a & b & Hane & Hbne & Ha & Hb & ->) & -> & ->).
    replace (((a ++ py " --> " ++ b) ++ [NL]) ++ r)
      with (a ++ py " --> " ++ b ++ NL :: r)
      by (by rewrite <- !app_assoc).
    rewrite (span_ts_app a) by (done || by intros c r' [= <- _]).
    destruct a as [|c a]; [done|].
    change (startswith (py " --> ") (py " --> " ++ b ++ NL :: r)) with true.
    change (drop 5 (py " --> " ++ b ++ NL :: r)) with (b ++ NL :: r).
    rewrite (span_ts_app b) by (done || by intros c' r' [= <- _]).
    destruct b as [|d b]; [done|].
    rewrite N.eqb_refl. by rewrite <- !app_assoc.
Qed.

Lemma cue_line_no_newline y :
  cue_line y → y ≠ [] ∧ Forall (λ c, c ≠ NL) y.
Proof.
  intros (a & b & Hane & _ & Ha & Hb & ->). split.
  - by destruct a.
  - rewrite !Forall_app. split; [|split].
    + eapply Forall_impl; [exact Ha|]. apply ts_char_not_newline.
    + repeat constructor; discriminate.
    + eapply Forall_impl; [exact Hb|]. apply ts_char_not_newline.
Qed.

(** The pattern matches exactly where a timestamp line is followed by an
    empty line; the match ends where the lines of spaces and the leading
    spaces behind them end. *)
Lemma match_broken_cue_spec s g1 rest :
  match_broken_cue s = Some (g1, rest) ↔
  ∃ y r, cue_line y ∧ g1 = y ++ [NL] ∧ s = y ++ NL :: NL :: r ∧
         rest = skip_blank false r.
Proof.
  unfold match_broken_cue. split.
  - destruct (match_timestamp s) as [[g r0]|] eqn:Hts; [|done].
    apply match_timestamp_spec in Hts as (y & Hy & -> & ->).
    destruct r0 as [|c r]; [done|].
    destruct (N.eqb_spec c NL) as [->|]; [|done].
    intros [= <- <-]. exists y, r. split; [done|]. split; [done|].
    split; [by rewrite <- app_assoc|done].
  - intros (y & r & Hy & -> & -> & ->).
    assert (match_timestamp (y ++ NL :: NL :: r)
            = Some (y ++ [NL], NL :: r)) as ->.
    { apply match_timestamp_spec. exists y. split; [done|]. split; [done|].
      by rewrite <- app_assoc. }
    by rewrite N.eqb_refl.
Qed.

Lemma skip_blank_length in_spaces r :
  (length (skip_blank in_spaces r) ≤ length r)%nat.
Proof.
  revert in_spaces. induction r as [|c r IH]; intros in_spaces; simpl; [lia|].
  destruct (c =? SP)%N; [specialize (IH true); lia|].
  destruct ((c =? NL)%N && in_spaces); [specialize (IH false); lia|].
  simpl. lia.
Qed.

(** A match is not empty: what is left is shorter. *)
Lemma match_at_shorter before s g1 rest :
  match_at before s = Some (g1, rest) → (length rest < length s)%nat.
Proof.
  unfold match_at. destruct (lookbehind_blank before); [|done].
  intros (y & r & Hy & -> & -> & ->)%match_broken_cue_spec.
  pose proof (skip_blank_length false r).
  rewrite length_app. simpl. lia.
Qed.

Lemma match_at_spec before s g1 rest :
  match_at before s = Some (g1, rest) →
  lookbehind_blank before = true ∧
  ∃ y r, cue_line y ∧ g1 = y ++ [NL] ∧ s = y ++ NL :: NL :: r ∧
         rest = skip_blank false r.
Proof.
  unfold match_at. destruct (lookbehind_blank before); [|done].
  intros H%match_broken_cue_spec. done.
Qed.

Lemma match_at_nil before : match_at before [] = None.
Proof. unfold match_at. by destruct (lookbehind_blank before). Qed.

(** *** The scan, one step at a time *)

Lemma sub_loop_nil n before : sub_loop n before [] = [].
Proof. destruct n; [done|]. cbn [sub_loop]. by rewrite match_at_nil. Qed.

Lemma sub_loop_copy n before c s :
  match_at before (c :: s) = None →
  sub_loop (S n) before (c :: s) = c :: sub_loop n (c :: before) s.
Proof. intros H. cbn [sub_loop]. by rewrite H. Qed.

Lemma sub_loop_match n before s g1 rest :
  match_at before s = Some (g1, rest) →
  sub_loop (S n) before s
  = g1 ++ sub_loop n (reverse (take (length s - length rest) s) ++ before)
            rest.
Proof. intros H. cbn [sub_loop]. by rewrite H. Qed.

Lemma no_newline_after_match_copy n before c s :
  match_at before (c :: s) = None →
  no_newline_after_match (S n) before (c :: s)
  = no_newline_after_match n (c :: before) s.
Proof. intros H. cbn [no_newline_after_match]. by rewrite H. Qed.

Lemma no_newline_after_match_match n before s g1 rest :
  match_at before s = Some (g1, rest) →
  no_newline_after_match (S n) before s
  = negb (startswith [NL] rest) &&
    no_newline_after_match n
      (reverse (take (length s - length rest) s) ++ before) rest.
Proof. intros H. cbn [no_newline_after_match]. by rewrite H. Qed.

(** Fuel beyond the length of the text changes nothing. *)
Lemma sub_loop_fuel n : ∀ m before s,
  (length s < n)%nat → (length s < m)%nat →
  sub_loop n before s = sub_loop m before s.
Proof.
  induction n as [|n IH]; intros m before s Hn Hm; [lia|].
  destruct m as [|m]; [lia|].
  destruct (match_at before s) as [[g1 rest]|] eqn:Hat.
  - rewrite !(sub_loop_match _ _ _ _ _ Hat). f_equal.
    apply match_at_shorter in Hat. apply IH; lia.
  - destruct s as [|c s]; [by rewrite !sub_loop_nil|].
    rewrite !(sub_loop_copy _ _ _ _ Hat). f_equal.
    simpl in Hn, Hm. apply IH; lia.
Qed.

(** The repaired text begins as the text did. *)
Lemma sub_loop_head n before s : head (sub_loop n before s) = head s.
Proof.
  destruct n as [|n]; [done|].
  destruct (match_at before s) as [[g1 rest]|] eqn:Hat.
  - rewrite (sub_loop_match _ _ _ _ _ Hat).
    apply match_at_spec in Hat as (_ & y & r & Hy & -> & -> & _).
    apply cue_line_no_newline in Hy as [Hne _].
    by destruct y.
  - destruct s as [|c s]; [by rewrite sub_loop_nil|].
    by rewrite (sub_loop_copy _ _ _ _ Hat).
Qed.

Lemma sub_loop_length n : ∀ before s,
  (length (sub_loop n before s) ≤ length s)%nat.
Proof.
  induction n as [|n IH]; intros before s; [done|].
  destruct (match_at before s) as [[g1 rest]|] eqn:Hat.
  - rewrite (sub_loop_match _ _ _ _ _ Hat).
    match goal with
    | |- context [sub_loop n ?b ?t] => specialize (IH b t); generalize dependent b
    end.
    intros before1 IH.
    apply match_at_spec in Hat as (_ & y & r & _ & -> & -> & ->).
    pose proof (skip_blank_length false r).
    rewrite !length_app. simpl. lia.
  - destruct s as [|c s]; [by rewrite sub_loop_nil|].
    rewrite (sub_loop_copy _ _ _ _ Hat). simpl.
    specialize (IH (c :: before) s). lia.
Qed.

(** A line ends at its first newline. *)
Lemma line_unique (y y' t t' : pystr) :
  Forall (λ c, c ≠ NL) y → Forall (λ c, c ≠ NL) y' →
  y ++ NL :: t = y' ++ NL :: t' → y = y' ∧ t = t'.
Proof.
  intros Hy. revert y'.
  induction Hy as [|c y Hc _ IH]; intros y' Hy' Heq.
  - destruct Hy' as [|c' y' Hc' _]; simpl in Heq.
    + by injection Heq as ->.
    + injection Heq as Hc _. by destruct Hc'.
  - destruct Hy' as [|c' y' Hc' Hy']; simpl in Heq.
    + injection Heq as Hc' _. by destruct Hc.
    + injection Heq as -> Heq. by destruct (IH y' Hy' Heq) as [-> ->].
Qed.

(** *** Where the lookbehind holds *)

Lemma lookbehind_not_newline c before :
  c ≠ NL → lookbehind_blank (c :: before) = false.
Proof.
  intros Hc. destruct before as [|b before]; [done|].
  simpl. by apply N.eqb_neq in Hc as ->.
Qed.

Lemma lookbehind_after_line y before :
  y ≠ [] → Forall (λ c, c ≠ NL) y →
  lookbehind_blank (reverse (y ++ [NL]) ++ before) = false.
Proof.
  intros Hne Hy. rewrite reverse_app. change (reverse [NL]) with [NL].
  destruct (reverse y) as [|l ys] eqn:Hr.
  - apply (f_equal reverse) in Hr. rewrite reverse_involutive in Hr.
    by destruct Hne.
  - assert (l ≠ NL) as Hl.
    { rewrite Forall_forall in Hy. apply Hy, elem_of_reverse.
      rewrite Hr. by left. }
    simpl. by apply N.eqb_neq in Hl as ->.
Qed.

Lemma quiet_step before c d z :
  quiet before (c :: d :: z) = true →
  lookbehind_blank (c :: before) = false ∧
  quiet (c :: before) (d :: z) = true.
Proof.
  cbn [quiet]. intros [Hl Hq]%andb_true_iff.
  by apply negb_true_iff in Hl.
Qed.

Lemma quiet_line w y : ∀ c before,
  w ≠ [] → (∀ d b, d ≠ NL → quiet (d :: b) w = true) →
  c ≠ NL → Forall (λ d, d ≠ NL) y →
  quiet before (c :: y ++ w) = true.
Proof.
  induction y as [|d y IH]; intros c before Hne Hw Hc Hy.
  - destruct w as [|e w]; [done|]. simpl app. cbn [quiet].
    rewrite lookbehind_not_newline by done. simpl. by apply Hw.
  - apply Forall_cons in Hy as [Hd Hy]. simpl app. cbn [quiet].
    rewrite lookbehind_not_newline by done. simpl.
    by apply (IH d (c :: before)).
Qed.

Lemma quiet_cue_line y before :
  cue_line y → quiet before (y ++ [NL]) = true.
Proof.
  intros [Hne Hy]%cue_line_no_newline.
  destruct y as [|c y]; [done|]. apply Forall_cons in Hy as [Hc Hy].
  by apply quiet_line.
Qed.

Lemma quiet_broken_cue y before :
  cue_line y → quiet before (y ++ [NL; NL]) = true.
Proof.
  intros [Hne Hy]%cue_line_no_newline.
  destruct y as [|c y]; [done|]. apply Forall_cons in Hy as [Hc Hy].
  apply quiet_line; [done| |done|done].
  intros d b Hd. cbn [quiet]. apply andb_true_iff. split; [|done].
  apply negb_true_iff. simpl. by apply N.eqb_neq in Hd as ->.
Qed.

(** *** Copying *)

(** A stretch of text in which the lookbehind holds nowhere, and at whose
    head the pattern does not match, is copied. *)
Lemma sub_loop_quiet z : ∀ before t n m,
  (length (z ++ t) < n)%nat → (length t < m)%nat →
  z = [] ∨ match_at before (z ++ t) = None →
  quiet before z = true →
  sub_loop n before (z ++ t) = z ++ sub_loop m (reverse z ++ before) t.
Proof.
  induction z as [|c z IH]; intros before t n m Hn Hm Hat Hq.
  - simpl in *. by apply sub_loop_fuel.
  - destruct Hat as [|Hat]; [done|]. destruct n as [|n]; [lia|].
    simpl app in *. rewrite (sub_loop_copy _ _ _ _ Hat).
    rewrite reverse_cons, <- app_assoc. simpl app. f_equal.
    simpl in Hn. apply IH; [lia|done| |].
    + destruct z as [|d z]; [by left|right].
      apply quiet_step in Hq as [Hl _]. unfold match_at. by rewrite Hl.
    + destruct z as [|d z]; [done|]. by apply quiet_step in Hq as [_ ?].
Qed.

(** Such a stretch at the head of the repaired text was at the head of the
    text. *)
Lemma sub_loop_prefix z : ∀ before s n t,
  z = [] ∨ match_at before s = None →
  quiet before z = true →
  sub_loop n before s = z ++ t → ∃ s', s = z ++ s'.
Proof.
  induction z as [|c z IH]; intros before s n t Hat Hq Hout; [by exists s|].
  destruct Hat as [|Hat]; [done|].
  destruct n as [|n]; [by exists t|].
  destruct s as [|c0 s]; [by rewrite sub_loop_nil in Hout|].
  rewrite (sub_loop_copy _ _ _ _ Hat) in Hout. simpl app in Hout.
  injection Hout as -> Hout.
  destruct (IH (c :: before) s n t) as [s' ->]; [| |done|by exists s'].
  - destruct z as [|d z]; [by left|right].
    apply quiet_step in Hq as [Hl _]. unfold match_at. by rewrite Hl.
  - destruct z as [|d z]; [done|]. by apply quiet_step in Hq as [_ ?].
Qed.

(** *** The second run *)

(** On the result of a run that left no newline behind a match, a second
    run finds no match. *)
Lemma second_run_copies n : ∀ before before' s m,
  (length s < n)%nat →
  no_newline_after_match n before s = true →
  in_step before before' (sub_loop n before s) →
  (length (sub_loop n before s) < m)%nat →
  sub_loop m before' (sub_loop n before s) = sub_loop n before s.
Proof.
  induction n as [|n IH]; intros before before' s m Hn Hclean [HA HB] Hm;
    [lia|].
  destruct (match_at before s) as [[g1 rest]|] eqn:Hat.
  - rewrite (sub_loop_match _ _ _ _ _ Hat) in *.
    rewrite (no_newline_after_match_match _ _ _ _ _ Hat) in Hclean.
    apply andb_true_iff in Hclean as [Hnl Hclean].
    pose proof (match_at_shorter _ _ _ _ Hat) as Hshort.
    set (before1 := reverse (take (length s - length rest) s) ++ before)
      in *.
    clearbody before1.
    apply match_at_spec in Hat as (_ & y & r & Hy & -> & -> & ->).
    set (rest := skip_blank false r) in *.
    assert (head (sub_loop n before1 rest) ≠ Some NL) as Hhead.
    { rewrite sub_loop_head. intros Hh. apply negb_true_iff in Hnl.
      destruct rest as [|c rest']; [done|]. injection Hh as ->.
      simpl in Hnl. done. }
    destruct (cue_line_no_newline _ Hy) as [Hne Hnn].
    pose proof (sub_loop_length n before1 rest) as Hlen.
    rewrite (sub_loop_quiet (y ++ [NL]) before' (sub_loop n before1 rest) m
               (S (length rest))); [|lia|lia| |by apply quiet_cue_line].
    + f_equal. apply IH; [lia|done| |lia]. split.
      * by rewrite lookbehind_after_line.
      * intros _. by right.
    + right. unfold match_at. destruct (lookbehind_blank before'); [|done].
      destruct (match_broken_cue ((y ++ [NL]) ++ sub_loop n before1 rest))
        as [[g k]|] eqn:Hm2; [|done].
      apply match_broken_cue_spec in Hm2 as (y' & r' & Hy' & _ & Heq & _).
      rewrite <- app_assoc in Heq. simpl app in Heq.
      apply line_unique in Heq as [_ Heq];
        [|done|by apply cue_line_no_newline].
      rewrite Heq in Hhead. by destruct Hhead.
  - destruct s as [|c s].
    { rewrite sub_loop_nil. apply sub_loop_nil. }
    rewrite (sub_loop_copy _ _ _ _ Hat) in *.
    rewrite (no_newline_after_match_copy _ _ _ _ Hat) in Hclean.
    destruct m as [|m]; [lia|]. simpl in Hn, Hm.
    rewrite sub_loop_copy.
    + f_equal. apply IH; [lia|done| |lia]. split; [|by left].
      intros Hl. destruct before' as [|b' before']; [done|].
      simpl in Hl. apply andb_true_iff in Hl as [Hc Hb].
      apply N.eqb_eq in Hc as ->. apply N.eqb_eq in Hb as ->.
      destruct HB as [Hb|Hb]; [done| |by destruct Hb].
      destruct before as [|b before]; [done|]. injection Hb as ->. done.
    + unfold match_at. destruct (lookbehind_blank before') eqn:Hl; [|done].
      specialize (HA eq_refl). unfold match_at in Hat. rewrite HA in Hat.
      destruct (match_broken_cue (c :: sub_loop n (c :: before) s))
        as [[g k]|] eqn:Hm2; [|done].
      apply match_broken_cue_spec in Hm2 as (y' & r' & Hy' & _ & Heq & _).
      destruct (sub_loop_prefix (y' ++ [NL; NL]) before (c :: s) (S n) r')
        as [s' Hs'].
      * right. unfold match_at. by rewrite HA.
      * by apply quiet_broken_cue.
      * rewrite sub_loop_copy by (unfold match_at; by rewrite HA).
        rewrite Heq. by rewrite <- app_assoc.
      * rewrite Hs' in Hat.
        assert (match_broken_cue ((y' ++ [NL; NL]) ++ s')
                = Some (y' ++ [NL], skip_blank false s')) as Hc.
        { apply match_broken_cue_spec. exists y', s'.
          by rewrite <- app_assoc. }
        congruence.
Qed.

(** C8, amended: on every text in which the repair leaves no newline
    directly behind a match of the pattern, the repair of the repaired text
    is the repaired text. *)
Theorem webvtt_repair_idempotent_when_clean webvtt :
  collapses_cleanly webvtt = true →
  fix_webvtt (fix_webvtt webvtt) = fix_webvtt webvtt.
Proof.
  unfold collapses_cleanly, fix_webvtt. intros Hclean.
  apply second_run_copies; [lia|done|by split|lia].
Qed.

(** C8, amended, at work: two broken cues, the first with a line of spaces
    and leading spaces behind it, are mended by the first run, and the
    second run changes nothing. *)
Lemma webvtt_repair_idempotent_when_clean_witness :
  collapses_cleanly broken_cues = true ∧
  fix_webvtt broken_cues
  = text ["WEBVTT"; ""; "00:01.000 --> 00:02.000"; "first";
          ""; "00:02.000 --> 00:03.000"; "second"]%string ∧
  fix_webvtt (fix_webvtt broken_cues) = fix_webvtt broken_cues.
Proof.
  split; [vm_compute; reflexivity|]. split; [vm_compute; reflexivity|].
  apply (webvtt_repair_idempotent_when_clean broken_cues).
  vm_compute; reflexivity.
Defined.

(** ** The subtitle pipeline *)

Lemma extends_refl st : extends st st.
Proof. by repeat split. Qed.

Lemma extends_trans st1 st2 st3 :
  extends st1 st2 → extends st2 st3 → extends st1 st3.
Proof.
  intros (H1 & H2 & H3) (H1' & H2' & H3'). repeat split; auto.
Qed.

Lemma is_Some_insert (m : gmap pystr pystr) k v p :
  is_Some (m !! p) → is_Some (<[k := v]> m !! p).
Proof.
  intros H. destruct (decide (k = p)) as [->|Hne].
  - rewrite lookup_insert_eq. eauto.
  - by rewrite lookup_insert_ne.
Qed.

Lemma extends_delete p st : extends st (pp_delete p st).
Proof.
  repeat split; simpl; auto. intros q Hq. apply elem_of_app. by left.
Qed.

Lemma extends_move k v st : extends st (pp_move k v st).
Proof. repeat split; simpl; auto. intros q. apply is_Some_insert. Qed.

Lemma extends_store p data st : extends st (pp_store p data st).
Proof. repeat split; simpl; auto. intros q. apply is_Some_insert. Qed.

Lemma extends_set_fs fs' st :
  (∀ p, is_Some (fs st !! p) → is_Some (fs' !! p)) →
  extends st (pp_set_fs fs' st).
Proof. intros H. repeat split; simpl; auto. Qed.

(** [_convert_filepath] on a registered file returns the new name, leaves
    the old one to be deleted and registers the new one. *)
Lemma convert_filepath_registered st p new_ext type_ :
  is_Some (files_to_move st !! p) →
  ∃ st',
    _convert_filepath st p new_ext type_
    = PPOk (p ++ py "." ++ type_ ++ py "." ++ new_ext) st' ∧
    extends st st' ∧ p ∈ files_to_delete st' ∧
    is_Some (files_to_move st'
               !! (p ++ py "." ++ type_ ++ py "." ++ new_ext)) ∧
    fs st' = fs st.
Proof.
  intros [target Hreg]. unfold _convert_filepath. simpl. rewrite Hreg.
  eexists. split; [reflexivity|]. split; [|split; [|split]].
  - eapply extends_trans; [apply extends_delete|apply extends_move].
  - simpl. apply elem_of_app. right. by left.
  - simpl. rewrite lookup_insert_eq. eauto.
  - reflexivity.
Qed.

(** *** Texts that can be encoded *)

Lemma well_formed_Forall data :
  well_formed data = true ↔ Forall (λ c, is_surrogate c = false) data.
Proof.
  unfold well_formed. induction data as [|c data IH]; simpl.
  - split; [constructor|done].
  - rewrite andb_true_iff, negb_true_iff, IH, Forall_cons. done.
Qed.

Lemma skip_blank_Forall (P : N → Prop) in_spaces r :
  Forall P r → Forall P (skip_blank in_spaces r).
Proof.
  revert in_spaces. induction r as [|c r IH]; intros in_spaces Hr; simpl;
    [done|].
  pose proof Hr as Hcr. apply Forall_cons in Hr as [Hc Hr].
  destruct (c =? SP)%N; [by apply IH|].
  destruct ((c =? NL)%N && in_spaces); [by apply IH|done].
Qed.

(** The repair takes characters away and adds none. *)
Lemma sub_loop_Forall (P : N → Prop) n : ∀ before s,
  Forall P s → Forall P (sub_loop n before s).
Proof.
  induction n as [|n IH]; intros before s Hs; simpl; [done|].
  destruct (match_at before s) as [[g1 rest]|] eqn:Hm.
  - apply match_at_spec in Hm as (_ & y & r & _ & -> & -> & ->).
    apply Forall_app in Hs as [Hy Hs].
    apply Forall_cons in Hs as [Hn Hs]. apply Forall_cons in Hs as [_ Hr].
    apply Forall_app. split.
    + apply Forall_app. split; [done|by constructor].
    + apply IH. by apply skip_blank_Forall.
  - destruct s as [|c s']; [done|].
    apply Forall_cons in Hs as [Hc Hs]. constructor; [done|by apply IH].
Qed.

Lemma fix_webvtt_well_formed webvtt :
  well_formed webvtt = true → well_formed (fix_webvtt webvtt) = true.
Proof. rewrite !well_formed_Forall. apply sub_loop_Forall. Qed.

Lemma universal_newlines_Forall (P : N → Prop) s :
  P NL → Forall P s → Forall P (universal_newlines s).
Proof.
  intros HNL. remember (length s) as n eqn:Hn. revert s Hn.
  induction n as [n IH] using lt_wf_ind. intros [|c s] Hn Hs; [done|].
  apply Forall_cons in Hs as [Hc Hs].
  destruct s as [|d s'].
  - simpl. destruct (c =? 13)%N; by repeat constructor.
  - pose proof Hs as Hds. apply Forall_cons in Hs as [Hd Hs'].
    assert (Hrest : Forall P (universal_newlines (d :: s'))).
    { apply (IH (length (d :: s'))); [simpl in *; lia|done|done]. }
    assert (Hrest' : Forall P (universal_newlines s')).
    { apply (IH (length s')); [simpl in *; lia|done|done]. }
    change (Forall P (if (c =? 13)%N
                      then NL :: (if (d =? NL)%N then universal_newlines s'
                                  else universal_newlines (d :: s'))
                      else c :: universal_newlines (d :: s'))).
    destruct (c =? 13)%N; [|by constructor].
    constructor; [done|]. by destruct (d =? NL)%N.
Qed.

Lemma universal_newlines_well_formed data :
  well_formed data = true → well_formed (universal_newlines data) = true.
Proof. rewrite !well_formed_Forall. by apply universal_newlines_Forall. Qed.

Section Subtitles.
Variable dfxp2srt : pystr → option pystr.
Variable run_ffmpeg :
  gmap pystr pystr → pystr → pystr → list pystr → option (gmap pystr pystr).
Variable linesep : pystr.
Variable writable : gmap pystr pystr → pystr → bool.
Hypothesis ffmpeg_ok : ffmpeg_writes_output run_ffmpeg.
Hypothesis writes_ok : writes_succeed writable.
Hypothesis srt_ok : converts_to_text dfxp2srt.

(** With a disk that takes every file, a text that can be encoded is
    written. *)
Lemma pp_write_text_ok st p data :
  well_formed data = true →
  pp_write_text linesep writable st p data
  = Ret (pp_store p (write_newlines linesep data) st).
Proof.
  intros Hdata. unfold pp_write_text. by rewrite writes_ok, Hdata.
Qed.

(** One track that is ready never raises: it comes out as a WEBVTT track
    or is dropped, and its file is left to be deleted in both cases. *)
Lemma convert_subtitle_ready st sub :
  track_ready (files_to_move st) (fs st) sub →
  ∃ r st',
    convert_subtitle dfxp2srt run_ffmpeg linesep writable st sub
    = PPOk r st' ∧
    extends st st' ∧
    (∀ p, usable_track sub = Some p → p ∈ files_to_delete st') ∧
    (∀ sub', r = Some sub' →
             sub_ext sub' = Some (py "vtt") ∧ is_Some (sub_filepath sub') ∧
             sub_more sub' = sub_more sub ∧ is_Some (usable_track sub)).
Proof.
  intros Hready. unfold convert_subtitle. fold (usable_track sub).
  destruct (usable_track sub) as [p|] eqn:Hp.
  2:{ exists None, st. split; [done|]. split; [apply extends_refl|].
      split; [done|]. done. }
  destruct (Hready p Hp) as (Hreg & ext & Hext & Hxml).
  rewrite Hext.
  (* the common part, from the call of FFmpeg on *)
  assert (Htail : ∀ f sa,
    is_Some (files_to_move sa !! f) → extends st sa →
    p ∈ files_to_delete sa ∨ f = p →
    ∃ r st',
      match _convert_filepath sa f (py "vtt") (py "conv") with
      | PPRaise e => PPRaise e
      | PPOk new_filepath st0 =>
          match run_ffmpeg (fs st0) f new_filepath [py "-f"; py "webvtt"] with
          | None => PPOk None (pp_delete new_filepath st0)
          | Some fs' =>
              match pp_read_text (pp_set_fs fs' st0) new_filepath with
              | Raise e => PPRaise e
              | Ret webvtt =>
                  match
                    (if bool_decide (webvtt ≠ fix_webvtt webvtt)
                     then
                       match _convert_filepath (pp_set_fs fs' st0) new_filepath
                               (py "vtt") (py "fix") with
                       | PPRaise e => PPRaise e
                       | PPOk filepath st1 =>
                           match pp_write_text linesep writable st1 filepath
                                   (fix_webvtt webvtt) with
                           | Raise e => PPRaise e
                           | Ret st2 => PPOk filepath st2
                           end
                       end
                     else PPOk new_filepath (pp_set_fs fs' st0))
                  with
                  | PPRaise e => PPRaise e
                  | PPOk filepath st1 =>
                      PPOk (Some {| sub_filepath := Some filepath;
                                    sub_ext := Some (py "vtt");
                                    sub_more := sub_more sub |}) st1
                  end
              end
          end
      end = PPOk r st' ∧
      extends st st' ∧ p ∈ files_to_delete st' ∧
      (∀ sub', r = Some sub' →
               sub_ext sub' = Some (py "vtt") ∧ is_Some (sub_filepath sub') ∧
               sub_more sub' = sub_more sub ∧ is_Some (Some p))).
  { intros f sa Hf Hsa Hdel.
    destruct (convert_filepath_registered sa f (py "vtt") (py "conv") Hf)
      as (sb & -> & Hsb & Hfdel & Hnew & Hfs).
    set (f2 := f ++ py "." ++ py "conv" ++ py "." ++ py "vtt") in *.
    assert (Hpdel : p ∈ files_to_delete sb).
    { destruct Hdel as [Hdel| ->]; [by apply Hsb|done]. }
    destruct (run_ffmpeg (fs sb) f f2 [py "-f"; py "webvtt"]) as [fs'|] eqn:Hff.
    2:{ eexists _, _. split; [reflexivity|]. split; [|split].
        - eapply extends_trans; [exact Hsa|].
          eapply extends_trans; [exact Hsb|apply extends_delete].
        - by apply extends_delete.
        - done. }
    destruct (ffmpeg_ok _ _ _ _ _ Hff) as [(data & Hout & Hdata) Hkeep].
    unfold pp_read_text at 1. simpl. rewrite Hout, Hdata.
    assert (Hsc : extends sb (pp_set_fs fs' sb)).
    { by apply extends_set_fs. }
    case_bool_decide.
    - destruct (convert_filepath_registered (pp_set_fs fs' sb) f2
                  (py "vtt") (py "fix")) as (sd & -> & Hsd & _ & _ & _).
      { exact Hnew. }
      rewrite pp_write_text_ok
        by apply fix_webvtt_well_formed, universal_newlines_well_formed, Hdata.
      eexists _, _. split; [reflexivity|]. split; [|split].
      + eapply extends_trans; [exact Hsa|].
        eapply extends_trans; [exact Hsb|].
        eapply extends_trans; [exact Hsc|].
        eapply extends_trans; [exact Hsd|apply extends_store].
      + apply extends_store, Hsd, Hsc, Hpdel.
      + intros sub' [= <-]. simpl. eauto.
    - eexists _, _. split; [reflexivity|]. split; [|split].
      + eapply extends_trans; [exact Hsa|].
        eapply extends_trans; [exact Hsb|exact Hsc].
      + apply Hsc, Hpdel.
      + intros sub' [= <-]. simpl. eauto. }
  case_bool_decide as Hfamily.
  - destruct (Hxml Hfamily) as [data Hdata].
    unfold pp_read_bytes. rewrite Hdata.
    destruct (dfxp2srt data) as [srt|] eqn:Hsrt.
    + destruct (convert_filepath_registered st p (py "srt") (py "conv") Hreg)
        as (sa & -> & Hsa & Hdel & Hnew & _).
      rewrite pp_write_text_ok by exact (srt_ok _ _ Hsrt).
      destruct (Htail (p ++ py "." ++ py "conv" ++ py "." ++ py "srt")
                  (pp_store (p ++ py "." ++ py "conv" ++ py "." ++ py "srt")
                     (write_newlines linesep srt) sa))
        as (r & st' & Heq & Hext' & Hpdel & Hr).
      * exact Hnew.
      * eapply extends_trans; [exact Hsa|apply extends_store].
      * left. exact Hdel.
      * exists r, st'. split; [exact Heq|]. split; [exact Hext'|].
        split; [by intros q [= <-]|exact Hr].
    + eexists _, _. split; [reflexivity|]. split; [apply extends_delete|].
      split; [|done]. intros q [= <-]. simpl. apply elem_of_app. right. by left.
  - destruct (Htail p st Hreg (extends_refl st) (or_intror eq_refl))
      as (r & st' & Heq & Hext' & Hpdel & Hr).
    exists r, st'. split; [exact Heq|]. split; [exact Hext'|].
    split; [by intros q [= <-]|exact Hr].
Qed.

Lemma track_ready_extends st st' sub :
  extends st st' →
  track_ready (files_to_move st) (fs st) sub →
  track_ready (files_to_move st') (fs st') sub.
Proof.
  intros (Hm & Hf & _) Hready p Hp.
  destruct (Hready p Hp) as (Hreg & ext & Hext & Hxml).
  split; [by apply Hm|]. exists ext. split; [done|]. intros Hx. by apply Hf, Hxml.
Qed.

Lemma elem_of_dict_set {V} (k k0 : pystr) (v v0 : V) d :
  (k, v) ∈ dict_set k0 v0 d → (k, v) = (k0, v0) ∨ (k, v) ∈ d.
Proof.
  induction d as [|[k' v'] d IH]; simpl.
  - intros H. apply list_elem_of_singleton in H. by left.
  - destruct (str_eqb k' k0).
    + intros [H|H]%elem_of_cons; [by left|]. right. by right.
    + intros [H|H]%elem_of_cons; [right; rewrite H; by left|].
      destruct (IH H) as [?|?]; [by left|]. right. by right.
Qed.

(** The loop over tracks that are ready never raises. *)
Lemma convert_subtitles_ready subs : ∀ st new_subtitles,
  Forall (λ kv, track_ready (files_to_move st) (fs st) kv.2) subs →
  ∃ new' st',
    convert_subtitles dfxp2srt run_ffmpeg linesep writable st subs
                      new_subtitles
    = PPOk new' st' ∧
    extends st st' ∧
    (∀ lang sub p, (lang, sub) ∈ subs → usable_track sub = Some p →
                   p ∈ files_to_delete st') ∧
    (∀ lang sub', (lang, sub') ∈ new' →
       (lang, sub') ∈ new_subtitles ∨
       (sub_ext sub' = Some (py "vtt") ∧ is_Some (sub_filepath sub') ∧
        ∃ sub, (lang, sub) ∈ subs ∧ sub_more sub' = sub_more sub ∧
               is_Some (usable_track sub))).
Proof.
  induction subs as [|[lang sub] subs IH]; intros st new_subtitles Hready.
  - exists new_subtitles, st. split; [done|]. split; [apply extends_refl|].
    split; [intros ??? H; by apply elem_of_nil in H|]. intros ?? H. by left.
  - apply Forall_cons in Hready as [Hsub Hsubs]. simpl in Hsub.
    destruct (convert_subtitle_ready st sub Hsub)
      as (r & st1 & Heq & Hext & Hdel & Hr).
    simpl. rewrite Heq.
    assert (Hsubs1 : Forall (λ kv, track_ready (files_to_move st1) (fs st1)
                                               kv.2) subs).
    { eapply Forall_impl; [exact Hsubs|]. intros kv.
      by apply track_ready_extends. }
    destruct r as [sub1|].
    + destruct (IH st1 (dict_set lang sub1 new_subtitles) Hsubs1)
        as (new' & st' & Heq' & Hext' & Hdel' & Hnew').
      exists new', st'. split; [exact Heq'|].
      split; [by eapply extends_trans|]. split.
      * intros l s0 p [H|H]%elem_of_cons Hp.
        -- simplify_eq. apply Hext'. by apply Hdel.
        -- by eapply Hdel'.
      * intros l s' Hin. destruct (Hnew' l s' Hin) as [Hold|Hnew].
        -- apply elem_of_dict_set in Hold as [Heq1|Hold]; [|by left].
           simplify_eq. right.
           destruct (Hr sub1 eq_refl) as (H1 & H2 & H3 & H4).
           split; [done|]. split; [done|]. exists sub.
           split; [by left|done].
        -- right. destruct Hnew as (H1 & H2 & s0 & H3 & H4).
           split; [done|]. split; [done|]. exists s0. split; [by right|done].
    + destruct (IH st1 new_subtitles Hsubs1)
        as (new' & st' & Heq' & Hext' & Hdel' & Hnew').
      exists new', st'. split; [exact Heq'|].
      split; [by eapply extends_trans|]. split.
      * intros l s0 p [H|H]%elem_of_cons Hp.
        -- simplify_eq. apply Hext'. by apply Hdel.
        -- by eapply Hdel'.
      * intros l s' Hin. destruct (Hnew' l s' Hin) as [Hold|Hnew]; [by left|].
        right. destruct Hnew as (H1 & H2 & s0 & H3 & H4).
        split; [done|]. split; [done|]. exists s0. split; [by right|done].
Qed.
End Subtitles.



Lemma scrub_well_formed head data :
  well_formed head = true → well_formed (head ++ scrub data) = true.
Proof.
  rewrite !well_formed_Forall. intros Hhead.
  apply Forall_app. split; [exact Hhead|].
  unfold scrub. induction data as [|c data IH]; simpl; [constructor|].
  destruct (is_surrogate c) eqn:Hc; simpl; [exact IH|by constructor].
Qed.

Lemma tidy_run_ffmpeg_writes_output : ffmpeg_writes_output tidy_run_ffmpeg.
Proof.
  intros fs path out opts fs'. unfold tidy_run_ffmpeg.
  destruct (fs !! path) as [data|]; [|done].
  destruct (str_eqb data (py "broken")); [done|].
  intros [= <-]. split.
  - rewrite lookup_insert_eq. eexists. split; [reflexivity|].
    by apply (scrub_well_formed (py "WEBVTT" ++ [NL; NL])).
  - intros p. apply is_Some_insert.
Qed.

Lemma tidy_dfxp2srt_converts_to_text : converts_to_text tidy_dfxp2srt.
Proof.
  intros data srt. unfold tidy_dfxp2srt.
  destruct (str_eqb data (py "bad")); [done|].
  intros [= <-]. by apply (scrub_well_formed (py "1" ++ [NL])).
Qed.



(** * Further properties of the code *)

(** ** [_short_filename]: its edges *)

(** X1: a budget of zero bytes or less cannot be met, since the encoded
    output has to be strictly shorter than the budget: [_short_filename]
    raises [ValueError] for every title, whatever the sanitizer and the
    encoding are. *)
Theorem short_filename_no_budget
    (sanitize : pystr → pystr) (enc : pystr → list Byte.byte)
    (name : pystr) (budget : Z) :
  budget ≤ 0 →
  _short_filename sanitize enc name budget = Raise ValueError.
Proof.
  intros Hb. unfold _short_filename.
  destruct (short_filename_loop_spec sanitize enc name budget (length name))
    as [(k & _ & _ & Hf & _)|[Hr _]]; [|done].
  apply fits_true in Hf. unfold len in Hf. lia.
Qed.

Lemma short_filename_no_budget_witness :
  _short_filename sanitize_none utf8_encode (py "My Video") 0
  = Raise ValueError.
Proof.
  apply (short_filename_no_budget sanitize_none utf8_encode (py "My Video") 0).
  lia.
Defined.

(** X2: the last candidate the loop tries is the bare ellipsis (nothing at
    all for an empty title).  When that one fits, [_short_filename] returns,
    and what it returns fits the budget. *)
Theorem short_filename_returns_when_ellipsis_fits
    (sanitize : pystr → pystr) (enc : pystr → list Byte.byte)
    (name : pystr) (budget : Z) :
  len (enc (sanitize (if bool_decide (name = []) then [] else [ELLIPSIS])))
  < budget →
  ∃ output, _short_filename sanitize enc name budget = Ret output ∧
            len (enc output) < budget.
Proof.
  intros Hfit. unfold _short_filename.
  destruct (short_filename_loop_spec sanitize enc name budget (length name))
    as [(k & _ & Hr & Hf & _)|[_ Hn]].
  - eexists. split; [exact Hr|]. by apply fits_true.
  - specialize (Hn 0%nat ltac:(lia)). apply fits_false in Hn.
    unfold short_candidate in Hn. rewrite take_0 in Hn.
    change (strip []) with (@nil N) in Hn.
    destruct name as [|c name]; simpl in Hn, Hfit; lia.
Qed.

Lemma short_filename_returns_when_ellipsis_fits_witness :
  ∃ output,
    _short_filename sanitize_none utf8_encode (py "My Video")
                    MAX_OUTPUT_TITLE_LENGTH = Ret output ∧
    len (utf8_encode output) < MAX_OUTPUT_TITLE_LENGTH.
Proof.
  apply (short_filename_returns_when_ellipsis_fits sanitize_none utf8_encode).
  vm_compute. reflexivity.
Defined.

(** X3: a title that fits once it is trimmed and sanitized is returned
    whole, without an ellipsis. *)
Theorem short_filename_keeps_fitting_name
    (sanitize : pystr → pystr) (enc : pystr → list Byte.byte)
    (name : pystr) (budget : Z) :
  len (enc (sanitize (strip name))) < budget →
  _short_filename sanitize enc name budget = Ret (sanitize (strip name)).
Proof.
  intros Hfit. unfold _short_filename.
  assert (short_candidate sanitize name (length name) = sanitize (strip name))
    as Hc.
  { unfold short_candidate, len. rewrite firstn_all, Z.ltb_irrefl. done. }
  apply (fits_true enc) in Hfit. rewrite <- Hc in Hfit.
  destruct (length name); simpl; rewrite Hfit; by rewrite <- Hc.
Qed.

Lemma short_filename_keeps_fitting_name_witness :
  _short_filename sanitize_none utf8_encode (py " My Video ") 200
  = Ret (sanitize_none (strip (py " My Video "))).
Proof.
  apply (short_filename_keeps_fitting_name sanitize_none utf8_encode).
  vm_compute. reflexivity.
Defined.

Lemma lstrip_head s c : head (lstrip s) = Some c → isspace c = false.
Proof.
  induction s as [|d s IH]; simpl; [done|].
  destruct (isspace d) eqn:Hd; [done|]. simpl. by intros [= <-].
Qed.

Lemma lstrip_last s c : last (lstrip s) = Some c → last s = Some c.
Proof.
  induction s as [|d s IH]; simpl; [done|].
  destruct (isspace d) eqn:Hd; [|done].
  intros H. specialize (IH H). destruct s; [done|]. done.
Qed.

Lemma strip_trimmed s :
  (∀ c, head (strip s) = Some c → isspace c = false) ∧
  (∀ c, last (strip s) = Some c → isspace c = false).
Proof.
  unfold strip, rstrip. split; intros c Hc.
  - by apply lstrip_head in Hc.
  - apply lstrip_last in Hc. rewrite last_reverse in Hc.
    by apply lstrip_head in Hc.
Qed.

(** X4: with a sanitizer that leaves the candidates alone, what
    [_short_filename] returns neither begins nor ends with white space: the
    prefix is trimmed at both ends, and the ellipsis is no white space. *)
Theorem short_filename_output_trimmed
    (enc : pystr → list Byte.byte) (name : pystr) (budget : Z)
    (output : pystr) :
  _short_filename sanitize_none enc name budget = Ret output →
  (∀ c, head output = Some c → isspace c = false) ∧
  (∀ c, last output = Some c → isspace c = false).
Proof.
  unfold _short_filename. intros Hr.
  destruct (short_filename_loop_spec sanitize_none enc name budget
              (length name)) as [(k & _ & Hk & _)|[Hk _]]; [|congruence].
  rewrite Hk in Hr. injection Hr as <-.
  unfold short_candidate, sanitize_none.
  destruct (strip_trimmed (take k name)) as [Hh Hl].
  destruct (Z.of_nat k <? len name); [|done]. split; intros c Hc.
  - destruct (strip (take k name)) as [|d t]; simpl in Hc.
    + by injection Hc as <-.
    + by apply Hh.
  - rewrite last_snoc in Hc. by injection Hc as <-.
Qed.

Lemma short_filename_output_trimmed_witness :
  _short_filename sanitize_none utf8_encode (py "  My Video ") 200
  = Ret (py "My Video") ∧
  (∀ c, head (py "My Video") = Some c → isspace c = false) ∧
  (∀ c, last (py "My Video") = Some c → isspace c = false).
Proof.
  split; [vm_compute; reflexivity|].
  apply (short_filename_output_trimmed utf8_encode (py "  My Video ") 200).
  vm_compute. reflexivity.
Defined.

(** ** The subtitle pipeline, without any assumption on the tracks *)

Lemma keeps_registered_refl st : keeps_registered st st.
Proof. by split. Qed.

Lemma keeps_registered_trans st1 st2 st3 :
  keeps_registered st1 st2 → keeps_registered st2 st3 →
  keeps_registered st1 st3.
Proof. intros [H1 H2] [H1' H2']. split; auto. Qed.

Lemma convert_filepath_post st p new_ext type_ new st' :
  _convert_filepath st p new_ext type_ = PPOk new st' →
  new = p ++ py "." ++ type_ ++ py "." ++ new_ext ∧
  keeps_registered st st' ∧ p ∈ files_to_delete st' ∧
  is_Some (files_to_move st' !! new) ∧
  fs st' = fs st ∧ callbacks st' = callbacks st ∧
  files_to_delete st' = files_to_delete st ++ [p].
Proof.
  unfold _convert_filepath. simpl.
  destruct (files_to_move st !! p) as [target|]; [|done].
  intros [= <- <-]. simpl. split; [done|]. split; [split; simpl|].
  - intros q. apply is_Some_insert.
  - intros q Hq. apply elem_of_app. by left.
  - split; [apply elem_of_app; right; by left|].
    split; [rewrite lookup_insert_eq; eauto|done].
Qed.

Section SubtitlesMore.
Variable dfxp2srt : pystr → option pystr.
Variable run_ffmpeg :
  gmap pystr pystr → pystr → pystr → list pystr → option (gmap pystr pystr).
Variable linesep : pystr.
Variable writable : gmap pystr pystr → pystr → bool.

(** A write that returns has stored the text, with the line ends of the
    platform. *)
Lemma pp_write_text_post st p data st' :
  pp_write_text linesep writable st p data = Ret st' →
  st' = pp_store p (write_newlines linesep data) st.
Proof.
  unfold pp_write_text.
  destruct (negb (writable (fs st) p)); [done|].
  destruct (negb (well_formed data)); [done|]. by intros [= <-].
Qed.

(** A read in text mode that returns has decoded the bytes of the file and
    applied universal newlines. *)
Lemma pp_read_text_post st p webvtt :
  pp_read_text st p = Ret webvtt →
  ∃ data, fs st !! p = Some data ∧ well_formed data = true ∧
          webvtt = universal_newlines data.
Proof.
  unfold pp_read_text. destruct (fs st !! p) as [data|]; [|done].
  destruct (well_formed data) eqn:Hdata; [|done].
  intros [= <-]. by exists data.
Qed.

(** What one turn of the loop leaves behind, whenever it does not raise. *)
Lemma convert_subtitle_post st sub r st' :
  convert_subtitle dfxp2srt run_ffmpeg linesep writable st sub = PPOk r st' →
  keeps_registered st st' ∧
  (∀ p, usable_track sub = Some p → p ∈ files_to_delete st') ∧
  (∀ sub', r = Some sub' →
     sub_ext sub' = Some (py "vtt") ∧ sub_more sub' = sub_more sub ∧
     ∃ p suffix,
       usable_track sub = Some p ∧ suffix ∈ vtt_suffixes ∧
       sub_filepath sub' = Some (p ++ suffix) ∧
       is_Some (files_to_move st' !! (p ++ suffix))).
Proof.
  unfold convert_subtitle. fold (usable_track sub).
  destruct (usable_track sub) as [p|] eqn:Hp.
  2:{ intros [= <- <-]. split; [apply keeps_registered_refl|]. done. }
  destruct (sub_ext sub) as [ext|]; [|done].
  (* the common part, from the call of FFmpeg on *)
  assert (Htail : ∀ f sa sfx,
    keeps_registered st sa → p ∈ files_to_delete sa ∨ f = p →
    f = p ++ sfx →
    (sfx ++ py ".conv.vtt") ∈ vtt_suffixes →
    (sfx ++ py ".conv.vtt.fix.vtt") ∈ vtt_suffixes →
    match _convert_filepath sa f (py "vtt") (py "conv") with
    | PPRaise e => PPRaise e
    | PPOk new_filepath st0 =>
        match run_ffmpeg (fs st0) f new_filepath [py "-f"; py "webvtt"] with
        | None => PPOk None (pp_delete new_filepath st0)
        | Some fs' =>
            match pp_read_text (pp_set_fs fs' st0) new_filepath with
            | Raise e => PPRaise e
            | Ret webvtt =>
                match
                  (if bool_decide (webvtt ≠ fix_webvtt webvtt)
                   then
                     match _convert_filepath (pp_set_fs fs' st0) new_filepath
                             (py "vtt") (py "fix") with
                     | PPRaise e => PPRaise e
                     | PPOk filepath st1 =>
                         match pp_write_text linesep writable st1 filepath
                                 (fix_webvtt webvtt) with
                         | Raise e => PPRaise e
                         | Ret st2 => PPOk filepath st2
                         end
                     end
                   else PPOk new_filepath (pp_set_fs fs' st0))
                with
                | PPRaise e => PPRaise e
                | PPOk filepath st1 =>
                    PPOk (Some {| sub_filepath := Some filepath;
                                  sub_ext := Some (py "vtt");
                                  sub_more := sub_more sub |}) st1
                end
            end
        end
    end = PPOk r st' →
    keeps_registered st st' ∧ p ∈ files_to_delete st' ∧
    (∀ sub', r = Some sub' →
       sub_ext sub' = Some (py "vtt") ∧ sub_more sub' = sub_more sub ∧
       ∃ q suffix,
         Some p = Some q ∧ suffix ∈ vtt_suffixes ∧
         sub_filepath sub' = Some (q ++ suffix) ∧
         is_Some (files_to_move st' !! (q ++ suffix)))).
  { intros f sa sfx Hsa Hdel -> Hs1 Hs2.
    destruct (_convert_filepath sa (p ++ sfx) (py "vtt") (py "conv"))
      as [f2 sb|] eqn:Hconv; [|done].
    apply convert_filepath_post in Hconv
      as (-> & Hsb & Hfdel & Hnew & Hfs & _ & _).
    assert (Hpdel : p ∈ files_to_delete sb).
    { destruct Hdel as [Hdel|Hdel]; [by apply Hsb|].
      by rewrite <- Hdel. }
    destruct (run_ffmpeg _ _ _ _) as [fs'|].
    2:{ intros [= <- <-]. split; [|split; [|done]].
        - eapply keeps_registered_trans; [exact Hsa|].
          eapply keeps_registered_trans; [exact Hsb|].
          split; simpl; [done|]. intros q Hq. apply elem_of_app. by left.
        - simpl. apply elem_of_app. by left. }
    destruct (pp_read_text _ _) as [webvtt|]; [|done].
    case_bool_decide.
    - destruct (_convert_filepath (pp_set_fs fs' sb) _ (py "vtt") (py "fix"))
        as [f3 sd|] eqn:Hfix; [|done].
      apply convert_filepath_post in Hfix as (-> & Hsd & _ & Hnew3 & _).
      destruct (pp_write_text linesep writable sd _ _) as [se|] eqn:Hwrite;
        [|done].
      apply pp_write_text_post in Hwrite as ->.
      intros [= <- <-]. split; [|split].
      + eapply keeps_registered_trans; [exact Hsa|].
        eapply keeps_registered_trans; [exact Hsb|].
        destruct Hsd as [Hm Hd]. split; simpl; auto.
      + simpl. by apply Hsd.
      + intros sub' [= <-]. simpl. split; [done|]. split; [done|].
        exists p, (sfx ++ py ".conv.vtt.fix.vtt").
        split; [done|]. split; [done|].
        match type of Hnew3 with
        | is_Some (_ !! ?k) =>
            assert (k = p ++ sfx ++ py ".conv.vtt.fix.vtt") as Hk
              by (rewrite <- ?app_assoc; reflexivity)
        end.
        rewrite <- Hk. split; [done|]. exact Hnew3.
    - intros [= <- <-]. split; [|split].
      + eapply keeps_registered_trans; [exact Hsa|].
        destruct Hsb as [Hm Hd]. split; simpl; auto.
      + done.
      + intros sub' [= <-]. simpl. split; [done|]. split; [done|].
        exists p, (sfx ++ py ".conv.vtt").
        split; [done|]. split; [done|].
        match type of Hnew with
        | is_Some (_ !! ?k) =>
            assert (k = p ++ sfx ++ py ".conv.vtt") as Hk
              by (rewrite <- ?app_assoc; reflexivity)
        end.
        rewrite <- Hk. split; [done|]. exact Hnew. }
  intros Hrun.
  assert (keeps_registered st st' ∧ p ∈ files_to_delete st' ∧
          (∀ sub', r = Some sub' →
             sub_ext sub' = Some (py "vtt") ∧ sub_more sub' = sub_more sub ∧
             ∃ q suffix,
               Some p = Some q ∧ suffix ∈ vtt_suffixes ∧
               sub_filepath sub' = Some (q ++ suffix) ∧
               is_Some (files_to_move st' !! (q ++ suffix))))
    as (Hk & Hd & Hr).
  2:{ split; [exact Hk|]. split; [|exact Hr]. by intros q [= <-]. }
  revert Hrun. case_bool_decide as Hfamily.
  - destruct (pp_read_bytes st p) as [data|]; [|done].
    destruct (dfxp2srt data) as [srt|].
    + destruct (_convert_filepath st p (py "srt") (py "conv"))
        as [f1 sa|] eqn:Hconv; [|done].
      apply convert_filepath_post in Hconv as (-> & Hsa & Hdel & _).
      destruct (pp_write_text linesep writable sa _ _) as [sw|] eqn:Hwrite;
        [|done].
      apply pp_write_text_post in Hwrite as ->.
      apply (Htail _ _ (py ".conv.srt")).
      * destruct Hsa as [Hm Hdl]. split; simpl; [|done].
        intros q Hq. by apply Hm.
      * by left.
      * reflexivity.
      * set_solver.
      * set_solver.
    + intros [= <- <-]. split; [|split; [|done]].
      * split; simpl; [done|]. intros q Hq. apply elem_of_app. by left.
      * simpl. apply elem_of_app. right. by left.
  - apply (Htail p st []).
    + apply keeps_registered_refl.
    + by right.
    + by rewrite app_nil_r.
    + set_solver.
    + set_solver.
Qed.

Lemma convert_subtitles_post subs : ∀ st new_subtitles new' st',
  convert_subtitles dfxp2srt run_ffmpeg linesep writable st subs new_subtitles
  = PPOk new' st' →
  keeps_registered st st' ∧
  (∀ lang sub p, (lang, sub) ∈ subs → usable_track sub = Some p →
                 p ∈ files_to_delete st') ∧
  (∀ lang sub', (lang, sub') ∈ new' →
     (lang, sub') ∈ new_subtitles ∨
     (sub_ext sub' = Some (py "vtt") ∧
      ∃ sub p suffix,
        (lang, sub) ∈ subs ∧ usable_track sub = Some p ∧
        suffix ∈ vtt_suffixes ∧
        sub_filepath sub' = Some (p ++ suffix) ∧
        sub_more sub' = sub_more sub ∧
        is_Some (files_to_move st' !! (p ++ suffix)))).
Proof.
  induction subs as [|[lang sub] subs IH]; intros st new_subtitles new' st'.
  - simpl. intros [= <- <-]. split; [apply keeps_registered_refl|].
    split; [by intros ??? ?%elem_of_nil|]. intros ?? ?. by left.
  - simpl.
    destruct (convert_subtitle dfxp2srt run_ffmpeg linesep writable st sub)
      as [r sa|] eqn:Hone; [|done].
    apply convert_subtitle_post in Hone as (Hsa & Hdel & Hr).
    assert (∀ new1,
      convert_subtitles dfxp2srt run_ffmpeg linesep writable sa subs new1
      = PPOk new' st' →
      keeps_registered sa st' ∧ keeps_registered st st' ∧
      (∀ lang0 sub0 p, (lang0, sub0) ∈ (lang, sub) :: subs →
                       usable_track sub0 = Some p →
                       p ∈ files_to_delete st') ∧
      (∀ lang0 sub', (lang0, sub') ∈ new' →
         (lang0, sub') ∈ new1 ∨
         (sub_ext sub' = Some (py "vtt") ∧
          ∃ sub0 p suffix,
            (lang0, sub0) ∈ subs ∧ usable_track sub0 = Some p ∧
            suffix ∈ vtt_suffixes ∧
            sub_filepath sub' = Some (p ++ suffix) ∧
            sub_more sub' = sub_more sub0 ∧
            is_Some (files_to_move st' !! (p ++ suffix))))) as Hrest.
    { intros new1 Hrun. apply IH in Hrun as (Hst' & Hdel' & Hnew').
      split; [exact Hst'|].
      split; [by eapply keeps_registered_trans|]. split; [|exact Hnew'].
      intros lang0 sub0 p [[= -> ->]|Hin]%elem_of_cons Hp.
      - by apply Hst', Hdel.
      - by eapply Hdel'. }
    destruct r as [sub1|]; intros Hrun;
      apply Hrest in Hrun as ([Hm' _] & Hst' & Hdel' & Hnew');
      (split; [exact Hst'|]; split; [exact Hdel'|]).
    + intros lang0 sub' Hin.
      destruct (Hnew' lang0 sub' Hin) as [Hold|(Hext & sub0 & p & sfx & H)].
      * apply elem_of_dict_set in Hold as [[= -> ->]|Hold]; [|by left].
        right. destruct (Hr sub1 eq_refl) as (Hext & Hmore & p & sfx & H).
        split; [exact Hext|]. exists sub, p, sfx.
        destruct H as (Hp & Hsfx & Hpath & Hreg).
        split; [by left|]. split; [exact Hp|]. split; [exact Hsfx|].
        split; [exact Hpath|]. split; [exact Hmore|].
        by apply Hm'.
      * right. split; [exact Hext|]. exists sub0, p, sfx.
        destruct H as (Hin0 & H). split; [by right|exact H].
    + intros lang0 sub' Hin.
      destruct (Hnew' lang0 sub' Hin) as [Hold|(Hext & sub0 & p & sfx & H)];
        [by left|].
      right. split; [exact Hext|]. exists sub0, p, sfx.
      destruct H as (Hin0 & H). split; [by right|exact H].
Qed.
End SubtitlesMore.

(** X5: whenever [SubtitlesConverterPP.run] returns, whatever the
    converters do, every track of the new [requested_subtitles] is a WEBVTT
    track that stands for a track of the old ones with a file: its path is
    that file's path followed by the extensions of the conversions it went
    through, it is registered in [info['__files_to_move']], and its other
    keys are copied; and the file of every old track is left to be
    deleted. *)
Theorem subtitles_result_is_webvtt
    (dfxp2srt : pystr → option pystr)
    (run_ffmpeg : gmap pystr pystr → pystr → pystr → list pystr →
                  option (gmap pystr pystr))
    (linesep : pystr) (writable : gmap pystr pystr → pystr → bool)
    (requested_subtitles : option (list (pystr * Subtitle)))
    (moves fs0 : gmap pystr pystr)
    (new_subtitles : list (pystr * Subtitle)) (st : PPState) :
  SubtitlesConverterPP_run dfxp2srt run_ffmpeg linesep writable
                           requested_subtitles moves fs0
  = PPOk new_subtitles st →
  (∀ lang sub', (lang, sub') ∈ new_subtitles →
     sub_ext sub' = Some (py "vtt") ∧
     ∃ sub p suffix,
       (lang, sub) ∈ default [] requested_subtitles ∧
       usable_track sub = Some p ∧ suffix ∈ vtt_suffixes ∧
       sub_filepath sub' = Some (p ++ suffix) ∧
       sub_more sub' = sub_more sub ∧
       is_Some (files_to_move st !! (p ++ suffix))) ∧
  (∀ lang sub p, (lang, sub) ∈ default [] requested_subtitles →
                 usable_track sub = Some p → p ∈ files_to_delete st) ∧
  (∀ p, is_Some (moves !! p) → is_Some (files_to_move st !! p)).
Proof.
  unfold SubtitlesConverterPP_run. intros Hrun.
  apply convert_subtitles_post in Hrun as ([Hm _] & Hdel & Hnew).
  split; [|split; [exact Hdel|exact Hm]].
  intros lang sub' Hin.
  destruct (Hnew lang sub' Hin) as [Hold|H]; [by apply elem_of_nil in Hold|].
  exact H.
Qed.

Lemma subtitles_result_is_webvtt_witness :
  ∃ st,
    SubtitlesConverterPP_run sample_dfxp2srt sample_run_ffmpeg
      posix_linesep roomy_disk (Some three_tracks) three_moves three_files
    = PPOk [(py "en", track (py "en.vtt.conv.vtt") (py "vtt"))] st ∧
    is_Some (files_to_move st !! py "en.vtt.conv.vtt") ∧
    py "de.ttml" ∈ files_to_delete st ∧ py "fr.vtt" ∈ files_to_delete st.
Proof.
  destruct (SubtitlesConverterPP_run sample_dfxp2srt sample_run_ffmpeg
              posix_linesep roomy_disk (Some three_tracks) three_moves
              three_files)
    as [new st|] eqn:Hrun; [|by vm_compute in Hrun].
  pose proof (subtitles_result_is_webvtt _ _ _ _ _ _ _ _ _ Hrun)
    as (Hnew & Hdel & _).
  assert (new = [(py "en", track (py "en.vtt.conv.vtt") (py "vtt"))]) as ->.
  { vm_compute in Hrun. by injection Hrun as <- _. }
  exists st. split; [done|]. split; [|split].
  - destruct (Hnew (py "en") (track (py "en.vtt.conv.vtt") (py "vtt")))
      as (_ & sub & p & sfx & _ & _ & _ & Hpath & _ & Hreg); [by left|].
    injection Hpath as Hpath. by rewrite Hpath.
  - apply (Hdel (py "de") (track (py "de.ttml") (py "ttml")));
      [right; by left|done].
  - apply (Hdel (py "fr") (track (py "fr.vtt") (py "vtt")));
      [right; right; by left|done].
Defined.

(** X6: a track that names no file (no ['filepath'] key, or an empty one)
    is passed over and is not taken into the new [requested_subtitles];
    when no track names a file, and when there are no tracks at all, the
    post-processor calls no converter, leaves no file to be deleted and
    returns an empty dictionary. *)
Theorem subtitles_without_files_are_dropped
    (dfxp2srt : pystr → option pystr)
    (run_ffmpeg : gmap pystr pystr → pystr → pystr → list pystr →
                  option (gmap pystr pystr))
    (linesep : pystr) (writable : gmap pystr pystr → pystr → bool)
    (requested_subtitles : option (list (pystr * Subtitle)))
    (moves fs0 : gmap pystr pystr) :
  Forall (λ kv, usable_track kv.2 = None) (default [] requested_subtitles) →
  SubtitlesConverterPP_run dfxp2srt run_ffmpeg linesep writable
                           requested_subtitles moves fs0
  = PPOk [] (pp_start moves fs0).
Proof.
  unfold SubtitlesConverterPP_run. fold (pp_start moves fs0).
  generalize (pp_start moves fs0) as st.
  induction (default [] requested_subtitles) as [|[lang sub] subs IH];
    intros st Hnone; [done|].
  apply Forall_cons in Hnone as [Hsub Hnone]. simpl in *.
  unfold convert_subtitle. fold (usable_track sub). rewrite Hsub.
  by apply IH.
Qed.

Lemma subtitles_without_files_are_dropped_witness :
  SubtitlesConverterPP_run sample_dfxp2srt sample_run_ffmpeg
    posix_linesep roomy_disk
    (Some [(py "en", track_without_file)]) three_moves three_files
  = PPOk [] (pp_start three_moves three_files).
Proof.
  apply (subtitles_without_files_are_dropped sample_dfxp2srt sample_run_ffmpeg
           posix_linesep roomy_disk (Some [(py "en", track_without_file)])).
  repeat constructor.
Defined.

(** X7: a track is kept only if FFmpeg has converted it.  When FFmpeg fails
    on every track, the post-processor returns without any subtitles: the
    tracks are not kept in their old format. *)
Theorem subtitles_dropped_when_ffmpeg_fails
    (dfxp2srt : pystr → option pystr)
    (run_ffmpeg : gmap pystr pystr → pystr → pystr → list pystr →
                  option (gmap pystr pystr))
    (linesep : pystr) (writable : gmap pystr pystr → pystr → bool)
    (requested_subtitles : option (list (pystr * Subtitle)))
    (moves fs0 : gmap pystr pystr)
    (new_subtitles : list (pystr * Subtitle)) (st : PPState) :
  (∀ fs path out opts, run_ffmpeg fs path out opts = None) →
  SubtitlesConverterPP_run dfxp2srt run_ffmpeg linesep writable
                           requested_subtitles moves fs0
  = PPOk new_subtitles st →
  new_subtitles = [].
Proof.
  intros Hfail. unfold SubtitlesConverterPP_run.
  generalize (pp_start moves fs0) as st0. unfold pp_start.
  change {| files_to_delete := []; files_to_move := moves; fs := fs0;
            callbacks := [] |} with (pp_start moves fs0).
  generalize (pp_start moves fs0) as st1. intros st1 _. revert st1.
  induction (default [] requested_subtitles) as [|[lang sub] subs IH];
    intros st1; simpl; [by intros [= <- _]|].
  destruct (convert_subtitle dfxp2srt run_ffmpeg linesep writable st1 sub)
    as [r sa|] eqn:Hone; [|done].
  assert (r = None) as ->; [|apply IH].
  revert Hone. unfold convert_subtitle.
  repeat (case_match; try done); rewrite ?Hfail in *; congruence.
Qed.

Lemma subtitles_dropped_when_ffmpeg_fails_witness :
  ∃ st,
    SubtitlesConverterPP_run sample_dfxp2srt failing_ffmpeg
      posix_linesep roomy_disk (Some three_tracks) three_moves three_files
    = PPOk [] st.
Proof.
  destruct (SubtitlesConverterPP_run sample_dfxp2srt failing_ffmpeg
              posix_linesep roomy_disk (Some three_tracks) three_moves
              three_files)
    as [new st|] eqn:Hrun; [|by vm_compute in Hrun].
  exists st. f_equal.
  by apply (subtitles_dropped_when_ffmpeg_fails sample_dfxp2srt failing_ffmpeg
              posix_linesep roomy_disk (Some three_tracks) three_moves
              three_files new st).
Defined.

(** X8: the file of a track that is kept holds the repair of the text that
    is read from the file FFmpeg has written, that is, of its bytes decoded
    as UTF-8 with every line end turned into a line feed.  When the repair
    changes nothing in that text, the track names the file FFmpeg has
    written, which is left as it is; when it does, the track names that
    file followed by [.fix.vtt], which holds the repaired text with the
    line ends of the platform. *)
Theorem converted_track_is_repaired
    (dfxp2srt : pystr → option pystr)
    (run_ffmpeg : gmap pystr pystr → pystr → pystr → list pystr →
                  option (gmap pystr pystr))
    (linesep : pystr) (writable : gmap pystr pystr → pystr → bool)
    (st : PPState) (sub sub' : Subtitle) (st' : PPState) :
  convert_subtitle dfxp2srt run_ffmpeg linesep writable st sub
  = PPOk (Some sub') st' →
  ∃ fs_in input out fs_out data,
    run_ffmpeg fs_in input out [py "-f"; py "webvtt"] = Some fs_out ∧
    fs_out !! out = Some data ∧ well_formed data = true ∧
    let webvtt := universal_newlines data in
    if bool_decide (fix_webvtt webvtt = webvtt)
    then sub_filepath sub' = Some out ∧ fs st' !! out = Some data
    else sub_filepath sub' = Some (out ++ py ".fix.vtt") ∧
         fs st' !! (out ++ py ".fix.vtt")
         = Some (write_newlines linesep (fix_webvtt webvtt)).
Proof.
  unfold convert_subtitle.
  destruct (truthy (sub_filepath sub)) as [p|]; [|done].
  destruct (sub_ext sub) as [ext|]; [|done].
  match goal with
  | |- context [if bool_decide (ext ∈ ?l) then ?a else ?b] =>
      destruct (if bool_decide (ext ∈ l) then a else b)
        as [[f|] sa|]; [|done|done]
  end.
  destruct (_convert_filepath sa f (py "vtt") (py "conv")) as [out sb|];
    [|done].
  destruct (run_ffmpeg (fs sb) f out [py "-f"; py "webvtt"]) as [fs'|] eqn:Hff;
    [|done].
  destruct (pp_read_text (pp_set_fs fs' sb) out) as [webvtt|] eqn:Hread;
    [|done].
  apply pp_read_text_post in Hread as (data & Hout & Hdata & ->).
  simpl in Hout.
  exists (fs sb), f, out, fs', data.
  split; [exact Hff|]. split; [exact Hout|]. split; [exact Hdata|].
  cbv zeta. revert H. case_bool_decide as Hchanged.
  - rewrite bool_decide_eq_false_2 by congruence.
    destruct (_convert_filepath (pp_set_fs fs' sb) out (py "vtt") (py "fix"))
      as [f3 sd|] eqn:Hfix; [|done].
    apply convert_filepath_post in Hfix as (-> & _).
    destruct (pp_write_text linesep writable sd _ _) as [se|] eqn:Hwrite;
      [|done].
    apply pp_write_text_post in Hwrite as ->.
    intros [= <- <-]. simpl. split; [done|]. by rewrite lookup_insert_eq.
  - assert (fix_webvtt (universal_newlines data) = universal_newlines data)
      as Hsame.
    { destruct (decide (universal_newlines data
                        = fix_webvtt (universal_newlines data)));
        [done|by destruct Hchanged]. }
    rewrite bool_decide_eq_true_2 by exact Hsame.
    intros [= <- <-]. simpl. by split.
Qed.

Lemma converted_track_is_repaired_witness :
  ∃ st',
    convert_subtitle sample_dfxp2srt dos_ffmpeg posix_linesep roomy_disk
      (pp_start three_moves three_files) (track (py "en.vtt") (py "vtt"))
    = PPOk (Some (track (py "en.vtt.conv.vtt.fix.vtt") (py "vtt"))) st' ∧
    universal_newlines (crlf broken_cues) = broken_cues ∧
    fs st' !! py "en.vtt.conv.vtt" = Some (crlf broken_cues) ∧
    fs st' !! py "en.vtt.conv.vtt.fix.vtt" = Some (fix_webvtt broken_cues).
Proof.
  destruct (convert_subtitle sample_dfxp2srt dos_ffmpeg posix_linesep
              roomy_disk (pp_start three_moves three_files)
              (track (py "en.vtt") (py "vtt")))
    as [[sub'|] st'|] eqn:Hrun;
    [|by vm_compute in Hrun|by vm_compute in Hrun].
  assert (sub' = track (py "en.vtt.conv.vtt.fix.vtt") (py "vtt")) as ->.
  { vm_compute in Hrun. by injection Hrun as <- _. }
  assert (Hun : universal_newlines (crlf broken_cues) = broken_cues)
    by (vm_compute; reflexivity).
  destruct (converted_track_is_repaired _ _ _ _ _ _ _ _ Hrun)
    as (fs_in & input & out & fs_out & data & Hff & Hout & _ & Hcase).
  unfold dos_ffmpeg in Hff. apply (inj Some) in Hff. subst fs_out.
  rewrite lookup_insert_eq in Hout. apply (inj Some) in Hout. subst data.
  cbv zeta in Hcase. rewrite Hun in Hcase.
  rewrite bool_decide_eq_false_2 in Hcase
    by (intros Hfix; vm_compute in Hfix; discriminate Hfix).
  destruct Hcase as [Hpath Hfile].
  assert (out ++ py ".fix.vtt" = py "en.vtt.conv.vtt.fix.vtt") as Hname.
  { symmetry. exact (inj Some _ _ Hpath). }
  rewrite Hname in Hfile.
  exists st'. split; [reflexivity|]. split; [exact Hun|]. split.
  - vm_compute in Hrun. injection Hrun as <-. vm_compute. reflexivity.
  - rewrite Hfile. vm_compute. reflexivity.
Defined.

(** ** The thumbnail pipeline, without any assumption on the thumbnails *)

Section ThumbnailsMore.
Variable real_run_ffmpeg :
  gmap pystr pystr → list (pystr * list pystr) → list (pystr * list pystr) →
  option (gmap pystr pystr).
Variable abspath : pystr → pystr.
Variable callback : bool.

(** What the loop leaves behind, entered with no thumbnail converted yet,
    whenever it does not raise. *)
Lemma convert_thumbnails_post thumbs : ∀ st new' st',
  convert_thumbnails real_run_ffmpeg abspath callback st thumbs []
  = PPOk new' st' →
  keeps_registered st st' ∧
  (∀ thumb p, thumb ∈ thumbs → usable_path thumb = Some p →
              p ∈ files_to_delete st') ∧
  (∀ q, q ∈ files_to_delete st' →
        q ∈ files_to_delete st ∨
        ∃ thumb p, thumb ∈ thumbs ∧ usable_path thumb = Some p ∧
                   (q = p ∨
                    q = conv_jpg p ∧
                    ffmpeg_thumbnail real_run_ffmpeg (fs st) p = None)) ∧
  (new' = [] ∧ callbacks st' = callbacks st ∧ fs st' = fs st
   ∨ ∃ thumb p,
       thumb ∈ thumbs ∧ usable_path thumb = Some p ∧
       new' = [converted thumb p] ∧
       callbacks st'
       = callbacks st ++ (if callback then [abspath (conv_jpg p)] else []) ∧
       ffmpeg_thumbnail real_run_ffmpeg (fs st) p = Some (fs st') ∧
       is_Some (files_to_move st' !! conv_jpg p)).
Proof.
  induction thumbs as [|thumb thumbs IH]; intros st new' st'.
  - simpl. intros [= <- <-]. split; [apply keeps_registered_refl|].
    split; [by intros ?? ?%elem_of_nil|]. split; [by left|by left].
  - simpl. fold (usable_path thumb).
    destruct (usable_path thumb) as [p|] eqn:Hp.
    2:{ intros (Hm & Hdel & Hback & Hnew)%IH. split; [exact Hm|].
        split; [|split].
        - intros t q [->|Hin]%elem_of_cons Hq; [congruence|by eapply Hdel].
        - intros q Hq. destruct (Hback q Hq) as [?|(t & r & Hin & H)];
            [by left|right]. exists t, r. split; [by right|exact H].
        - destruct Hnew as [Hnew|(t & r & Hin & H)]; [by left|right].
          exists t, r. split; [by right|exact H]. }
    destruct (_convert_filepath st p (py "jpg") (py "conv")) as [f sa|] eqn:Hc;
      [|done].
    apply convert_filepath_post in Hc
      as (-> & [Hsa_m Hsa_d] & Hpdel & Hreg & Hfs & Hcb & Hdel_sa).
    change (p ++ py "." ++ py "conv" ++ py "." ++ py "jpg")
      with (conv_jpg p) in *.
    fold (ffmpeg_thumbnail real_run_ffmpeg (fs sa) p). rewrite Hfs.
    destruct (ffmpeg_thumbnail real_run_ffmpeg (fs st) p) as [fs'|] eqn:Hff.
    + rewrite convert_thumbnails_rest. intros [= <- <-]. simpl.
      split; [|split; [|split]].
      * split; simpl.
        -- intros q Hq. destruct callback; simpl; by apply Hsa_m.
        -- intros q Hq. apply elem_of_app. left.
           destruct callback; simpl; by apply Hsa_d.
      * intros t q [->|Hin]%elem_of_cons Hq.
        -- assert (q = p) as -> by congruence.
           apply elem_of_app. left. by destruct callback.
        -- apply elem_of_app. right. unfold usable_paths.
           apply list_elem_of_omap. by exists t.
      * intros q [Hq|Hq]%elem_of_app.
        -- assert (q ∈ files_to_delete sa) as Hq' by (by destruct callback).
           rewrite Hdel_sa in Hq'.
           apply elem_of_app in Hq' as [Hq'|Hq']; [by left|right].
           apply list_elem_of_singleton in Hq' as ->.
           exists thumb, p. split; [by left|]. split; [done|by left].
        -- right. unfold usable_paths in Hq.
           apply list_elem_of_omap in Hq as (t & Hin & Ht).
           exists t, q. split; [by right|]. split; [done|by left].
      * right. exists thumb, p. split; [by left|]. split; [done|].
        split; [done|]. split; [|split].
        -- destruct callback; simpl; [by rewrite Hcb|].
           by rewrite app_nil_r, Hcb.
        -- by destruct callback.
        -- by destruct callback.
    + intros ([Hm Hd] & Hdel & Hback & Hnew)%IH. simpl in *.
      split; [|split; [|split]].
      * split.
        -- intros q Hq. by apply Hm, Hsa_m.
        -- intros q Hq. apply Hd, elem_of_app. left. by apply Hsa_d.
      * intros t q [->|Hin]%elem_of_cons Hq.
        -- assert (q = p) as -> by congruence.
           apply Hd, elem_of_app. by left.
        -- by eapply Hdel.
      * intros q Hq. destruct (Hback q Hq) as [Hq'|(t & r & Hin & Hr & H)].
        -- rewrite Hdel_sa in Hq'.
           apply elem_of_app in Hq' as [[Hq'|Hq']%elem_of_app|Hq'].
           ++ by left.
           ++ apply list_elem_of_singleton in Hq' as ->. right.
              exists thumb, p. split; [by left|]. split; [done|by left].
           ++ apply list_elem_of_singleton in Hq' as ->. right.
              exists thumb, p. split; [by left|]. split; [done|by right].
        -- right. exists t, r. split; [by right|]. split; [done|].
           by rewrite <- Hfs.
      * destruct Hnew as [(-> & Hcb' & Hfs')|(t & r & Hin & Hr & H)].
        -- left. split; [done|]. split; congruence.
        -- right. exists t, r. split; [by right|]. split; [done|].
           by rewrite <- Hfs, <- Hcb.
Qed.
End ThumbnailsMore.

(** X9: whenever [ThumbnailConverterPP.run] returns, whatever FFmpeg does,
    at most one thumbnail is left.  If one is left, it is the JPEG that
    FFmpeg has made of a thumbnail of the list with a file: its path is that
    file's path followed by [.conv.jpg], it is registered in
    [info['__files_to_move']], its other keys are copied, and the callback,
    if there is one, has been called exactly once, with the absolute path
    of the JPEG.  If none is left, the callback has not been called. *)
Theorem thumbnail_at_most_one
    (real_run_ffmpeg : gmap pystr pystr → list (pystr * list pystr) →
                       list (pystr * list pystr) → option (gmap pystr pystr))
    (abspath : pystr → pystr) (callback : bool)
    (thumbnails : option (list Thumbnail)) (moves fs0 : gmap pystr pystr)
    (new_thumbnails : list Thumbnail) (st : PPState) :
  ThumbnailConverterPP_run real_run_ffmpeg abspath callback thumbnails
                           moves fs0
  = PPOk new_thumbnails st →
  new_thumbnails = [] ∧ callbacks st = [] ∧ fs st = fs0
  ∨ ∃ thumb p,
      thumb ∈ default [] thumbnails ∧ usable_path thumb = Some p ∧
      new_thumbnails = [converted thumb p] ∧
      callbacks st = (if callback then [abspath (conv_jpg p)] else []) ∧
      ffmpeg_thumbnail real_run_ffmpeg fs0 p = Some (fs st) ∧
      is_Some (files_to_move st !! conv_jpg p).
Proof.
  unfold ThumbnailConverterPP_run.
  intros (_ & _ & _ & Hnew)%convert_thumbnails_post.
  destruct Hnew as [Hnew|(thumb & p & Hin & H)]; [by left|right].
  exists thumb, p. split; [by apply elem_of_reverse|exact H].
Qed.

Lemma thumbnail_at_most_one_witness :
  ∃ st,
    ThumbnailConverterPP_run picky_ffmpeg (λ p, p) true
      (Some two_thumbnails) two_moves two_files
    = PPOk [converted (thumb_at (py "a.webp")) (py "a.webp")] st ∧
    callbacks st = [py "a.webp.conv.jpg"] ∧
    is_Some (files_to_move st !! py "a.webp.conv.jpg").
Proof.
  destruct (ThumbnailConverterPP_run picky_ffmpeg (λ p, p) true
              (Some two_thumbnails) two_moves two_files)
    as [new st|] eqn:Hrun; [|by vm_compute in Hrun].
  pose proof (thumbnail_at_most_one _ _ _ _ _ _ _ _ Hrun) as Hpost.
  assert (new = [converted (thumb_at (py "a.webp")) (py "a.webp")]) as ->.
  { vm_compute in Hrun. by injection Hrun as <- _. }
  exists st. split; [done|].
  destruct Hpost as [[[=] _]|(thumb & p & _ & _ & Hnew & Hcb & _ & Hreg)].
  injection Hnew as Hp _.
  assert (conv_jpg p = py "a.webp.conv.jpg") as Hq by done.
  rewrite Hq in Hcb, Hreg. done.
Defined.

(** X10: whenever [ThumbnailConverterPP.run] returns, the file of every
    thumbnail of the list is left to be deleted, the one that has been
    converted included; and nothing else is, but the JPEGs of the
    thumbnails on which FFmpeg has failed. *)
Theorem thumbnail_files_to_delete
    (real_run_ffmpeg : gmap pystr pystr → list (pystr * list pystr) →
                       list (pystr * list pystr) → option (gmap pystr pystr))
    (abspath : pystr → pystr) (callback : bool)
    (thumbnails : option (list Thumbnail)) (moves fs0 : gmap pystr pystr)
    (new_thumbnails : list Thumbnail) (st : PPState) :
  ThumbnailConverterPP_run real_run_ffmpeg abspath callback thumbnails
                           moves fs0
  = PPOk new_thumbnails st →
  (∀ thumb p, thumb ∈ default [] thumbnails → usable_path thumb = Some p →
              p ∈ files_to_delete st) ∧
  (∀ q, q ∈ files_to_delete st →
        ∃ thumb p,
          thumb ∈ default [] thumbnails ∧ usable_path thumb = Some p ∧
          (q = p ∨
           q = conv_jpg p ∧ ffmpeg_thumbnail real_run_ffmpeg fs0 p = None)).
Proof.
  unfold ThumbnailConverterPP_run.
  intros (_ & Hdel & Hback & _)%convert_thumbnails_post. split.
  - intros thumb p Hin. apply Hdel. by apply elem_of_reverse.
  - intros q Hq.
    destruct (Hback q Hq) as [Hnil|(thumb & p & Hin & H)];
      [by apply elem_of_nil in Hnil|].
    exists thumb, p. split; [by apply elem_of_reverse|exact H].
Qed.

Lemma thumbnail_files_to_delete_witness :
  ∃ new st,
    ThumbnailConverterPP_run picky_ffmpeg (λ p, p) true
      (Some two_thumbnails) two_moves two_files
    = PPOk new st ∧
    py "a.webp" ∈ files_to_delete st ∧ py "b.webp" ∈ files_to_delete st.
Proof.
  destruct (ThumbnailConverterPP_run picky_ffmpeg (λ p, p) true
              (Some two_thumbnails) two_moves two_files)
    as [new st|] eqn:Hrun; [|by vm_compute in Hrun].
  pose proof (thumbnail_files_to_delete _ _ _ _ _ _ _ _ Hrun) as [Hdel _].
  exists new, st. split; [done|]. split.
  - apply (Hdel (thumb_at (py "a.webp"))); [by left|done].
  - apply (Hdel (thumb_at (py "b.webp"))); [right; by left|done].
Defined.

(** ** The logger *)

(** X11: a tick of a download in progress or finished that names no file
    makes [_on_progress] raise [KeyError], before any call of the
    handler. *)
Theorem on_progress_needs_filename (d : Tick) (s : Slave) :
  tick_status d ∈ [py "downloading"; py "finished"] →
  tick_filename d = None →
  _on_progress d s = Crash KeyError s.
Proof.
  intros Hstatus Hname. unfold _on_progress.
  rewrite bool_decide_eq_true_2 by done. simpl. by rewrite Hname.
Qed.

Lemma on_progress_needs_filename_witness :
  _on_progress nameless_tick (new_slave login_handler)
  = Crash KeyError (new_slave login_handler).
Proof.
  apply (on_progress_needs_filename nameless_tick (new_slave login_handler)).
  - by left.
  - reflexivity.
Defined.

(** X12: a line that asks for no authentication, and any line at all once
    authentication requests are switched off, is fatal unless it is the
    warning about extended attributes: the line is printed, handed to
    [on_error], and the slave exits with status 1.  The warning is printed
    and nothing else happens.  Neither the counters nor the options
    change. *)
Theorem error_unrelated_line (handler : Handler) (world : World)
    (msg : pystr) (s : Slave) :
  _allow_authentication_request s = false ∨
  needs_login world msg = false ∧ needs_video_password msg = false →
  error handler world msg s
  = if xattr_unsupported msg then Done () (emit (EvStderr msg) s)
    else Exit 1 (emit (EvOnError msg) (emit (EvStderr msg) s)).
Proof.
  intros Hcase. unfold error. run_monad.
  destruct Hcase as [Ha|[Hl Hp]].
  - rewrite Ha. simpl. by destruct (xattr_unsupported msg).
  - rewrite Hl, Hp, !andb_false_r. by destruct (xattr_unsupported msg).
Qed.

Lemma error_unrelated_line_witness :
  error login_handler gated_world unsupported_line (new_slave login_handler)
  = Exit 1 (emit (EvOnError unsupported_line)
              (emit (EvStderr unsupported_line) (new_slave login_handler))).
Proof.
  apply (error_unrelated_line login_handler gated_world unsupported_line
           (new_slave login_handler)).
  right. split; vm_compute; reflexivity.
Defined.

(** X13: a line that asks for a video password, and for no login, while
    authentication requests are allowed and none has been declined: the
    handler is asked once, and a password that is not empty is stored under
    ['videopassword'], authentication requests are switched off and
    [RetryException] is raised.  The user name, the password of the login
    and the count of skipped items stay as they are. *)
Theorem video_password_retries (handler : Handler) (world : World)
    (msg : pystr) (s : Slave) (password : pystr) :
  _allow_authentication_request s = true →
  _skip_authentication s = false →
  needs_login world msg = false →
  needs_video_password msg = true →
  on_password_request handler (trace (emit (EvStderr msg) s)) = password →
  (∃ c p, password = c :: p) →
  let s' :=
    set_allow false
      (update_opts (set_videopassword password)
         (emit EvPasswordRequest (emit (EvStderr msg) s))) in
  error handler world msg s = Retry msg s' ∧
  opt_videopassword (ydl_opts s') = Some password ∧
  opt_username (ydl_opts s') = opt_username (ydl_opts s) ∧
  opt_password (ydl_opts s') = opt_password (ydl_opts s) ∧
  _allow_authentication_request s' = false ∧
  _skipped_count s' = _skipped_count s ∧
  trace s' = trace s ++ [EvStderr msg; EvPasswordRequest].
Proof.
  intros Ha Hs Hl Hp Hr (c & p & Hne) s'. subst s'.
  split; [|repeat split; simpl; by rewrite <- ?app_assoc].
  unfold error. run_monad. rewrite Ha, Hs, Hl, Hp. simpl in *.
  rewrite Hr. unfold str_eqb.
  rewrite bool_decide_eq_false_2 by (by rewrite Hne). reflexivity.
Qed.

Lemma video_password_retries_witness :
  ∃ s',
    error password_handler gated_world video_password_line
          (new_slave password_handler)
    = Retry video_password_line s' ∧
    opt_videopassword (ydl_opts s') = Some (py "secret") ∧
    _allow_authentication_request s' = false.
Proof.
  destruct (video_password_retries password_handler gated_world
              video_password_line (new_slave password_handler) (py "secret"))
    as (Hretry & Hpw & _ & _ & Hallow & _).
  - reflexivity.
  - reflexivity.
  - vm_compute. reflexivity.
  - vm_compute. reflexivity.
  - reflexivity.
  - by eexists _, _.
  - eexists. split; [exact Hretry|]. split; [exact Hpw|exact Hallow].
Defined.

(** X14: the login comes first.  A line that asks for a login is answered
    with a login request also when it names [--video-password]: however the
    request ends, no password request is made and no video password is
    stored. *)
Theorem login_request_comes_first (handler : Handler) (world : World)
    (msg : pystr) (s : Slave) :
  _allow_authentication_request s = true →
  _skip_authentication s = false →
  needs_login world msg = true →
  let s' := final_state (error handler world msg s) in
  trace s' = trace s ++ [EvStderr msg; EvLoginRequest] ∧
  opt_videopassword (ydl_opts s') = opt_videopassword (ydl_opts s).
Proof.
  intros Ha Hs Hl. unfold error. run_monad. rewrite Ha, Hs, Hl. simpl.
  destruct (on_login_request handler (trace s ++ [EvStderr msg]))
    as [user password].
  destruct (str_eqb user [] && str_eqb password []); simpl;
    by rewrite <- app_assoc.
Qed.

Lemma login_request_comes_first_witness :
  needs_video_password both_line = true ∧
  let s' := final_state (error password_handler gated_world both_line
                           (new_slave password_handler)) in
  trace s' = [EvStderr both_line; EvLoginRequest] ∧
  opt_videopassword (ydl_opts s') = None.
Proof.
  split; [vm_compute; reflexivity|].
  apply (login_request_comes_first password_handler gated_world both_line
           (new_slave password_handler)).
  - reflexivity.
  - reflexivity.
  - vm_compute. reflexivity.
Defined.

Section LoginLines.
Variable world : World.

Lemma sign_in_here_spec prev s :
  sign_in_here world prev s = true ↔
  ∃ c post, s = c :: py "ign in" ++ post ∧ (c = 83%N ∨ c = 115%N) ∧
            boundary world prev (Some c) = true ∧
            boundary world (Some 110%N) (head post) = true.
Proof.
  unfold sign_in_here. destruct s as [|c s]; [split; [done|]|].
  { by intros (c & post & [=] & _). }
  rewrite !andb_true_iff, orb_true_iff, !N.eqb_eq, startswith_spec. split.
  - intros [[[Hc [post ->]] Hb1] Hb2]. exists c, post. done.
  - intros (c' & post & [= -> ->] & Hc & Hb1 & Hb2).
    split; [|done]. split; [|done]. split; [done|]. by exists post.
Qed.

Lemma char_before_cons prev c pre :
  char_before prev (c :: pre) = char_before (Some c) pre.
Proof.
  unfold char_before. destruct pre as [|d pre]; [done|].
  change (last (c :: d :: pre)) with (last (d :: pre)).
  destruct (last (d :: pre)) eqn:Hlast; [done|].
  by apply last_None in Hlast.
Qed.

Lemma sign_in_search_spec s : ∀ prev,
  sign_in_search world prev s = true ↔
  (∃ pre post, s = pre ++ py "--username" ++ post) ∨
  (∃ pre c post,
     s = pre ++ c :: py "ign in" ++ post ∧ (c = 83%N ∨ c = 115%N) ∧
     boundary world (char_before prev pre) (Some c) = true ∧
     boundary world (Some 110%N) (head post) = true).
Proof.
  induction s as [|d s IH]; intros prev.
  - split; [done|]. intros [(pre & post & H)|(pre & c & post & H & _)].
    + by destruct pre.
    + by destruct pre.
  - cbn [sign_in_search]. rewrite !orb_true_iff, sign_in_here_spec,
      startswith_spec, IH. split.
    + intros [[(c & post & -> & H)|[post ->]]|Hrest].
      * right. exists [], c, post. done.
      * left. by exists [], post.
      * destruct Hrest as [(pre & post & ->)|(pre & c & post & -> & H)].
        -- left. by exists (d :: pre), post.
        -- right. exists (d :: pre), c, post. by rewrite char_before_cons.
    + intros [(pre & post & H)|(pre & c & post & H & Hc)].
      * destruct pre as [|e pre].
        -- left. right. by exists post.
        -- injection H as -> ->. right. left. by exists pre, post.
      * destruct pre as [|e pre].
        -- left. left. exists c, post. done.
        -- injection H as -> ->. right. right. exists pre, c, post.
           by rewrite <- char_before_cons with (prev := prev).
Qed.
End LoginLines.

(** X15: what the classifier takes for a line that asks for a login, as
    [re.search(r'\b[Ss]ign in\b|--username', msg)] does: the text
    [--username] anywhere in the line, or [Sign in] or [sign in] with a word
    boundary on either side. *)
Theorem needs_login_spec (world : World) (msg : pystr) :
  needs_login world msg = true ↔
  (∃ pre post, msg = pre ++ py "--username" ++ post) ∨
  (∃ pre c post,
     msg = pre ++ c :: py "ign in" ++ post ∧ (c = 83%N ∨ c = 115%N) ∧
     boundary world (last pre) (Some c) = true ∧
     boundary world (Some 110%N) (head post) = true).
Proof.
  unfold needs_login. rewrite sign_in_search_spec.
  assert (∀ pre, char_before None pre = last pre) as Hlast.
  { intros pre. unfold char_before. by destruct (last pre). }
  split; (intros [H|(pre & c & post & H)]; [by left|right]);
    exists pre, c, post; [by rewrite <- Hlast|by rewrite Hlast].
Qed.

(** ** Runs that keep a relation *)

Section Keeps.
Context (R : relation Slave) `{!PreOrder R}.
Context {A B : Type}.

Lemma keeps_ret (a : A) : keeps R (mret a : M A).
Proof. intros s. simpl. reflexivity. Qed.

Lemma keeps_get : keeps R get.
Proof. intros s. simpl. reflexivity. Qed.

Lemma keeps_abort (m : M A) : (∀ s, final_state (m s) = s) → keeps R m.
Proof. intros H s. rewrite H. reflexivity. Qed.

Lemma keeps_modify (f : Slave → Slave) : (∀ s, R s (f s)) → keeps R (modify f).
Proof. intros H s. apply H. Qed.

Lemma keeps_bind (m : M A) (f : A → M B) :
  keeps R m → (∀ a, keeps R (f a)) → keeps R (m ≫= f).
Proof.
  intros Hm Hf s. specialize (Hm s). unfold mbind, M_bind.
  destruct (m s) as [a s'| | | |]; simpl in *; try done.
  etrans; [exact Hm|apply Hf].
Qed.

Lemma keeps_catch_retry (m handler : M A) :
  keeps R m → keeps R handler → keeps R (catch_retry m handler).
Proof.
  intros Hm Hh s. specialize (Hm s). unfold catch_retry.
  destruct (m s) as [a s'|msg s'| | |]; simpl in *; try done.
  etrans; [exact Hm|apply Hh].
Qed.
End Keeps.

#[local] Instance skipped_grows_preorder : PreOrder skipped_grows.
Proof.
  split.
  - intros s. unfold skipped_grows. lia.
  - intros s1 s2 s3. unfold skipped_grows. lia.
Qed.

Section PlaylistMore.
Variable handler : Handler.
Variable world : World.

Lemma error_skipped_grows msg : keeps skipped_grows (error handler world msg).
Proof.
  intros s. unfold error, skipped_grows. run_monad.
  repeat (case_match; simpl); lia.
Qed.

Lemma on_progress_skipped_grows d : keeps skipped_grows (_on_progress d).
Proof.
  intros s. unfold _on_progress, skipped_grows. run_monad.
  repeat (case_match; simpl); lia.
Qed.

Lemma run_backend_skipped_grows steps :
  keeps skipped_grows (run_backend handler world steps).
Proof.
  induction steps as [|[msg|d|name info] steps IH]; simpl.
  - apply keeps_ret; apply _.
  - apply keeps_bind; [apply _|apply error_skipped_grows|done].
  - apply keeps_bind; [apply _|apply on_progress_skipped_grows|done].
  - apply keeps_bind; [apply _| |done].
    apply keeps_modify. intros s. unfold skipped_grows. simpl. lia.
Qed.

(** The backend itself never runs out of fuel: it has none to run out
    of. *)
Lemma run_backend_in_time steps : ∀ s,
  in_time (run_backend handler world steps s).
Proof.
  induction steps as [|[msg|d|name info] steps IH]; intros s; simpl.
  - done.
  - unfold mbind, M_bind.
    destruct (error handler world msg s) eqn:He; try done.
    revert He. unfold error. run_monad. repeat (case_match; simpl); done.
  - unfold mbind, M_bind.
    destruct (_on_progress d s) eqn:He; try done.
    revert He. unfold _on_progress. run_monad.
    repeat (case_match; simpl); done.
  - unfold mbind, M_bind, modify. apply IH.
Qed.

(** A retry signal leaves authentication requests switched off. *)
Lemma error_retry_disallows msg s msg' s' :
  error handler world msg s = Retry msg' s' →
  _allow_authentication_request s' = false.
Proof.
  unfold error. run_monad. repeat (case_match; simpl); try done;
    by intros [= _ <-].
Qed.

Lemma run_backend_retry_disallows steps : ∀ s msg s',
  run_backend handler world steps s = Retry msg s' →
  _allow_authentication_request s' = false.
Proof.
  induction steps as [|[m|d|name info] steps IH]; intros s msg s'; simpl.
  - done.
  - unfold mbind, M_bind.
    destruct (error handler world m s) eqn:He; try done.
    + apply IH.
    + intros [= <- <-]. by eapply error_retry_disallows.
  - unfold mbind, M_bind.
    destruct (on_progress_keeps_state d s) as (Hr & _).
    destruct (_on_progress d s); try done. apply IH.
  - unfold mbind, M_bind, modify. apply IH.
Qed.

(** The value of the loop is a count that the slave has gone through. *)
Lemma load_playlist_loop_saved fuel url : ∀ s saved s',
  load_playlist_loop handler world fuel url s = Done saved s' →
  _skipped_count s ≤ saved ≤ _skipped_count s'.
Proof.
  induction fuel as [|fuel IH]; intros s saved s'; [done|].
  simpl. unfold mbind at 1 2 3. unfold M_bind at 1 2 3.
  unfold get, call, modify. simpl. unfold catch_retry.
  set (s1 := emit (EvYdlDownload (ydl_opts s) url) s).
  set (steps := ydl_download world _ _ _).
  pose proof (run_backend_skipped_grows steps s1) as Hgrow.
  unfold skipped_grows in Hgrow. unfold mbind, M_bind.
  destruct (run_backend handler world steps s1) as [[] s2|msg s2| | |];
    simpl in *; try done.
  - intros [= <- <-]. destruct s; simpl in *. lia.
  - intros Hloop. apply IH in Hloop. destruct s; simpl in *. lia.
Qed.
End PlaylistMore.

(** ** [_load_playlist] *)

Lemma skip_digits_app ds r :
  Forall (λ c, is_digit c = true) ds →
  (∀ c r', r = c :: r' → is_digit c = false) →
  skip_digits (ds ++ r) = r.
Proof.
  intros Hds Hr. induction Hds as [|d ds Hd _ IH]; simpl.
  - destruct r as [|c r']; [done|]. simpl. by rewrite (Hr c r' eq_refl).
  - by rewrite Hd.
Qed.

Lemma skip_digits_split s :
  ∃ ds, s = ds ++ skip_digits s ∧ Forall (λ c, is_digit c = true) ds.
Proof.
  induction s as [|c s (ds & Hs & Hds)]; simpl.
  - by exists [].
  - destruct (is_digit c) eqn:Hc.
    + exists (c :: ds). split; [simpl; by rewrite <- Hs|by constructor].
    + by exists [].
Qed.

(** X16: the files that [_load_playlist] reads as info dicts are those
    whose name is one digit or more followed by [.info.json], as
    [re.fullmatch(r'[0-9]+\.info\.json', filename)] has it. *)
Theorem is_info_json_spec (filename : pystr) :
  is_info_json filename = true ↔
  ∃ digits, digits ≠ [] ∧ Forall (λ c, is_digit c = true) digits ∧
            filename = digits ++ py ".info.json".
Proof.
  unfold is_info_json. split.
  - destruct filename as [|c f]; [done|].
    intros [Hc Hrest]%andb_true_iff. unfold str_eqb in Hrest.
    apply bool_decide_eq_true in Hrest.
    destruct (skip_digits_split (c :: f)) as (ds & Hs & Hds).
    rewrite Hrest in Hs.
    exists ds. split; [|split; [done|exact Hs]].
    intros ->. vm_compute in Hs. injection Hs as -> _.
    by vm_compute in Hc.
  - intros (ds & Hne & Hds & ->). destruct ds as [|d ds]; [done|].
    apply Forall_cons in Hds as [Hd Hds].
    change (is_digit d &&
            str_eqb (skip_digits ((d :: ds) ++ py ".info.json"))
                    (py ".info.json") = true).
    rewrite Hd. rewrite skip_digits_app.
    + unfold str_eqb. by rewrite bool_decide_eq_true_2.
    + by constructor.
    + by intros c r' [= <- _].
Qed.

Lemma str_leb_total s : ∀ t, str_leb s t = false → str_leb t s = true.
Proof.
  induction s as [|a s IH]; intros [|b t]; simpl; try done.
  destruct (N.ltb_spec a b), (N.ltb_spec b a), (N.eqb_spec a b),
    (N.eqb_spec b a); simpl; try done; try lia.
  apply IH.
Qed.

Lemma insert_sorted_perm {V} (kv : pystr * V) l :
  insert_sorted kv l ≡ₚ kv :: l.
Proof.
  induction l as [|kv' l IH]; simpl; [done|].
  destruct (str_leb kv.1 kv'.1); [done|].
  rewrite IH. apply Permutation_swap.
Qed.

Lemma insert_sorted_sorted {V} (kv : pystr * V) l :
  Sorted by_name l → Sorted by_name (insert_sorted kv l).
Proof.
  induction 1 as [|kv' l Hl IH Hhd]; simpl.
  - by repeat constructor.
  - destruct (str_leb kv.1 kv'.1) eqn:Hle.
    + constructor; [by constructor|by constructor].
    + constructor; [exact IH|].
      apply str_leb_total in Hle.
      destruct Hhd as [|kv'' l' Hle']; simpl.
      * by constructor.
      * destruct (str_leb kv.1 kv''.1); by constructor.
Qed.

Lemma sorted_by_name_spec {V} (l : list (pystr * V)) :
  sorted_by_name l ≡ₚ l ∧ Sorted by_name (sorted_by_name l).
Proof.
  unfold sorted_by_name. induction l as [|kv l [IHp IHs]]; simpl.
  - split; [done|constructor].
  - split; [by rewrite insert_sorted_perm, IHp|by apply insert_sorted_sorted].
Qed.

(** X17: the info dicts that [_load_playlist] returns are those of the
    info files of its working directory, in the ascending order of the
    names of the files. *)
Theorem load_playlist_in_name_order (handler : Handler) (world : World)
    (fuel : nat) (url : pystr) (s : Slave)
    (info_dicts : list InfoDict) (skipped : Z) (s' : Slave) :
  _load_playlist handler world fuel url s = Done (info_dicts, skipped) s' →
  ∃ files,
    files ≡ₚ filter (λ kv, is_info_json kv.1 = true) (workdir s') ∧
    Sorted by_name files ∧
    info_dicts = files.*2.
Proof.
  unfold _load_playlist. unfold mbind at 1 2. unfold M_bind at 1 2.
  unfold modify.
  destruct (load_playlist_loop handler world fuel url (set_workdir [] s))
    as [saved s1| | | |]; try done.
  run_monad. intros [= <- _ <-].
  eexists. split; [apply sorted_by_name_spec|].
  split; [apply sorted_by_name_spec|done].
Qed.

Lemma load_playlist_in_name_order_witness :
  ∃ skipped s',
    _load_playlist login_handler shuffled_world 1
                   (get_url login_handler) (new_slave login_handler)
    = Done ([sample_info (py "v1") (py "First");
             sample_info (py "v2") (py "Second");
             sample_info (py "v10") (py "Tenth")], skipped) s' ∧
    ∃ files,
      files ≡ₚ filter (λ kv, is_info_json kv.1 = true) (workdir s') ∧
      Sorted by_name files ∧
      [sample_info (py "v1") (py "First");
       sample_info (py "v2") (py "Second");
       sample_info (py "v10") (py "Tenth")] = files.*2.
Proof.
  destruct (_load_playlist login_handler shuffled_world 1
              (get_url login_handler) (new_slave login_handler))
    as [[infos skipped] s'| | | |] eqn:Hrun;
    try (by vm_compute in Hrun).
  assert (infos = [sample_info (py "v1") (py "First");
                   sample_info (py "v2") (py "Second");
                   sample_info (py "v10") (py "Tenth")]) as ->.
  { vm_compute in Hrun. by injection Hrun as <- _ _. }
  exists skipped, s'. split; [done|].
  exact (load_playlist_in_name_order _ _ _ _ _ _ _ _ Hrun).
Defined.

(** X18: the number of skipped items that [_load_playlist] returns is
    never negative, and it is no more than what [_skipped_count] has grown
    by during the call: the items that were skipped in an invocation of the
    backend that ended in a retry are not counted. *)
Theorem load_playlist_skipped_nonnegative (handler : Handler) (world : World)
    (fuel : nat) (url : pystr) (s : Slave)
    (info_dicts : list InfoDict) (skipped : Z) (s' : Slave) :
  _load_playlist handler world fuel url s = Done (info_dicts, skipped) s' →
  0 ≤ skipped ≤ _skipped_count s' - _skipped_count s.
Proof.
  unfold _load_playlist. unfold mbind at 1 2. unfold M_bind at 1 2.
  unfold modify.
  destruct (load_playlist_loop handler world fuel url (set_workdir [] s))
    as [saved s1| | | |] eqn:Hloop; try done.
  run_monad. intros [= _ <- <-].
  apply load_playlist_loop_saved in Hloop. simpl in Hloop. lia.
Qed.

Lemma load_playlist_skipped_nonnegative_witness :
  ∃ info_dicts skipped s',
    _load_playlist declining_handler stubborn_world 1
                   (get_url declining_handler) (new_slave declining_handler)
    = Done (info_dicts, skipped) s' ∧
    0 ≤ skipped ≤ _skipped_count s' - 0.
Proof.
  destruct (_load_playlist declining_handler stubborn_world 1
              (get_url declining_handler) (new_slave declining_handler))
    as [[infos skipped] s'| | | |] eqn:Hrun;
    try (by vm_compute in Hrun).
  exists infos, skipped, s'. split; [done|].
  exact (load_playlist_skipped_nonnegative _ _ _ _ _ _ _ _ Hrun).
Defined.

Section InvocationsMore.
Variable handler : Handler.
Variable world : World.

Lemma count_backend_calls_emit e s :
  is_backend_call e = true →
  count_calls is_backend_call (emit e s)
  = S (count_calls is_backend_call s).
Proof.
  intros He. unfold count_calls. destruct s. cbn [trace emit].
  rewrite filter_app, length_app, filter_cons_True by done. simpl. lia.
Qed.

Lemma run_backend_no_backend_call steps s :
  count_calls is_backend_call (final_state (run_backend handler world steps s))
  = count_calls is_backend_call s.
Proof.
  apply appends_count.
  eapply appends_mono; [|apply run_backend_appends]. by intros [].
Qed.

(** One turn of the [while True] loop of [_load_playlist]. *)
Lemma load_playlist_loop_step fuel url s :
  load_playlist_loop handler world (S fuel) url s
  = let s1 := emit (EvYdlDownload (ydl_opts s) url) s in
    match run_backend handler world
            (ydl_download world (trace s1) (ydl_opts s) url) s1 with
    | Done _ s2 => Done (_skipped_count s) s2
    | Retry _ s2 => load_playlist_loop handler world fuel url s2
    | Exit code s2 => Exit code s2
    | Crash e s2 => Crash e s2
    | OutOfFuel s2 => OutOfFuel s2
    end.
Proof.
  simpl. unfold mbind at 1 2 3. unfold M_bind at 1 2 3.
  unfold get, call, modify, catch_retry. simpl.
  unfold mbind, M_bind.
  by destruct (run_backend _ _ _ _) as [[] ?| | | |].
Qed.

Lemma load_playlist_loop_twice fuel url s :
  let o := load_playlist_loop handler world (S (S fuel)) url s in
  in_time o ∧ not_retry o ∧
  (count_calls is_backend_call s
   < count_calls is_backend_call (final_state o)
   ≤ count_calls is_backend_call s + 2)%nat.
Proof.
  rewrite load_playlist_loop_step. cbv zeta.
  set (s1 := emit (EvYdlDownload (ydl_opts s) url) s).
  set (steps := ydl_download world (trace s1) (ydl_opts s) url).
  assert (count_calls is_backend_call s1
          = S (count_calls is_backend_call s)) as Hs1.
  { by apply count_backend_calls_emit. }
  pose proof (run_backend_in_time handler world steps s1) as Htime.
  pose proof (run_backend_no_backend_call steps s1) as Hcount.
  clearbody steps s1.
  destruct (run_backend handler world steps s1) as [[] s2|msg s2| | |] eqn:Hrun;
    cbn [final_state in_time not_retry] in *;
    try (split; [done|]; split; [done|]; lia); try done.
  apply run_backend_retry_disallows in Hrun.
  rewrite load_playlist_loop_disallowed by done.
  destruct (invoke_once_disallowed handler world url s2 Hrun) as [Hr Hc].
  split; [|split; [done|lia]].
  unfold invoke_once, mbind, M_bind.
  pose proof (run_backend_in_time handler world
                (ydl_download world
                   (trace (emit (EvYdlDownload (ydl_opts s2) url) s2))
                   (ydl_opts s2) url)
                (emit (EvYdlDownload (ydl_opts s2) url) s2)) as Htime2.
  by destruct (run_backend _ _ _ _).
Qed.

(** [_load_playlist] around its loop. *)
Lemma load_playlist_outcome fuel url s :
  _load_playlist handler world fuel url s
  = match load_playlist_loop handler world fuel url (set_workdir [] s) with
    | Done saved s' =>
        Done ((sorted_by_name
                 (filter (λ kv, is_info_json kv.1 = true) (workdir s'))).*2,
              _skipped_count s' - saved) s'
    | Retry msg s' => Retry msg s'
    | Exit code s' => Exit code s'
    | Crash e s' => Crash e s'
    | OutOfFuel s' => OutOfFuel s'
    end.
Proof.
  unfold _load_playlist. unfold mbind at 1 2. unfold M_bind at 1 2.
  unfold modify.
  by destruct (load_playlist_loop handler world fuel url (set_workdir [] s)).
Qed.

(** One turn of the [while True] loop of [_load_video]. *)
Lemma load_video_loop_step fuel info_path s :
  load_video_loop handler world (S fuel) info_path s
  = let s1 := emit (EvYdlDownloadWithInfoFile (ydl_opts s) info_path) s in
    let fetched :=
      ydl_download_with_info_file world (trace s1) (ydl_opts s) info_path in
    match run_backend handler world fetched.1 s1 with
    | Done _ s2 => Done fetched.2 s2
    | Retry _ s2 => load_video_loop handler world fuel info_path s2
    | Exit code s2 => Exit code s2
    | Crash e s2 => Crash e s2
    | OutOfFuel s2 => OutOfFuel s2
    end.
Proof.
  simpl. unfold mbind at 1 2 3. unfold M_bind at 1 2 3.
  unfold get, call, modify. simpl.
  destruct (ydl_download_with_info_file world _ _ _) as [steps filepath].
  unfold catch_retry, mbind, M_bind. simpl.
  by destruct (run_backend _ _ _ _) as [[] ?| | | |].
Qed.
End InvocationsMore.

(** X19: the [while True] loop of [_load_playlist] ends: with fuel for two
    invocations of the backend it never runs out of fuel, whatever the
    backend and the user do.  A call of [_load_playlist] invokes the
    backend once or twice, and no retry signal leaves it. *)
Theorem load_playlist_invokes_at_most_twice (handler : Handler)
    (world : World) (fuel : nat) (url : pystr) (s : Slave) :
  let o := _load_playlist handler world (S (S fuel)) url s in
  in_time o ∧ not_retry o ∧
  (count_calls is_backend_call s
   < count_calls is_backend_call (final_state o)
   ≤ count_calls is_backend_call s + 2)%nat.
Proof.
  rewrite load_playlist_outcome.
  destruct (load_playlist_loop_twice handler world fuel url (set_workdir [] s))
    as (Htime & Hretry & Hcount).
  assert (count_calls is_backend_call (set_workdir [] s)
          = count_calls is_backend_call s) as Hs by (by destruct s).
  rewrite Hs in Hcount.
  destruct (load_playlist_loop handler world (S (S fuel)) url
              (set_workdir [] s)) as [saved s1| | | |];
    cbn [final_state in_time not_retry] in *;
    (split; [done|]; split; [done|]; lia).
Qed.

(** X20: in the download loop, where authentication requests are switched
    off, [_load_video] invokes the backend exactly once, and no retry
    signal leaves it.  When the backend has run to its end, [_load_video]
    returns the absolute path of the file that [GetFilepathPP] has seen, and
    raises [TypeError] when that post-processor has not run, since the path
    is still [None]. *)
Theorem load_video_once_when_disallowed (handler : Handler) (world : World)
    (fuel : nat) (dir_ info_path : pystr) (s : Slave) :
  _allow_authentication_request s = false →
  let s1 := emit (EvYdlDownloadWithInfoFile (ydl_opts s) info_path) s in
  let fetched :=
    ydl_download_with_info_file world (trace s1) (ydl_opts s) info_path in
  let o := _load_video handler world (S fuel) dir_ info_path s in
  in_time o ∧ not_retry o ∧
  count_calls is_backend_call (final_state o)
  = S (count_calls is_backend_call s) ∧
  (∀ s2, run_backend handler world fetched.1 s1 = Done () s2 →
         o = match fetched.2 with
             | Some filepath => Done (abspath world filepath) s2
             | None => Crash TypeError s2
             end).
Proof.
  intros Ha s1 fetched. unfold _load_video, mbind, M_bind.
  rewrite load_video_loop_step. cbv zeta. fold s1. fold fetched.
  assert (count_calls is_backend_call s1
          = S (count_calls is_backend_call s)) as Hs1.
  { by apply count_backend_calls_emit. }
  pose proof (run_backend_in_time handler world fetched.1 s1) as Htime.
  pose proof (run_backend_no_backend_call handler world fetched.1 s1)
    as Hcount.
  destruct (run_backend_disallowed handler world fetched.1 s1) as (Hr & _);
    [by destruct s|].
  clearbody fetched s1.
  destruct (run_backend handler world fetched.1 s1) as [[] s2| | | |];
    cbn [final_state in_time not_retry] in *; try done.
  - destruct fetched.2 as [filepath|]; simpl.
    + split; [done|]. split; [done|]. split; [lia|]. by intros ? [= <-].
    + split; [done|]. split; [done|]. split; [lia|]. by intros ? [= <-].
  - split; [done|]. split; [done|]. split; [lia|done].
  - split; [done|]. split; [done|]. split; [lia|done].
Qed.

Lemma load_video_once_when_disallowed_witness :
  let s := set_allow false (new_slave login_handler) in
  _load_video login_handler silent_world 1 (py "/dl/v.part")
              (py "/dl/v.part/v1.info.json") s
  = Crash TypeError
      (emit (EvYdlDownloadWithInfoFile (ydl_opts s)
               (py "/dl/v.part/v1.info.json")) s).
Proof.
  intros s.
  destruct (load_video_once_when_disallowed login_handler silent_world 0
              (py "/dl/v.part") (py "/dl/v.part/v1.info.json") s)
    as (_ & _ & _ & Hrun); [reflexivity|].
  apply (Hrun (emit (EvYdlDownloadWithInfoFile (ydl_opts s)
                       (py "/dl/v.part/v1.info.json")) s)).
  reflexivity.
Defined.

(** ** [_find_existing_download] *)

Lemma splitext_app p file_title file_ext :
  splitext p = (file_title, file_ext) → p = file_title ++ file_ext.
Proof.
  unfold splitext. destruct (_ && _); intros [= <- <-].
  - by rewrite take_drop.
  - by rewrite app_nil_r.
Qed.

Lemma find_in_glob_sound world found output_title mode name :
  find_in_glob world found output_title mode = Some name →
  (name, true) ∈ found ∧
  ∃ ext, splitext name = (output_title, ext) ∧
         extension_suits world mode ext.
Proof.
  induction found as [|[filename isfile] found IH]; [done|].
  simpl. destruct (splitext filename) as [file_title file_ext] eqn:Hf.
  destruct (str_eqb file_title output_title && _ && isfile) eqn:Hcond.
  - intros [= <-].
    apply andb_prop in Hcond as [Hcond ->].
    apply andb_prop in Hcond as [Ht Hs].
    apply bool_decide_eq_true in Ht as ->.
    split; [by left|]. exists file_ext. split; [done|].
    by apply extension_suits_true.
  - intros [Hin H]%IH. split; [by right|exact H].
Qed.

Lemma find_existing_download_returns_finished world entries output_title
    mode name :
  _find_existing_download world entries output_title mode = Some name →
  finished_download world entries output_title mode name.
Proof.
  unfold _find_existing_download.
  intros (Hin & ext & Hsplit & Hsuits)%find_in_glob_sound.
  unfold iglob_title in Hin. apply list_elem_of_filter in Hin as [[Hp _] Hin].
  split; [done|]. exists ext. split; [done|]. split; [|done].
  intros ->. apply splitext_app in Hsplit. rewrite app_nil_r in Hsplit.
  subst name. simpl in Hp. apply startswith_spec in Hp as [r Hr].
  apply (f_equal length) in Hr. rewrite !length_app in Hr. simpl in Hr. lia.
Qed.

(** X21: what [_find_existing_download] returns is a finished download: a
    regular file of the download directory whose name is the output title
    followed by an extension that is not empty and suits the mode ([.mp3]
    in any case for audio, anything else for video).  And it returns [None]
    only when the directory holds no such file. *)
Theorem find_existing_download_sound (world : World)
    (entries : list (pystr * bool)) (output_title mode : pystr) :
  match _find_existing_download world entries output_title mode with
  | Some name => finished_download world entries output_title mode name
  | None => ∀ name, ¬ finished_download world entries output_title mode name
  end.
Proof.
  destruct (_find_existing_download world entries output_title mode)
    as [name|] eqn:Hfind.
  - by apply find_existing_download_returns_finished.
  - intros name Hfin.
    apply find_existing_download_finished in Hfin as (existing & Hsome & _).
    congruence.
Qed.

(** ** Automatic captions *)

Lemma dict_set_fresh {V} (k : pystr) (v : V) (d : list (pystr * V)) :
  k ∉ d.*1 → dict_set k v d = d ++ [(k, v)].
Proof.
  induction d as [|[k' v'] d IH]; simpl; [done|].
  intros Hk. apply not_elem_of_cons in Hk as [Hne Hk].
  unfold str_eqb. rewrite bool_decide_eq_false_2 by congruence.
  by rewrite IH.
Qed.

Section CaptionsMore.
Variable requested : list pystr.
Variable automatic_captions : Captions.

(** What the loop keeps is what it had, or a language it has met that was
    not to be skipped. *)
Lemma select_entries todo : ∀ skip new lang subs,
  (lang, subs) ∈ (select_captions requested automatic_captions todo skip new).1
  → (lang, subs) ∈ new ∨ (lang, subs) ∈ todo ∧ lang ∉ skip.
Proof.
  induction todo as [|[l s] todo IH]; intros skip new lang subs; simpl.
  - by left.
  - case_bool_decide as Hskip.
    + intros [H|[H ?]]%IH; [by left|right]. split; [by right|done].
    + destruct (match_requested l skip automatic_captions requested)
        as [r|] eqn:Hm.
      * intros [H|[H Hns]]%IH.
        -- apply elem_of_dict_set in H as [[= -> ->]|H]; [|by left].
           right. split; [by left|done].
        -- right. split; [by right|]. intros Hin. apply Hns.
           destruct r as [r|]; simpl; [set_solver|done].
      * intros [H|[H ?]]%IH; [by left|right]. split; [by right|done].
Qed.

(** With nothing requested the loop keeps nothing. *)
Lemma select_nothing_requested todo : ∀ skip new,
  requested = [] →
  select_captions requested automatic_captions todo skip new = (new, skip).
Proof.
  induction todo as [|[l s] todo IH]; intros skip new Hreq; simpl; [done|].
  rewrite Hreq in *. simpl. case_bool_decide; by apply IH.
Qed.

(** With ['all'] requested the loop keeps every language that is not to be
    skipped from the start. *)
Lemma select_all (skip0 : gset pystr) todo : ∀ skip new,
  py "all" ∈ requested →
  (∀ l, dict_has l automatic_captions = true → l ∈ skip ↔ l ∈ skip0) →
  (∀ kv, kv ∈ todo → dict_has kv.1 automatic_captions = true) →
  NoDup (new.*1 ++ todo.*1) →
  (select_captions requested automatic_captions todo skip new).1
  = new ++ filter (λ kv, kv.1 ∉ skip0) todo.
Proof.
  induction todo as [|[l s] todo IH]; intros skip new Hall Hinv Hsub Hnd;
    simpl.
  - by rewrite app_nil_r.
  - assert (dict_has l automatic_captions = true) as Hl.
    { apply (Hsub (l, s)). by left. }
    assert (NoDup (new.*1 ++ todo.*1)) as Hnd'.
    { apply NoDup_app in Hnd as (Hn1 & Hn2 & Hn3).
      apply NoDup_cons in Hn3 as [_ Hn3].
      apply NoDup_app. split; [done|]. split; [|done].
      intros x Hx Hx'. apply (Hn2 x Hx). by right. }
    assert (∀ kv, kv ∈ todo → dict_has kv.1 automatic_captions = true)
      as Hsub'.
    { intros kv Hkv. apply Hsub. by right. }
    case_bool_decide as Hskip.
    + rewrite filter_cons_False by (simpl; apply Hinv in Hskip; tauto).
      by apply IH.
    + rewrite filter_cons_True by (simpl; rewrite <- Hinv; done).
      destruct (match_requested l skip automatic_captions requested)
        as [r|] eqn:Hm.
      2:{ exfalso.
          apply (match_requested_breaks requested automatic_captions l skip);
            [|done].
          exists (py "all"). split; [done|by left]. }
      rewrite dict_set_fresh.
      2:{ apply NoDup_app in Hnd as (_ & Hn2 & _).
          intros Hin. apply (Hn2 l Hin). by left. }
      rewrite IH; [by rewrite <- app_assoc|done| |done|].
      * intros l' Hl'. rewrite <- (Hinv l' Hl').
        destruct r as [r|]; simpl; [|done].
        apply match_requested_translation in Hm as (_ & _ & Hr & _).
        split; [|set_solver].
        intros [->%elem_of_singleton|?]%elem_of_union; [congruence|done].
      * rewrite fmap_app. simpl. rewrite <- app_assoc. simpl.
        apply NoDup_app in Hnd as (Hn1 & Hn2 & Hn3).
        apply NoDup_cons in Hn3 as [Hn3 Hn4].
        apply NoDup_app. split; [done|]. split; [|by constructor].
        intros x Hx. by apply Hn2.
Qed.
End CaptionsMore.

Lemma reconcile_captions_selected requested info :
  captions_of (reconcile_captions requested info)
  = selected requested (captions_of info)
             (list_to_set (subtitle_languages info)).
Proof.
  unfold reconcile_captions, captions_of, selected, subtitle_languages.
  case_bool_decide as Hchanged; simpl; [done|].
  destruct (decide (default [] (info_automatic_captions info)
                    = (select_captions requested
                         (default [] (info_automatic_captions info))
                         (default [] (info_automatic_captions info))
                         (list_to_set (default [] (info_subtitles info)).*1)
                         []).1)) as [Heq|Hne]; [done|].
  by destruct Hchanged.
Qed.

(** X22: the reconciliation of the automatic captions only removes
    languages.  Every language it leaves was among the automatic captions
    of the item, with the same payload, and has no subtitles of its own;
    the identifier, the title and the subtitles of the item are untouched;
    and when it changes the captions at all, the old ones are kept under
    ['_backup_automatic_captions']. *)
Theorem reconcile_captions_only_removes (requested : list pystr)
    (info : InfoDict) :
  let info' := reconcile_captions requested info in
  (∀ lang subs,
     (lang, subs) ∈ captions_of info' →
     (lang, subs) ∈ captions_of info ∧ lang ∉ subtitle_languages info) ∧
  info_id info' = info_id info ∧
  info_title info' = info_title info ∧
  info_subtitles info' = info_subtitles info ∧
  (info' = info ∨
   info_backup_automatic_captions info' = Some (captions_of info) ∧
   captions_of info' ≠ captions_of info).
Proof.
  intros info'. split.
  - intros lang subs. unfold info'. rewrite reconcile_captions_selected.
    unfold selected. intros [Hnil|[Hin Hskip]]%select_entries.
    + by apply elem_of_nil in Hnil.
    + split; [done|]. by rewrite elem_of_list_to_set in Hskip.
  - unfold info', reconcile_captions.
    case_bool_decide as Hchanged; simpl; [|by repeat split; try left].
    repeat split. right. split; [done|].
    unfold captions_of. simpl. congruence.
Qed.

(** X23: when no language is requested, no automatic caption is left, and
    the captions there were are kept under
    ['_backup_automatic_captions']. *)
Theorem reconcile_captions_nothing_requested (info : InfoDict) :
  captions_of (reconcile_captions [] info) = [] ∧
  ((∃ kv rest, captions_of info = kv :: rest) →
   info_backup_automatic_captions (reconcile_captions [] info)
   = Some (captions_of info)).
Proof.
  split.
  - rewrite reconcile_captions_selected. unfold selected.
    by rewrite select_nothing_requested.
  - intros (kv & rest & Hold). unfold reconcile_captions, captions_of in *.
    rewrite select_nothing_requested by done. simpl. rewrite Hold.
    by rewrite bool_decide_eq_true_2.
Qed.

(** X24: when ['all'] is among the requested languages, the automatic
    captions that are left are those of the languages that have no
    subtitles of their own, in the order they had. *)
Theorem reconcile_captions_all_requested (requested : list pystr)
    (info : InfoDict) :
  py "all" ∈ requested →
  NoDup (captions_of info).*1 →
  captions_of (reconcile_captions requested info)
  = filter (λ kv, kv.1 ∉ subtitle_languages info) (captions_of info).
Proof.
  intros Hall Hnd. rewrite reconcile_captions_selected. unfold selected.
  rewrite (select_all requested (captions_of info)
             (list_to_set (subtitle_languages info))); simpl.
  - apply list_filter_iff. intros kv. by rewrite elem_of_list_to_set.
  - done.
  - done.
  - intros kv Hkv. apply dict_has_elem. apply list_elem_of_fmap.
    by exists kv.
  - done.
Qed.

Lemma reconcile_captions_all_requested_witness :
  captions_of (reconcile_captions [py "all"] captioned_info)
  = [(py "de", [py "auto-de"]); (py "fr", [py "auto-fr"])].
Proof.
  rewrite (reconcile_captions_all_requested [py "all"] captioned_info).
  - vm_compute. reflexivity.
  - by left.
  - vm_compute. repeat constructor; set_solver.
Defined.

(** ** The download loop *)

Lemma emit_all_app evs evs' s :
  emit_all (evs ++ evs') s = emit_all evs' (emit_all evs s).
Proof. unfold emit_all. apply foldl_app. Qed.

Lemma refusals_S output_title k :
  refusals output_title (S k)
  = [EvDownloadLock output_title; EvSleep] ++ refusals output_title k.
Proof. reflexivity. Qed.

(** X25: the loop that waits for the lock returns once the lock is
    granted, and not before.  If the handler refuses the lock [k] times and
    grants it then, and there is fuel for [k + 1] turns, the loop asks
    [k + 1] times, sleeps once behind every refusal, calls nothing else and
    returns. *)
Theorem wait_for_lock_granted (handler : Handler) (output_title : pystr)
    (k : nat) :
  ∀ (fuel : nat) (s : Slave),
    (k < fuel)%nat →
    (∀ j, (j < k)%nat →
          on_download_lock handler (trace s ++ refusals output_title j)
                           output_title = false) →
    on_download_lock handler (trace s ++ refusals output_title k)
                     output_title = true →
    wait_for_lock handler fuel output_title s
    = Done () (emit_all (refusals output_title k
                         ++ [EvDownloadLock output_title]) s).
Proof.
  induction k as [|k IH]; intros fuel s Hfuel Hrefused Hgranted;
    (destruct fuel as [|fuel]; [lia|]); simpl; run_monad.
  - change (refusals output_title 0) with (@nil Event) in Hgranted.
    rewrite app_nil_r in Hgranted. by rewrite Hgranted.
  - pose proof (Hrefused 0%nat ltac:(lia)) as H0.
    change (refusals output_title 0) with (@nil Event) in H0.
    rewrite app_nil_r in H0. rewrite H0.
    rewrite (IH fuel (emit EvSleep (emit (EvDownloadLock output_title) s))).
    + reflexivity.
    + lia.
    + intros j Hj. specialize (Hrefused (S j) ltac:(lia)).
      rewrite refusals_S in Hrefused. simpl in *.
      by rewrite <- !app_assoc.
    + rewrite refusals_S in Hgranted. simpl in *.
      by rewrite <- !app_assoc.
Qed.

Lemma wait_for_lock_granted_witness :
  wait_for_lock busy_handler 3 (py "My Video") (new_slave busy_handler)
  = Done () (emit_all [EvDownloadLock (py "My Video"); EvSleep;
                       EvDownloadLock (py "My Video"); EvSleep;
                       EvDownloadLock (py "My Video")]
               (new_slave busy_handler)).
Proof.
  apply (wait_for_lock_granted busy_handler (py "My Video") 2 3
           (new_slave busy_handler)).
  - lia.
  - intros j Hj. destruct j as [|[|j]]; [reflexivity|reflexivity|lia].
  - reflexivity.
Defined.

(** X26: an [OSError] while the folders of a download are made, or while
    the finished download is moved to the download folder, is fatal: the
    handler is told once, with the text of the error behind
    ['ERROR: Failed to create download folder: '] or
    ['ERROR: Falied to move finished download to download folder: '], and
    the slave exits with status 1.  When a folder cannot be made, the info
    file is not written and the backend is not invoked; when the download
    cannot be moved, the temporary folder is not removed; and in no case is
    the download reported as finished. *)
Theorem download_new_os_errors (handler : Handler) (world : World)
    (fuel : nat) (download_dir output_title : pystr) (info : InfoDict)
    (s : Slave) (e : pystr) :
  let temp_download_dir :=
    path_join download_dir (output_title ++ py ".part") in
  let info_path :=
    path_join temp_download_dir
      (sanitize_filename world
         (default [] (truthy (info_id info)) ++ py ".info.json")) in
  let run := download_new handler world fuel download_dir output_title info in
  let s1 := emit (EvMakedirs download_dir) s in
  let s2 := emit (EvMakedirs temp_download_dir) s1 in
  let s3 := emit (EvWriteInfo info_path info) s2 in
  (makedirs world (trace s) download_dir = Some e →
   run s
   = Exit 1 (emit (EvOnError
                     (py "ERROR: Failed to create download folder: " ++ e))
               s1)) ∧
  (makedirs world (trace s) download_dir = None →
   makedirs world (trace s1) temp_download_dir = Some e →
   run s
   = Exit 1 (emit (EvOnError
                     (py "ERROR: Failed to create download folder: " ++ e))
               s2)) ∧
  (∀ temp_filepath s4,
     makedirs world (trace s) download_dir = None →
     makedirs world (trace s1) temp_download_dir = None →
     _load_video handler world fuel temp_download_dir info_path s3
     = Done temp_filepath s4 →
     let target :=
       path_join download_dir
                 (output_title ++ (splitext temp_filepath).2) in
     os_replace world (trace s4) temp_filepath target = Some e →
     run s
     = Exit 1
         (emit (EvOnError
                  (py "ERROR: Falied to move finished download to download folder: "
                   ++ e))
            (emit (EvReplace temp_filepath target) s4))).
Proof.
  intros temp_download_dir info_path run s1 s2 s3.
  unfold run, download_new, try_makedirs.
  fold temp_download_dir. fold info_path.
  split; [|split].
  - intros H1. run_monad. by rewrite H1.
  - intros H1 H2. run_monad. rewrite H1. simpl.
    unfold s1 in H2. simpl in H2. by rewrite H2.
  - intros temp_filepath s4 H1 H2 Hload Hreplace.
    unfold mbind at 1. unfold M_bind at 1.
    unfold mbind at 1 2 3 4. unfold M_bind at 1 2 3 4.
    unfold get, call, modify, mret, M_ret. simpl. rewrite H1. simpl.
    unfold s1 in H2. simpl in H2. rewrite H2.
    unfold mbind at 1 2. unfold M_bind at 1 2. simpl.
    change (emit (EvWriteInfo info_path info)
              (emit (EvMakedirs temp_download_dir)
                 (emit (EvMakedirs download_dir) s))) with s3.
    rewrite Hload. run_monad. by rewrite Hreplace.
Qed.

Lemma download_new_os_errors_witness :
  download_new login_handler readonly_world 1 (py "/home/user/Videos")
               (py "My Video") (sample_info (py "v1") (py "My Video"))
               (new_slave login_handler)
  = Exit 1
      (emit (EvOnError
               (py "ERROR: Failed to create download folder: "
                ++ py "[Errno 30] Read-only file system"))
         (emit (EvMakedirs (py "/home/user/Videos"))
            (new_slave login_handler))).
Proof.
  destruct (download_new_os_errors login_handler readonly_world 1
              (py "/home/user/Videos") (py "My Video")
              (sample_info (py "v1") (py "My Video"))
              (new_slave login_handler)
              (py "[Errno 30] Read-only file system")) as [Hfirst _].
  apply Hfirst. reflexivity.
Defined.

(** ** A finished download is found again *)

Lemma rfind_from_app c l1 : ∀ l2 i found,
  rfind_from c (l1 ++ l2) i found
  = rfind_from c l2 (i + len l1) (rfind_from c l1 i found).
Proof.
  induction l1 as [|d l1 IH]; intros l2 i found; simpl.
  - unfold len. simpl. by rewrite Z.add_0_r.
  - rewrite IH. f_equal. unfold len. simpl length. lia.
Qed.

Lemma rfind_from_absent c s : ∀ i found,
  c ∉ s → rfind_from c s i found = found.
Proof.
  induction s as [|d s IH]; intros i found Hc; simpl; [done|].
  apply not_elem_of_cons in Hc as [Hne Hc].
  rewrite IH by done. destruct (N.eqb_spec d c); congruence.
Qed.

Lemma rfind_absent c s : c ∉ s → rfind c s = -1.
Proof. apply rfind_from_absent. Qed.

Lemma rfind_last c pre post :
  c ∉ post → rfind c (pre ++ c :: post) = len pre.
Proof.
  intros Hc. unfold rfind. rewrite rfind_from_app. simpl.
  rewrite N.eqb_refl. by rewrite rfind_from_absent.
Qed.

Lemma rfind_ge c pre post : len pre ≤ rfind c (pre ++ c :: post).
Proof.
  unfold rfind. rewrite rfind_from_app. simpl. rewrite N.eqb_refl.
  destruct (rfind_from_spec c post (0 + len pre + 1) (0 + len pre))
    as [->|[H _]]; lia.
Qed.

(** An extension that is not empty is a dot followed by characters that
    are neither dots nor slashes. *)
Lemma splitext_extension_shape p file_title file_ext :
  splitext p = (file_title, file_ext) → file_ext ≠ [] →
  ∃ e, file_ext = 46%N :: e ∧ (46%N ∉ e) ∧ (47%N ∉ e).
Proof.
  unfold splitext. destruct (_ && _) eqn:Hcond; [|by intros [= _ <-]].
  intros [= _ <-] _. apply andb_prop in Hcond as [Hlt _].
  apply Z.ltb_lt in Hlt.
  destruct (rfind_spec 46%N p) as [Hd|[Hd Hat]].
  { destruct (rfind_spec 47%N p) as [Hs|[Hs _]]; lia. }
  assert (46%N ∈ p) as Hin by (by eapply list_elem_of_lookup_2).
  apply list_elem_of_split_r in Hin as (l1 & l2 & -> & Hl2).
  rewrite rfind_last in * by done.
  unfold len. rewrite Nat2Z.id, drop_app_length.
  exists l2. split; [done|]. split; [done|].
  intros (m1 & m2 & ->)%list_elem_of_split.
  pose proof (rfind_ge 47%N (l1 ++ 46%N :: m1) m2) as Hge.
  rewrite <- app_assoc in Hge. simpl in Hge.
  unfold len in *. rewrite length_app in Hge. simpl in Hge. lia.
Qed.

(** A title that holds no slash and does not consist of dots, followed by
    such an extension, splits into the title and the extension. *)
Lemma splitext_title output_title e :
  47%N ∉ output_title → (∃ c, c ∈ output_title ∧ c ≠ 46%N) →
  46%N ∉ e → 47%N ∉ e →
  splitext (output_title ++ 46%N :: e) = (output_title, 46%N :: e).
Proof.
  intros Hslash (c & Hc & Hdot) He46 He47. unfold splitext.
  rewrite rfind_last by done.
  rewrite rfind_absent.
  2:{ rewrite elem_of_app, elem_of_cons. intros [?|[?|?]]; done. }
  unfold len. rewrite Nat2Z.id. simpl Z.to_nat.
  rewrite take_app_length, drop_app_length, drop_0.
  assert (forallb (λ c, (c =? 46)%N) output_title = false) as ->.
  { destruct (forallb _ output_title) eqn:Hall; [|done].
    rewrite forallb_forall in Hall.
    apply list_elem_of_In, Hall, N.eqb_eq in Hc. done. }
  assert ((-1 <? Z.of_nat (length output_title)) = true) as ->.
  { apply Z.ltb_lt. lia. }
  done.
Qed.

(** X27: a download that the slave has finished is found again by the next
    job for the same item.  The finished file is written under the output
    title followed by the extension of the downloaded file; if that
    extension is not empty and suits the mode, and the output title holds
    no slash and does not consist of dots only, [_find_existing_download]
    finds a finished download as long as the file is in the download
    folder. *)
Theorem finished_download_is_found_again (world : World)
    (entries : list (pystr * bool)) (output_title mode temp_filepath : pystr) :
  let filename_ext := (splitext temp_filepath).2 in
  let filename := output_title ++ filename_ext in
  filename_ext ≠ [] →
  extension_suits world mode filename_ext →
  47%N ∉ output_title →
  (∃ c, c ∈ output_title ∧ c ≠ 46%N) →
  (filename, true) ∈ entries →
  finished_download world entries output_title mode filename ∧
  ∃ existing,
    _find_existing_download world entries output_title mode = Some existing ∧
    finished_download world entries output_title mode existing.
Proof.
  intros filename_ext filename Hext Hsuits Hslash Hdots Hin.
  destruct (splitext temp_filepath) as [a ext] eqn:Hsplit.
  simpl in filename_ext. subst filename_ext.
  destruct (splitext_extension_shape _ _ _ Hsplit Hext)
    as (e & -> & He46 & He47).
  assert (finished_download world entries output_title mode filename) as Hfin.
  { split; [done|]. exists (46%N :: e).
    split; [by apply splitext_title|done]. }
  split; [exact Hfin|].
  destruct (find_existing_download_finished world entries output_title mode
              filename Hfin) as (existing & Hfind & _).
  exists existing. split; [done|].
  by apply find_existing_download_returns_finished.
Qed.

Lemma finished_download_is_found_again_witness :
  ∃ existing,
    _find_existing_download gated_world
      [(py "My Video.part", false); (py "My Video.mp4", true)]
      (py "My Video") (py "video") = Some existing ∧
    finished_download gated_world
      [(py "My Video.part", false); (py "My Video.mp4", true)]
      (py "My Video") (py "video") existing.
Proof.
  destruct (finished_download_is_found_again gated_world
              [(py "My Video.part", false); (py "My Video.mp4", true)]
              (py "My Video") (py "video") (py "/tmp/job/v1.f22.mp4"))
    as [_ Hfound].
  - intros H. vm_compute in H. discriminate H.
  - split; intros H; vm_compute in H; discriminate H.
  - compute_done.
  - exists 77%N. split; [compute_done|discriminate].
  - compute_done.
  - exact Hfound.
Defined.

(** ** [main.py]: the resolution the application starts with *)

Lemma insert_int_perm x l : insert_int x l ≡ₚ x :: l.
Proof.
  induction l as [|y l IH]; simpl; [done|].
  destruct (x <=? y); [done|]. rewrite IH. apply Permutation_swap.
Qed.

Lemma insert_int_sorted x l : Sorted Z.le l → Sorted Z.le (insert_int x l).
Proof.
  induction 1 as [|y l Hl IH Hhd]; simpl.
  - by repeat constructor.
  - destruct (Z.leb_spec x y) as [Hle|Hgt].
    + constructor; [by constructor|by constructor].
    + constructor; [exact IH|].
      destruct Hhd as [|z l' Hz]; simpl.
      * constructor. lia.
      * destruct (x <=? z); constructor; lia.
Qed.

Lemma sorted_ints_spec l :
  sorted_ints l ≡ₚ l ∧ StronglySorted Z.le (sorted_ints l).
Proof.
  assert (sorted_ints l ≡ₚ l ∧ Sorted Z.le (sorted_ints l)) as [Hp Hs].
  { unfold sorted_ints. induction l as [|x l [IHp IHs]]; simpl.
    - split; [done|constructor].
    - split; [by rewrite insert_int_perm, IHp|by apply insert_int_sorted]. }
  split; [done|]. apply Sorted_StronglySorted; [|done].
  intros a b c. apply Z.le_trans.
Qed.

Lemma seek_resolution_spec r todo : ∀ resolution,
  StronglySorted Z.le todo →
  match seek_resolution r todo resolution with
  | None => resolution = None ∧ todo = []
  | Some x =>
      (x ∈ todo ∨ resolution = Some x ∧ ∀ y, y ∈ todo → y < r) ∧
      (∀ y, y ∈ todo → r ≤ y → r ≤ x ≤ y) ∧
      (∀ y, y ∈ todo → x < r → y ≤ x)
  end.
Proof.
  induction todo as [|x todo IH]; intros resolution Hsorted; simpl.
  - destruct resolution as [c|]; [|done].
    split; [right; split; [done|]|split]; by intros y ?%elem_of_nil.
  - apply StronglySorted_inv in Hsorted as [Hsorted Hx].
    rewrite Forall_forall in Hx.
    destruct (Z.leb_spec r x) as [Hle|Hgt].
    + split; [left; by left|]. split.
      * intros y [->|Hy]%elem_of_cons _; [lia|].
        specialize (Hx y Hy). lia.
      * intros; lia.
    + specialize (IH (Some x) Hsorted).
      destruct (seek_resolution r todo (Some x)) as [z|]; [|by destruct IH].
      destruct IH as (Hz & Hge & Hlt). split; [|split].
      * destruct Hz as [Hz|[[= <-] _]]; left; [by right|by left].
      * intros y [->|Hy]%elem_of_cons Hr; [lia|by apply Hge].
      * intros y [->|Hy]%elem_of_cons Hr; [|by apply Hlt].
        destruct Hz as [Hz|[[= <-] _]]; [|lia].
        by apply (Hx z).
Qed.

(** X28: the resolution that [Application.__init__] gives to the model is
    one of the resolutions of the model: the least one that is not below
    the resolution of the settings, and the greatest one of all when every
    one is below it.  Only with no resolutions at all is the loop variable
    left unbound. *)
Theorem initial_resolution_spec (r : Z) (resolutions : list (Z * pystr)) :
  match initial_resolution r resolutions with
  | None => resolutions = []
  | Some x =>
      x ∈ resolutions.*1 ∧
      (∀ y, y ∈ resolutions.*1 → r ≤ y → r ≤ x ≤ y) ∧
      (∀ y, y ∈ resolutions.*1 → x < r → y ≤ x)
  end.
Proof.
  unfold initial_resolution.
  destruct (sorted_ints_spec resolutions.*1) as [Hperm Hsorted].
  pose proof (seek_resolution_spec r _ None Hsorted) as Hseek.
  destruct (seek_resolution r (sorted_ints resolutions.*1) None) as [x|].
  - destruct Hseek as (Hx & Hge & Hlt). split; [|split].
    + destruct Hx as [Hx|[[=] _]]. by rewrite <- Hperm.
    + intros y Hy. apply Hge. by rewrite Hperm.
    + intros y Hy. apply Hlt. by rewrite Hperm.
  - destruct Hseek as [_ Hnil]. rewrite Hnil in Hperm.
    apply Permutation_nil_l in Hperm. by destruct resolutions.
Qed.

(** ** The two phases of a job *)

#[local] Instance steady_preorder : PreOrder steady.
Proof.
  split.
  - intros s Ha. repeat split; try done. exists []. by rewrite app_nil_r.
  - intros s1 s2 s3 H12 H23 Ha.
    destruct (H12 Ha) as (Ha2 & Ho2 & Hs2 & Hc2 & evs & Ht & Hevs).
    destruct (H23 Ha2) as (Ha3 & Ho3 & Hs3 & Hc3 & evs' & Ht' & Hevs').
    split; [done|]. split; [congruence|]. split; [congruence|].
    split; [congruence|].
    exists (evs ++ evs'). split; [rewrite Ht', Ht; by rewrite app_assoc|].
    apply Forall_app. split; [done|]. by rewrite <- Ho2.
Qed.

#[local] Instance unlimited_preorder : PreOrder unlimited.
Proof.
  split.
  - intros s H. exact H.
  - intros s1 s2 s3 H12 H23 H. by apply H23, H12.
Qed.

Lemma steady_emit e s :
  download_event (ydl_opts s) e → steady s (emit e s).
Proof.
  intros He Ha. destruct s. simpl in *. repeat split; try done.
  exists [e]. split; [done|]. by constructor.
Qed.

Lemma keeps_steady_call e :
  (∀ opts, download_event opts e) → keeps steady (call e).
Proof. intros He s. apply steady_emit, He. Qed.

Section Phases.
Variable handler : Handler.
Variable world : World.

Lemma error_steady msg : keeps steady (error handler world msg).
Proof.
  intros s Ha. rewrite error_disallowed by done.
  destruct (xattr_unsupported msg); simpl.
  - by apply (steady_emit (EvStderr msg) s).
  - assert (steady s (emit (EvOnError msg) (emit (EvStderr msg) s))) as H.
    { etrans; [by apply (steady_emit (EvStderr msg))|].
      by apply (steady_emit (EvOnError msg)). }
    by apply H.
Qed.

Lemma on_progress_steady d : keeps steady (_on_progress d).
Proof.
  intros s. unfold _on_progress. run_monad.
  repeat case_match; simpl;
    first [reflexivity | by apply (steady_emit (EvOnProgress _ _ _ _ _ _))].
Qed.

Lemma run_backend_steady steps :
  keeps steady (run_backend handler world steps).
Proof.
  induction steps as [|[msg|d|name info] steps IH]; simpl.
  - apply keeps_ret; apply _.
  - apply keeps_bind; [apply _|apply error_steady|done].
  - apply keeps_bind; [apply _|apply on_progress_steady|done].
  - apply keeps_bind; [apply _| |done].
    apply keeps_modify. intros s Ha. destruct s. simpl in *.
    repeat split; try done. exists []. by rewrite app_nil_r.
Qed.

Lemma load_video_loop_steady fuel info_path :
  keeps steady (load_video_loop handler world fuel info_path).
Proof.
  intros s. destruct fuel as [|fuel]; [reflexivity|].
  rewrite load_video_loop_step. cbv zeta.
  set (s1 := emit (EvYdlDownloadWithInfoFile (ydl_opts s) info_path) s).
  set (fetched := ydl_download_with_info_file world _ _ _).
  intros Ha.
  assert (steady s s1) as Hs1 by (by apply steady_emit).
  pose proof (run_backend_steady fetched.1 s1) as Hrun.
  destruct (run_backend_disallowed handler world fetched.1 s1) as (Hr & _);
    [by destruct s|].
  assert (steady s (final_state (run_backend handler world fetched.1 s1)))
    as Hall by (etrans; [exact Hs1|exact Hrun]).
  destruct (run_backend handler world fetched.1 s1) as [[] s2| | | |];
    simpl in *; try done; by apply Hall.
Qed.

Lemma load_video_steady fuel dir_ info_path :
  keeps steady (_load_video handler world fuel dir_ info_path).
Proof.
  unfold _load_video.
  apply keeps_bind; [apply _|apply load_video_loop_steady|].
  intros [filepath|]; [apply keeps_ret; apply _|].
  apply keeps_abort; [apply _|done].
Qed.

Lemma wait_for_lock_steady fuel output_title :
  keeps steady (wait_for_lock handler fuel output_title).
Proof.
  induction fuel as [|fuel IH]; simpl.
  - apply keeps_abort; [apply _|done].
  - apply keeps_bind; [apply _|apply keeps_get; apply _|]. intros s0.
    apply keeps_bind; [apply _|by apply keeps_steady_call|]. intros _.
    destruct (on_download_lock handler (trace s0) output_title).
    + apply keeps_ret; apply _.
    + apply keeps_bind; [apply _|by apply keeps_steady_call|done].
Qed.

Lemma try_makedirs_steady path : keeps steady (try_makedirs world path).
Proof.
  unfold try_makedirs.
  apply keeps_bind; [apply _|apply keeps_get; apply _|]. intros s0.
  apply keeps_bind; [apply _|by apply keeps_steady_call|]. intros _.
  apply keeps_ret; apply _.
Qed.

Lemma exit_steady {A} (e : Event) :
  (∀ opts, download_event opts e) →
  keeps steady (call e;; sys_exit 1 : M A).
Proof.
  intros He. apply keeps_bind; [apply _|by apply keeps_steady_call|].
  intros _. apply keeps_abort; [apply _|done].
Qed.

Lemma download_new_steady fuel download_dir output_title info :
  keeps steady
    (download_new handler world fuel download_dir output_title info).
Proof.
  unfold download_new.
  apply keeps_bind; [apply _| |].
  { apply keeps_bind; [apply _|apply try_makedirs_steady|].
    intros [e|]; [apply keeps_ret; apply _|apply try_makedirs_steady]. }
  intros [e|]; [by apply exit_steady|].
  apply keeps_bind; [apply _|by apply keeps_steady_call|]. intros _.
  apply keeps_bind; [apply _|apply load_video_steady|]. intros temp_filepath.
  apply keeps_bind; [apply _|apply keeps_get; apply _|]. intros s0.
  apply keeps_bind; [apply _|by apply keeps_steady_call|]. intros _.
  destruct (os_replace world _ _ _) as [e|]; [by apply exit_steady|].
  apply keeps_bind; [apply _|by apply keeps_steady_call|]. intros _.
  by apply keeps_steady_call.
Qed.

Lemma download_item_steady fuel download_dir mode requested i n info :
  keeps steady
    (download_item handler world fuel download_dir mode requested i n info).
Proof.
  unfold download_item.
  destruct (_short_filename _ _ _ _) as [output_title|e].
  2:{ apply keeps_abort; [apply _|done]. }
  apply keeps_bind; [apply _|by apply keeps_steady_call|]. intros _.
  apply keeps_bind; [apply _|apply wait_for_lock_steady|]. intros _.
  apply keeps_bind; [apply _|apply keeps_get; apply _|]. intros s0.
  destruct (_find_existing_download _ _ _ _) as [existing|].
  - by apply keeps_steady_call.
  - apply download_new_steady.
Qed.

Lemma download_items_steady fuel download_dir mode requested items :
  ∀ i n,
    keeps steady
      (download_items handler world fuel download_dir mode requested i n
                      items).
Proof.
  induction items as [|info items IH]; intros i n; simpl.
  - apply keeps_ret; apply _.
  - apply keeps_bind; [apply _|apply download_item_steady|done].
Qed.

(** The classifier and the backend never bring the limit back. *)
Lemma error_unlimited msg : keeps unlimited (error handler world msg).
Proof.
  intros s. unfold error, unlimited. run_monad.
  repeat (case_match; simpl); done.
Qed.

Lemma on_progress_unlimited d : keeps unlimited (_on_progress d).
Proof.
  intros s. unfold _on_progress, unlimited. run_monad.
  repeat (case_match; simpl); done.
Qed.

Lemma run_backend_unlimited steps :
  keeps unlimited (run_backend handler world steps).
Proof.
  induction steps as [|[msg|d|name info] steps IH]; simpl.
  - apply keeps_ret; apply _.
  - apply keeps_bind; [apply _|apply error_unlimited|done].
  - apply keeps_bind; [apply _|apply on_progress_unlimited|done].
  - apply keeps_bind; [apply _| |done].
    apply keeps_modify. intros [] H. exact H.
Qed.

Lemma keeps_unlimited_call e : keeps unlimited (call e).
Proof. intros [] H. exact H. Qed.

Lemma load_playlist_loop_unlimited fuel url :
  keeps unlimited (load_playlist_loop handler world fuel url).
Proof.
  induction fuel as [|fuel IH]; simpl.
  - apply keeps_abort; [apply _|done].
  - apply keeps_bind; [apply _|apply keeps_get; apply _|]. intros s0.
    apply keeps_bind; [apply _|apply keeps_unlimited_call|]. intros _.
    apply keeps_bind; [apply _|apply keeps_get; apply _|]. intros s1.
    apply keeps_catch_retry; [apply _| |exact IH].
    apply keeps_bind; [apply _|apply run_backend_unlimited|]. intros _.
    apply keeps_ret; apply _.
Qed.

Lemma load_playlist_unlimited fuel url :
  keeps unlimited (_load_playlist handler world fuel url).
Proof.
  unfold _load_playlist.
  apply keeps_bind; [apply _| |].
  { apply keeps_modify. intros [] H. exact H. }
  intros _.
  apply keeps_bind; [apply _|apply load_playlist_loop_unlimited|]. intros ?.
  apply keeps_bind; [apply _|apply keeps_get; apply _|]. intros ?.
  apply keeps_ret; apply _.
Qed.
End Phases.

Lemma bind_done_inv {A B} (m : M A) (f : A → M B) s b s' :
  (m ≫= f) s = Done b s' → ∃ a s1, m s = Done a s1 ∧ f a s1 = Done b s'.
Proof.
  unfold mbind, M_bind. destruct (m s) as [a s1| | | |]; try done.
  intros H. by exists a, s1.
Qed.

Section JobPhases.
Variable handler : Handler.
Variable world : World.

Lemma load_playlist_probes fuel url :
  appends probe_event (_load_playlist handler world fuel url).
Proof.
  eapply appends_mono; [|apply load_playlist_appends]. by intros [].
Qed.

(** Finding out the extent of the job calls the backend on the URL, the
    logger and the user, and nothing else. *)
Lemma load_info_playlist_probes fuel url :
  appends probe_event (load_info_playlist handler world fuel url).
Proof.
  unfold load_info_playlist.
  apply appends_bind; [apply appends_get|]. intros s0.
  apply appends_bind; [by apply appends_modify; intros []|]. intros _.
  apply appends_bind; [by apply appends_modify; intros []|]. intros _.
  apply appends_bind; [apply load_playlist_probes|]. intros [i1 k1].
  apply appends_bind.
  { unfold probe_noplaylist.
    apply appends_bind; [by apply appends_modify; intros []|]. intros _.
    destruct (1 <? total i1 k1); [apply load_playlist_probes|].
    apply appends_ret. }
  intros [i2 k2]. unfold choose_playlist.
  apply appends_bind; [by apply appends_modify; intros []|]. intros _.
  apply appends_bind; [by apply appends_modify; intros []|]. intros _.
  assert (appends probe_event
            ('(info_playlist, _) ← _load_playlist handler world fuel url;
             mret info_playlist)) as Hload.
  { apply appends_bind; [apply load_playlist_probes|]. intros [??].
    apply appends_ret. }
  destruct (total i2 k2 <? total i1 k1).
  - apply appends_bind; [apply appends_get|]. intros s1.
    apply appends_bind; [by apply appends_call|]. intros _.
    apply appends_bind; [by apply appends_modify; intros []|]. intros _.
    destruct (negb (negb _)); [exact Hload|apply appends_ret].
  - destruct (1 <? total i1 k1); [exact Hload|apply appends_ret].
Qed.

(** When the extent of the job is known, the limit of the probes is
    gone. *)
Lemma choose_playlist_ends fuel url i1 k1 i2 k2 s infos s' :
  choose_playlist handler world fuel url i1 k1 i2 k2 s = Done infos s' →
  opt_playlistend (ydl_opts s') = None.
Proof.
  unfold choose_playlist.
  intros (? & sa & Ha & (? & sb & Hb & Hrest)%bind_done_inv)%bind_done_inv.
  injection Ha as _ <-. injection Hb as _ <-.
  match type of Hrest with
  | ?m _ = _ => assert (keeps unlimited m) as Hkeeps
  end.
  { assert (keeps unlimited
              ('(info_playlist, _) ← _load_playlist handler world fuel url;
               mret info_playlist)) as Hload.
    { apply keeps_bind; [apply _|apply load_playlist_unlimited|].
      intros [??]. apply keeps_ret; apply _. }
    destruct (total i2 k2 <? total i1 k1).
    - apply keeps_bind; [apply _|apply keeps_get; apply _|]. intros s1.
      apply keeps_bind; [apply _|apply keeps_unlimited_call|]. intros _.
      apply keeps_bind; [apply _| |].
      { apply keeps_modify. intros [] H. exact H. }
      intros _.
      destruct (negb (negb _)); [exact Hload|apply keeps_ret; apply _].
    - destruct (1 <? total i1 k1); [exact Hload|apply keeps_ret; apply _]. }
  match type of Hrest with
  | ?m ?st = _ => specialize (Hkeeps st)
  end.
  rewrite Hrest in Hkeeps. apply Hkeeps. by destruct s.
Qed.

Lemma load_info_playlist_ends fuel url s infos s' :
  load_info_playlist handler world fuel url s = Done infos s' →
  opt_playlistend (ydl_opts s') = None.
Proof.
  unfold load_info_playlist.
  intros (? & ? & _ & H)%bind_done_inv.
  apply bind_done_inv in H as (? & ? & _ & H).
  apply bind_done_inv in H as (? & ? & _ & H).
  apply bind_done_inv in H as ([i1 k1] & ? & _ & H).
  apply bind_done_inv in H as ([i2 k2] & ? & _ & H).
  by eapply choose_playlist_ends.
Qed.
End JobPhases.

(** X29: a job has two phases.  While the slave finds out the extent of
    the job it calls the backend on the URL, the logger and the user; from
    the first item on it asks the user nothing (no login, no password, no
    playlist request), does not probe the URL again, and invokes the
    backend for every item with the same options, in which subtitles,
    automatic captions and thumbnails are switched on and the limit of the
    probes, [playlistend], is gone. *)
Theorem job_phases (handler : Handler) (world : World) (fuel : nat)
    (s : Slave) :
  let s' := final_state (run_job handler world fuel s) in
  ∃ probe downloads opts,
    trace s' = trace s ++ probe ++ downloads ∧
    Forall probe_event probe ∧
    Forall (download_event opts) downloads ∧
    (downloads = [] ∨ final_options opts).
Proof.
  unfold run_job. unfold mbind at 1. unfold M_bind at 1.
  destruct (load_info_playlist_probes handler world fuel (get_url handler) s)
    as (probe & Hprobe & Hevents).
  destruct (load_info_playlist handler world fuel (get_url handler) s)
    as [infos s1| | | |] eqn:Hload; simpl in Hprobe;
    try (exists probe, [], (ydl_opts s); rewrite app_nil_r;
         split; [done|]; split; [done|]; split; [constructor|by left]).
  apply load_info_playlist_ends in Hload.
  set (s2 := update_opts set_write_all (set_allow false s1)).
  pose proof (download_items_steady handler world fuel
                (abspath world (get_download_dir handler))
                (get_mode handler) (get_automatic_subtitles handler)
                infos 0 (len infos) s2) as Hsteady.
  destruct Hsteady as (_ & _ & _ & _ & downloads & Hdl & Hquiet);
    [by destruct s1|].
  exists probe, downloads, (ydl_opts s2).
  split; [|split; [done|split; [done|]]].
  - unfold mbind, M_bind, modify. fold s2. cbv zeta.
    rewrite Hdl. unfold s2. destruct s1; simpl in *.
    by rewrite Hprobe, app_assoc.
  - right. unfold final_options, s2. by destruct s1.
Qed.

(** ** The items of a job, one after the other *)

Lemma appends_done {A} Q (m : M A) s a s' :
  appends Q m → m s = Done a s' →
  ∃ evs, trace s' = trace s ++ evs ∧ Forall Q evs.
Proof. intros Hm Hs. specialize (Hm s). by rewrite Hs in Hm. Qed.

Lemma omap_no_milestone evs :
  Forall no_milestone evs → omap milestone evs = [].
Proof.
  induction 1 as [|e evs He _ IH]; [done|]. simpl.
  unfold no_milestone in He. by rewrite He.
Qed.

Section Items.
Variable handler : Handler.
Variable world : World.

Lemma load_video_loop_no_milestone fuel info_path :
  appends no_milestone (load_video_loop handler world fuel info_path).
Proof.
  induction fuel as [|fuel IH]; simpl.
  - apply appends_abort. done.
  - apply appends_bind; [apply appends_get|]. intros s0.
    apply appends_bind; [by apply appends_call|]. intros _.
    apply appends_bind; [apply appends_get|]. intros s1.
    destruct (ydl_download_with_info_file world _ _ _) as [steps filepath].
    apply appends_catch_retry; [|exact IH].
    apply appends_bind; [|intros; apply appends_ret].
    eapply appends_mono; [|apply run_backend_appends]. by intros [].
Qed.

Lemma load_video_no_milestone fuel dir_ info_path :
  appends no_milestone (_load_video handler world fuel dir_ info_path).
Proof.
  unfold _load_video.
  apply appends_bind; [apply load_video_loop_no_milestone|].
  intros [filepath|]; [apply appends_ret|by apply appends_abort].
Qed.

Lemma try_makedirs_no_milestone path :
  appends no_milestone (try_makedirs world path).
Proof.
  unfold try_makedirs.
  apply appends_bind; [apply appends_get|]. intros s0.
  apply appends_bind; [by apply appends_call|]. intros _. apply appends_ret.
Qed.

(** A new download that comes to its end reports one finished file, as
    the last thing it does. *)
Lemma download_new_done fuel download_dir output_title info s s' :
  download_new handler world fuel download_dir output_title info s
  = Done () s' →
  ∃ mid filename,
    trace s' = trace s ++ mid ++ [EvDownloadFinished filename] ∧
    Forall no_milestone mid.
Proof.
  unfold download_new.
  intros (failed & sa & Hdirs & Hrest)%bind_done_inv.
  eapply appends_done in Hdirs as (ev1 & Ht1 & Hq1).
  2:{ apply appends_bind; [apply try_makedirs_no_milestone|].
      intros [e|]; [apply appends_ret|apply try_makedirs_no_milestone]. }
  destruct failed as [e|]; [done|].
  apply bind_done_inv in Hrest as (? & sb & Hb & Hrest).
  injection Hb as _ <-.
  apply bind_done_inv in Hrest as (temp_filepath & sc & Hload & Hrest).
  eapply appends_done in Hload as (ev2 & Ht2 & Hq2);
    [|apply load_video_no_milestone].
  apply bind_done_inv in Hrest as (? & ? & Hget & Hrest).
  injection Hget as <- <-.
  apply bind_done_inv in Hrest as (? & sd & Hd & Hrest).
  injection Hd as _ <-.
  destruct (os_replace world _ _ _) as [e|]; [done|].
  injection Hrest as <-.
  eexists (ev1 ++ [_] ++ ev2 ++ [_; _]), _. split.
  - simpl. rewrite Ht2. simpl. rewrite Ht1.
    rewrite <- !app_assoc. simpl. rewrite <- !app_assoc. reflexivity.
  - rewrite !Forall_app. split; [done|]. split; [by repeat constructor|].
    split; [done|]. by repeat constructor.
Qed.

(** An item that comes to its end has been announced first and reported
    as finished last, and nothing of the kind has happened in between. *)
Lemma download_item_done fuel download_dir mode requested i n info s s' :
  download_item handler world fuel download_dir mode requested i n info s
  = Done () s' →
  ∃ mid filename,
    trace s' = trace s ++ EvDownloadStart i n (title_of info) :: mid
                       ++ [EvDownloadFinished filename] ∧
    Forall no_milestone mid.
Proof.
  unfold download_item. fold (title_of info).
  destruct (_short_filename _ _ _ _) as [output_title|e]; [|done].
  intros (? & sa & Ha & Hrest)%bind_done_inv. injection Ha as _ <-.
  apply bind_done_inv in Hrest as (? & sb & Hlock & Hrest).
  eapply appends_done in Hlock as (locks & Ht & Hq);
    [|apply wait_for_lock_appends].
  apply bind_done_inv in Hrest as (? & ? & Hget & Hrest).
  injection Hget as <- <-.
  destruct (_find_existing_download _ _ _ _) as [existing|].
  - injection Hrest as <-. exists locks, existing. split.
    + simpl. rewrite Ht. simpl. by rewrite <- !app_assoc.
    + eapply Forall_impl; [exact Hq|]. by intros [].
  - apply download_new_done in Hrest as (mid & filename & Ht' & Hq').
    exists (locks ++ mid), filename. split.
    + rewrite Ht', Ht. simpl. by rewrite <- !app_assoc.
    + apply Forall_app. split; [|done].
      eapply Forall_impl; [exact Hq|]. by intros [].
Qed.
End Items.

Lemma milestones_of_cons i n info items filename filenames :
  milestones_of i n (info :: items) (filename :: filenames)
  = inl (i, n, title_of info) :: inr filename
    :: milestones_of (i + 1) n items filenames.
Proof.
  unfold milestones_of. cbn [zip zip_with]. rewrite imap_cons.
  cbn [mjoin list_join app fst snd]. rewrite Z.add_0_r. do 3 f_equal.
  apply imap_ext. intros k item _. cbn [compose].
  by replace (i + Z.of_nat (S k)) with (i + 1 + Z.of_nat k) by lia.
Qed.

Lemma omap_milestone_item i n title mid filename evs :
  Forall no_milestone mid →
  omap milestone (EvDownloadStart i n title :: mid
                  ++ [EvDownloadFinished filename] ++ evs)
  = inl (i, n, title) :: inr filename :: omap milestone evs.
Proof.
  intros Hmid.
  change (omap milestone (EvDownloadStart i n title :: mid
                          ++ [EvDownloadFinished filename] ++ evs))
    with (inl (i, n, title)
          :: omap milestone (mid ++ EvDownloadFinished filename :: evs)).
  rewrite omap_app, omap_no_milestone by done. reflexivity.
Qed.

(** X30: a download loop that comes to its end has gone through the
    items in their order, one after the other: every item is announced
    with its index, counted from the index of the first one, with the
    number of items it was given and with its title, and is reported as
    finished before the next one is announced; nothing else is announced
    or reported. *)
Theorem items_announced_in_order (handler : Handler) (world : World)
    (fuel : nat) (download_dir mode : pystr) (requested : list pystr)
    (items : list InfoDict) :
  ∀ (i n : Z) (s s' : Slave),
    download_items handler world fuel download_dir mode requested i n items s
    = Done () s' →
    ∃ evs filenames,
      trace s' = trace s ++ evs ∧
      length filenames = length items ∧
      omap milestone evs = milestones_of i n items filenames.
Proof.
  induction items as [|info items IH]; intros i n s s'; simpl.
  - intros [= <-]. exists [], []. by rewrite app_nil_r.
  - intros ([] & s1 & Hitem & Hrest)%bind_done_inv.
    apply download_item_done in Hitem as (mid & filename & Ht & Hq).
    apply IH in Hrest as (evs & filenames & Ht' & Hlen & Hms).
    exists (EvDownloadStart i n (title_of info) :: mid
            ++ [EvDownloadFinished filename] ++ evs), (filename :: filenames).
    split; [|split].
    + rewrite Ht', Ht. rewrite <- !app_assoc. simpl.
      by rewrite <- !app_assoc.
    + simpl. by rewrite Hlen.
    + rewrite omap_milestone_item by done.
      by rewrite milestones_of_cons, Hms.
Qed.

Lemma items_announced_in_order_witness :
  let items := [sample_info (py "v1") (py "First");
                sample_info (py "v2") (py "Second")] in
  let s := set_allow false (new_slave login_handler) in
  ∃ s' evs filenames,
    download_items login_handler smooth_world 1 (py "/home/user/Videos")
                   (py "video") [] 0 2 items s
    = Done () s' ∧
    trace s' = trace s ++ evs ∧
    length filenames = length items ∧
    omap milestone evs = milestones_of 0 2 items filenames.
Proof.
  intros items s.
  destruct (download_items login_handler smooth_world 1
              (py "/home/user/Videos") (py "video") [] 0 2 items s)
    as [[] s'| | | |] eqn:Hrun; try (by vm_compute in Hrun).
  destruct (items_announced_in_order _ _ _ _ _ _ _ _ _ _ _ Hrun)
    as (evs & filenames & Hspec).
  by exists s', evs, filenames.
Defined.
